(** * claude-pulse: the status-bar rendering engine of [generate_gif.py]

    A shallow embedding of the bar renderer, the theme registry and the two
    frame composers, together with the properties of the rendering engine.

    Python values are modelled as follows.
    - [str] is a [string] holding the UTF-8 encoding of the text, which is
      also the encoding the frames are written with.
    - a number is a [pynum]: an unbounded [int] or a binary64 [float].  Floats
      are the [spec_float]s of the Standard Library at precision 53 and
      exponent bound 1024; every operation on them is the IEEE 754 operation
      of [SpecFloat], so rounding, signed zeros, infinities and NaN are those
      of CPython.
    - an exception is a value of [exn]; a computation that can raise returns a
      [result].
    - the module-level objects ([THEME_CSS], [DIM_COLOR], [RAINBOW_COLORS],
      [MASCOT_PIXELS]) live in a record [Globals] that every function receives
      and hands back, so that "the function does not write to them" is a
      statement one can prove. *)

From Stdlib Require Import ZArith Lia String Ascii List Bool.
From Stdlib Require Import QArith Qpower Lqa Qround.
From Stdlib Require Import Floats.SpecFloat.
From stdpp Require Import base gmap strings pretty.

Local Open Scope string_scope.
Local Open Scope Z_scope.

(** ** Exceptions and results *)

Inductive exn : Type :=
  | KeyError
  | IndexError
  | ValueError
  | ZeroDivisionError
  | OverflowError.

Inductive result (A : Type) : Type :=
  | Ok (a : A)
  | Raise (e : exn).
Arguments Ok {A} a.
Arguments Raise {A} e.

Definition is_ok {A} (r : result A) : bool :=
  match r with Ok _ => true | Raise _ => false end.

Module Res.
Definition bind {A B} (r : result A) (k : A -> result B) : result B :=
  match r with
  | Ok a => k a
  | Raise e => Raise e
  end.
End Res.

(** ** Python numbers *)

Definition prec : Z := 53.
Definition emax : Z := 1024.

Inductive pynum : Type :=
  | PyInt (z : Z)
  | PyFloat (f : spec_float).

(** The exact value of a number, for comparisons: Python compares an [int]
    with a [float] by value, with no rounding of the [int]. *)
Inductive ereal : Type :=
  | ENaN
  | ENegInf
  | EPosInf
  | Dyadic (m e : Z).   (* m * 2^e *)

Definition signed (s : bool) (m : positive) : Z :=
  if s then Zneg m else Zpos m.

Definition ereal_of_float (f : spec_float) : ereal :=
  match f with
  | S754_zero _ => Dyadic 0 0
  | S754_infinity s => if s then ENegInf else EPosInf
  | S754_nan => ENaN
  | S754_finite s m e => Dyadic (signed s m) e
  end.

Definition ereal_of (x : pynum) : ereal :=
  match x with
  | PyInt z => Dyadic z 0
  | PyFloat f => ereal_of_float f
  end.

Definition dyadic_compare (m1 e1 m2 e2 : Z) : comparison :=
  let e := Z.min e1 e2 in
  (m1 * 2 ^ (e1 - e)) ?= (m2 * 2 ^ (e2 - e)).

Definition ereal_compare (x y : ereal) : option comparison :=
  match x, y with
  | ENaN, _ | _, ENaN => None
  | ENegInf, ENegInf => Some Eq
  | ENegInf, _ => Some Lt
  | _, ENegInf => Some Gt
  | EPosInf, EPosInf => Some Eq
  | EPosInf, _ => Some Gt
  | _, EPosInf => Some Lt
  | Dyadic m1 e1, Dyadic m2 e2 => Some (dyadic_compare m1 e1 m2 e2)
  end.

Definition py_compare (x y : pynum) : option comparison :=
  ereal_compare (ereal_of x) (ereal_of y).

(** [x >= y], [x < y], [x > y], [x <= y]: all false when an operand is NaN. *)
Definition py_ge (x y : pynum) : bool :=
  match py_compare x y with Some (Gt | Eq) => true | _ => false end.
Definition py_lt (x y : pynum) : bool :=
  match py_compare x y with Some Lt => true | _ => false end.
Definition py_gt (x y : pynum) : bool :=
  match py_compare x y with Some Gt => true | _ => false end.
Definition py_le (x y : pynum) : bool :=
  match py_compare x y with Some (Lt | Eq) => true | _ => false end.

(** An [int] as the dividend or divisor of [/]: the quotient of two [int]s is
    the correctly rounded quotient of the integers themselves, whatever their
    size, so the mantissa is the integer and the exponent is 0. *)
Definition int_mantissa (z : Z) : spec_float :=
  match z with
  | Z0 => S754_zero false
  | Zpos p => S754_finite false p 0
  | Zneg p => S754_finite true p 0
  end.

(** [float(z)] for an [int] operand of a mixed operation: round to nearest
    even, [OverflowError] when the result is out of range. *)
Definition float_of_int (z : Z) : result spec_float :=
  match binary_normalize prec emax z 0 false with
  | S754_infinity _ => Raise OverflowError
  | f => Ok f
  end.

Definition is_zero (f : spec_float) : bool :=
  match f with S754_zero _ => true | _ => false end.

Definition float_truediv (x y : spec_float) : result spec_float :=
  if is_zero y then Raise ZeroDivisionError else Ok (SFdiv prec emax x y).

Definition int_truediv (a b : Z) : result spec_float :=
  if b =? 0 then Raise ZeroDivisionError
  else match SFdiv prec emax (int_mantissa a) (int_mantissa b) with
       | S754_infinity _ => Raise OverflowError
       | f => Ok f
       end.

(** [x / y] *)
Definition py_truediv (x y : pynum) : result pynum :=
  match x, y with
  | PyInt a, PyInt b => Res.bind (int_truediv a b) (fun f => Ok (PyFloat f))
  | PyFloat f, PyInt b =>
      Res.bind (float_of_int b) (fun g =>
      Res.bind (float_truediv f g) (fun q => Ok (PyFloat q)))
  | PyInt a, PyFloat g =>
      Res.bind (float_of_int a) (fun f =>
      Res.bind (float_truediv f g) (fun q => Ok (PyFloat q)))
  | PyFloat f, PyFloat g =>
      Res.bind (float_truediv f g) (fun q => Ok (PyFloat q))
  end.

(** [x * y] *)
Definition py_mul (x y : pynum) : result pynum :=
  match x, y with
  | PyInt a, PyInt b => Ok (PyInt (a * b))
  | PyFloat f, PyInt b =>
      Res.bind (float_of_int b) (fun g => Ok (PyFloat (SFmul prec emax f g)))
  | PyInt a, PyFloat g =>
      Res.bind (float_of_int a) (fun f => Ok (PyFloat (SFmul prec emax f g)))
  | PyFloat f, PyFloat g => Ok (PyFloat (SFmul prec emax f g))
  end.

(** Round half to even of [m * 2^e] for a non-negative [m]. *)
Definition round_half_even (m e : Z) : Z :=
  if 0 <=? e then m * 2 ^ e
  else
    let d := 2 ^ (- e) in
    let q := m / d in
    let r := m mod d in
    match (2 * r) ?= d with
    | Lt => q
    | Gt => q + 1
    | Eq => if Z.even q then q else q + 1
    end.

(** [round(x)] with one argument: an [int]. *)
Definition py_round (x : pynum) : result Z :=
  match x with
  | PyInt z => Ok z
  | PyFloat S754_nan => Raise ValueError
  | PyFloat (S754_infinity _) => Raise OverflowError
  | PyFloat (S754_zero _) => Ok 0
  | PyFloat (S754_finite s m e) =>
      let r := round_half_even (Zpos m) e in
      Ok (if s then - r else r)
  end.

(** [a % b] on [int]s: the sign of the result is that of the divisor. *)
Definition py_mod (a b : Z) : result Z :=
  if b =? 0 then Raise ZeroDivisionError else Ok (a mod b).

(** [l[i]]: a negative index counts from the end. *)
Definition py_getitem {A} (l : list A) (i : Z) : result A :=
  let n := Z.of_nat (length l) in
  let j := if i <? 0 then i + n else i in
  if (0 <=? j) && (j <? n)
  then match nth_error l (Z.to_nat j) with
       | Some a => Ok a
       | None => Raise IndexError
       end
  else Raise IndexError.

(** ** Strings *)

Definition dq : string := String "034" "".          (* the double quote *)
Definition HEAVY : string := String "226" (String "148" (String "129" "")).  (* U+2501 *)
Definition LIGHT : string := String "226" (String "148" (String "128" "")).  (* U+2500 *)
Definition POUND : string := String "194" (String "163" "").                 (* U+00A3 *)

Fixpoint str_repeat (s : string) (n : nat) : string :=
  match n with
  | O => ""
  | S n' => s +:+ str_repeat s n'
  end.

(** [s * n]: the empty string when [n <= 0]. *)
Definition py_str_mul (s : string) (n : Z) : string :=
  str_repeat s (Z.to_nat n).

(** [sep.join(l)] *)
Fixpoint str_join (sep : string) (l : list string) : string :=
  match l with
  | [] => ""
  | [x] => x
  | x :: rest => x +:+ sep +:+ str_join sep rest
  end.

(** [str(z)] *)
Definition py_str (z : Z) : string := pretty z.

(** Right-justify in a field of [w] characters: what [:3d] does with [w = 3]. *)
Definition rjust (w : nat) (s : string) : string :=
  str_repeat " " (w - String.length s) +:+ s.

(** [f"{x:3d}%"]: the [d] presentation type is refused for a [float]. *)
Definition format_3d (x : pynum) : result string :=
  match x with
  | PyInt z => Ok (rjust 3 (py_str z) +:+ "%")
  | PyFloat _ => Raise ValueError
  end.

(** [s.replace("£", "")]: every occurrence of the two bytes of U+00A3 is
    dropped, scanning from the left. *)
Fixpoint strip_pound (s : string) : string :=
  match s with
  | "" => ""
  | String c1 s1 =>
      match s1 with
      | "" => String c1 ""
      | String c2 rest =>
          if (Ascii.eqb c1 "194" && Ascii.eqb c2 "163")%bool
          then strip_pound rest
          else String c1 (strip_pound s1)
      end
  end.

(** Truth value of a [str]. *)
Definition truthy (s : string) : bool :=
  match s with "" => false | _ => true end.

(** ** Themes and the module-level objects *)

Record Theme : Type := mkTheme { low : string; mid : string; high : string }.

Record Globals : Type := mkGlobals {
  THEME_CSS : gmap string Theme;
  DIM_COLOR : string;
  RAINBOW_COLORS : list string;
  MASCOT_PIXELS : list string
}.

(** The objects as the module body creates them. *)
Definition THEME_CSS_0 : gmap string Theme :=
  <["default" := mkTheme "#22c55e" "#eab308" "#ef4444"]> (
  <["ocean"   := mkTheme "#06b6d4" "#3b82f6" "#a855f7"]> (
  <["sunset"  := mkTheme "#eab308" "#ff8800" "#ef4444"]> (
  <["neon"    := mkTheme "#4ade80" "#facc15" "#f87171"]> (
  <["frost"   := mkTheme "#afffff" "#5fafff" "#ffffff"]> (
  <["ember"   := mkTheme "#ffd700" "#ff5f00" "#f87171"]> (
  <["candy"   := mkTheme "#ff87ff" "#af87ff" "#00ffff"]> (
  <["pride"   := mkTheme "#af5fff" "#00ffaf" "#ff00af"]> (
  <["mono"    := mkTheme "#d1d5db" "#d1d5db" "#ffffff"]> (
  <["rainbow" := mkTheme "#ff0000" "#00ff00" "#ff00ff"]> ∅))))))))).

Definition RAINBOW_COLORS_0 : list string :=
  ["#ff0000"; "#ff8800"; "#ffff00"; "#00ff00"; "#00ccff";
   "#0066ff"; "#8800ff"; "#ff00ff"; "#ff0066"; "#ff4444"].

Definition MASCOT_PIXELS_0 : list string :=
  ["..RRRRRRRRRRRR..";
   "..RRRRRRRRRRRR..";
   "..RDDRRRRRRDDR..";
   "..RDDRRRRRRDDR..";
   "..RRRRRRRRRRRR..";
   "RRRRRRRRRRRRRRRR";
   "RRRRRRRRRRRRRRRR";
   "..RRRRRRRRRRRR..";
   "..RRRRRRRRRRRR..";
   "..RRRRRRRRRRRR..";
   "..RR.RR..RR.RR..";
   "..RR.RR..RR.RR.."].

Definition module_globals : Globals := {|
  THEME_CSS := THEME_CSS_0;
  DIM_COLOR := "#3a3a3a";
  RAINBOW_COLORS := RAINBOW_COLORS_0;
  MASCOT_PIXELS := MASCOT_PIXELS_0
|}.

(** ** Computations over the module state *)

Definition M (A : Type) : Type := Globals -> result A * Globals.

Definition ret {A} (a : A) : M A := fun g => (Ok a, g).
Definition raise {A} (e : exn) : M A := fun g => (Raise e, g).
Definition bind {A B} (c : M A) (k : A -> M B) : M B :=
  fun g => match c g with
           | (Ok a, g') => k a g'
           | (Raise e, g') => (Raise e, g')
           end.
(** Reading a module-level name. *)
Definition global {A} (field : Globals -> A) : M A := fun g => (Ok (field g), g).
(** A computation that touches no module-level object. *)
Definition lift {A} (r : result A) : M A := fun g => (r, g).

Notation "x <- c1 ;; c2" := (bind c1 (fun x => c2))
  (at level 100, c1 at next level, right associativity).

(** The outcome of a call made when the module has just been loaded. *)
Definition run {A} (c : M A) : result A := fst (c module_globals).

(** [THEME_CSS[name]] *)
Definition lookup_theme (name : string) : M Theme :=
  css <- global THEME_CSS ;;
  match css !! name with
  | Some t => ret t
  | None => raise KeyError
  end.

(** ** The bar renderer *)

Definition bar_color (pct : pynum) (theme : Theme) : string :=
  if py_ge pct (PyInt 80) then high theme
  else if py_ge pct (PyInt 50) then mid theme
  else low theme.

(** [<span style="color:{c}">{text}</span>] *)
Definition span (c text : string) : string :=
  "<span style=" +:+ dq +:+ "color:" +:+ c +:+ dq +:+ ">" +:+ text +:+ "</span>".

(** [RAINBOW_COLORS[(j + color_offset) % len(RAINBOW_COLORS)]] *)
Definition rainbow_color (color_offset j : Z) : M string :=
  palette <- global RAINBOW_COLORS ;;
  i <- lift (py_mod (j + color_offset) (Z.of_nat (length palette))) ;;
  lift (py_getitem palette i).

(** One turn of the loop over [range(filled)]. *)
Definition rainbow_step (color_offset : Z) (parts : string) (j : Z) : M string :=
  c <- rainbow_color color_offset j ;;
  ret (parts +:+ span c HEAVY).

(** [for j in range(j, j + n)]: the loop, [parts] being the accumulator. *)
Fixpoint rainbow_loop (color_offset : Z) (n : nat) (j : Z) (parts : string) : M string :=
  match n with
  | O => ret parts
  | S n' =>
      parts' <- rainbow_step color_offset parts j ;;
      rainbow_loop color_offset n' (j + 1) parts'
  end.

Definition render_bar_html (pct : pynum) (theme : Theme) (width : Z)
    (rainbow : bool) (color_offset : Z) : M string :=
  x <- lift (py_truediv pct (PyInt 100)) ;;
  y <- lift (py_mul x (PyInt width)) ;;
  filled <- lift (py_round y) ;;
  let filled := Z.max 0 (Z.min width filled) in
  let empty := width - filled in
  let e_chars := py_str_mul LIGHT empty in
  dim <- global DIM_COLOR ;;
  if rainbow && (0 <? filled) then
    parts <- rainbow_loop color_offset (Z.to_nat filled) 0 "" ;;
    ret (parts +:+ span dim e_chars)
  else
    let color := bar_color pct theme in
    let f_chars := py_str_mul HEAVY filled in
    ret (span color f_chars +:+ span dim e_chars).

(** ** The builtin [float(str)]

    The grammar is the one CPython accepts on ASCII text: blanks (space, tab,
    line feed, vertical tab, form feed, carriage return) around the number, a
    sign, [inf], [infinity] or [nan] in any case, or a decimal numeral with an
    optional fraction and exponent, where an underscore may separate two
    digits.  The value is the binary64 nearest to the decimal (ties to even);
    a numeral too large gives an infinity, not an error.  Digits and blanks
    outside ASCII, which CPython also reads, are not modelled: the amounts of
    this program are ASCII once the pound sign is removed. *)
Module PyFloat.

Definition code (c : ascii) : nat := nat_of_ascii c.

Definition is_digit (c : ascii) : bool :=
  (Nat.leb 48 (code c) && Nat.leb (code c) 57)%bool.

Definition digit_val (c : ascii) : Z := Z.of_nat (code c) - 48.

Definition is_space (c : ascii) : bool :=
  ((Nat.leb 9 (code c) && Nat.leb (code c) 13) || Nat.eqb (code c) 32)%bool.

Definition lower (c : ascii) : ascii :=
  if (Nat.leb 65 (code c) && Nat.leb (code c) 90)%bool
  then ascii_of_nat (code c + 32) else c.

(** An underscore is accepted after a digit and before a digit only. *)
Fixpoint drop_underscores (prev : ascii) (s : list ascii) : option (list ascii) :=
  match s with
  | [] => if Ascii.eqb prev "_" then None else Some []
  | c :: s' =>
      if Ascii.eqb c "_"
      then (if is_digit prev then drop_underscores c s' else None)
      else if (Ascii.eqb prev "_" && negb (is_digit c))%bool then None
      else option_map (cons c) (drop_underscores c s')
  end.

Fixpoint lstrip (s : list ascii) : list ascii :=
  match s with
  | c :: s' => if is_space c then lstrip s' else s
  | [] => []
  end.

Definition strip (s : list ascii) : list ascii :=
  rev (lstrip (rev (lstrip s))).

(** The longest run of digits at the head of [s]: the value it adds to
    [acc], its length, and what follows. *)
Fixpoint take_digits (s : list ascii) (acc : Z) (n : Z) : Z * Z * list ascii :=
  match s with
  | c :: s' =>
      if is_digit c then take_digits s' (10 * acc + digit_val c) (n + 1)
      else (acc, n, s)
  | [] => (acc, n, [])
  end.

(** An optional sign: [true] for a minus. *)
Definition take_sign (s : list ascii) : bool * list ascii :=
  match s with
  | c :: s' =>
      if Ascii.eqb c "-" then (true, s')
      else if Ascii.eqb c "+" then (false, s')
      else (false, s)
  | [] => (false, [])
  end.

(** A decimal numeral without sign, as [(m, k)] standing for [m * 10^k]. *)
Definition parse_decimal (s : list ascii) : option (Z * Z) :=
  let '(ip, ni, s1) := take_digits s 0 0 in
  let '(fp, nf, s2) :=
    match s1 with
    | c :: t => if Ascii.eqb c "." then take_digits t ip 0 else (ip, 0, s1)
    | [] => (ip, 0, s1)
    end in
  if ni + nf =? 0 then None
  else match s2 with
       | [] => Some (fp, - nf)
       | c :: t =>
           if Ascii.eqb (lower c) "e" then
             let '(sg, t1) := take_sign t in
             let '(ex, ne, t2) := take_digits t1 0 0 in
             if ne =? 0 then None
             else match t2 with
                  | [] => Some (fp, (if sg then - ex else ex) - nf)
                  | _ :: _ => None
                  end
           else None
       end.

(** The binary64 nearest to [(-1)^s * m * 10^k]. *)
Definition of_decimal (s : bool) (m k : Z) : spec_float :=
  match m with
  | Zpos p =>
      if 0 <=? k
      then binary_normalize prec emax (signed s (Z.to_pos (m * 10 ^ k))) 0 false
      else SFdiv prec emax (S754_finite s p 0)
                           (S754_finite false (Z.to_pos (10 ^ (- k))) 0)
  | _ => S754_zero s
  end.

Definition parse (s : list ascii) : option spec_float :=
  match drop_underscores "000" s with
  | None => None
  | Some s0 =>
      let '(sg, body) := take_sign (strip s0) in
      let word := string_of_list_ascii (map lower body) in
      if (String.eqb word "inf" || String.eqb word "infinity")%bool
      then Some (S754_infinity sg)
      else if String.eqb word "nan" then Some S754_nan
      else match parse_decimal body with
           | Some (m, k) => Some (of_decimal sg m k)
           | None => None
           end
  end.

End PyFloat.

(** [float(s)]: [ValueError] when [s] is not a numeral. *)
Definition py_float (s : string) : result spec_float :=
  match PyFloat.parse (list_ascii_of_string s) with
  | Some f => Ok f
  | None => Raise ValueError
  end.

(** ** The mascot *)

Definition newline : string := String "010" "".

Definition pixel_span (ch : ascii) : string :=
  if Ascii.eqb ch "R" then "<span class=" +:+ dq +:+ "px pr" +:+ dq +:+ "></span>"
  else if Ascii.eqb ch "D" then "<span class=" +:+ dq +:+ "px pd" +:+ dq +:+ "></span>"
  else if Ascii.eqb ch "N" then "<span class=" +:+ dq +:+ "px pn" +:+ dq +:+ "></span>"
  else "<span class=" +:+ dq +:+ "px" +:+ dq +:+ "></span>".

Definition mascot_html : M string :=
  pixels <- global MASCOT_PIXELS ;;
  let rows := flat_map (fun row => map pixel_span (list_ascii_of_string row)) pixels in
  ret (str_join (newline +:+ "            ") rows).

(** ** The text of the two documents

    The literal text of the two f-strings that end the composers, cut at
    their replacement fields; [{{], [}}] and the escaped backslash are
    written as the characters they stand for. *)

(** [generate_frame_html], part 0 of the text of the document. *)
Definition FRAME_HTML_0 : string :=
  "<!DOCTYPE html>
<html>
<head>
<meta charset=" +:+ dq +:+ "utf-8" +:+ dq +:+ ">
<style>
  @import url('https://fonts.googleapis.com/css2?family=JetBrains+Mono:wght@400;500;700&display=swap');
  * { margin: 0; padding: 0; box-sizing: border-box; }
  body {
    background: #ffffff;
    display: flex;
    align-items: center;
    justify-content: center;
    height: 100vh;
    font-family: 'JetBrains Mono', 'Cascadia Code', 'Consolas', monospace;
  }
  .terminal {
    background: #0c0c0c;
    border-radius: 8px;
    width: 920px;
    height: 430px;
    box-shadow: 0 8px 30px rgba(0,0,0,0.15), 0 0 0 1px rgba(0,0,0,0.08);
    overflow: hidden;
    display: flex;
    flex-direction: column;
    position: relative;
  }
  .titlebar {
    background: #202020;
    padding: 7px 12px;
    display: flex;
    align-items: center;
    border-bottom: 1px solid #2a2a2a;
    flex-shrink: 0;
  }
  .tab {
    background: #0c0c0c;
    color: #aaa;
    font-size: 11px;
    padding: 5px 14px;
    border-radius: 6px 6px 0 0;
    display: flex;
    align-items: center;
    gap: 6px;
    border: 1px solid #2a2a2a;
    border-bottom: none;
    margin-bottom: -1px;
  }
  .tab-icon { color: #0078d4; font-size: 13px; }
  .spacer { flex: 1; }
  .win-controls { display: flex; gap: 0; }
  .win-btn {
    color: #888;
    font-size: 11px;
    padding: 4px 16px;
    display: inline-flex;
    align-items: center;
    justify-content: center;
  }

  .body { flex: 1; display: flex; flex-direction: column; overflow: hidden; }

  .conversation {
    flex: 1;
    padding: 14px 20px;
    overflow: hidden;
  }

  /* ── Header ── */
  .cc-title {
    color: #d4a574;
    font-size: 12px;
    margin-bottom: 10px;
    padding-bottom: 8px;
    border-bottom: 1px solid #d4a57433;
  }

  /* ── Two-column welcome ── */
  .welcome-row {
    display: flex;
    gap: 0;
    margin-bottom: 12px;
    border: 1px solid #d4a57455;
    border-radius: 6px;
    overflow: hidden;
  }
  .welcome-left {
    flex: 0 0 200px;
    display: flex;
    flex-direction: column;
    align-items: center;
    padding: 12px 10px;
    border-right: 1px solid #d4a57433;
  }
  .welcome-greeting {
    color: #e0e0e0;
    font-size: 12px;
    font-weight: 500;
    margin-bottom: 10px;
    text-align: center;
  }
  .welcome-right {
    flex: 1;
    padding: 12px 14px;
  }

  /* Pixel mascot */
  .mascot {
    display: grid;
    grid-template-columns: repeat(16, 6px);
    grid-template-rows: repeat(12, 6px);
    gap: 1px;
    margin-bottom: 8px;
  }
  .px { width: 6px; height: 6px; background: transparent; }
  .pr { background: #d4735c; }
  .pd { background: #1a1a1a; }
  .pn { background: #b85e48; }

  .welcome-meta {
    color: #888;
    font-size: 10px;
    text-align: center;
    line-height: 1.5;
  }

  /* Right column */
  .section-title {
    color: #d4a574;
    font-size: 11px;
    margin-bottom: 4px;
    font-weight: 500;
  }
  .tip-text {
    color: #888;
    font-size: 10.5px;
    line-height: 1.6;
    margin-bottom: 10px;
  }
  .recent-text {
    color: #666;
    font-size: 10.5px;
  }

  /* ── User message + Claude reply ── */
  .user-msg {
    margin-bottom: 8px;
    margin-top: 4px;
  }
  .user-prompt {
    display: flex;
    align-items: center;
    gap: 6px;
  }
  .user-prompt .arrow { color: #b388ff; font-size: 12px; }
  .user-text {
    color: #e0e0e0;
    font-size: 12.5px;
    font-weight: 500;
  }

  .claude-reply {
    margin-bottom: 8px;
  }
  .claude-reply .dot { color: #b388ff; font-size: 12px; }
  .claude-reply-text {
    color: #ccc;
    font-size: 12px;
    display: flex;
    align-items: center;
    gap: 5px;
  }

  /* Prompt cursor */
  .prompt-line {
    display: flex;
    align-items: center;
    gap: 6px;
    font-size: 13px;
  }
  .prompt-arrow { color: #b388ff; }
  .cursor {
    display: inline-block;
    width: 8px;
    height: 15px;
    background: #b388ff;
    opacity: 0.7;
  }

  /* ── Divider ── */
  .divider {
    border-top: 1px solid #222;
    flex-shrink: 0;
  }

  /* ── Status bar ── */
  .status-area {
    padding: 8px 20px 6px 20px;
    flex-shrink: 0;
  }
  .status-line {
    font-size: 11.5px;
    line-height: 1.5;
    white-space: pre;
    letter-spacing: 0;
    font-variant-ligatures: none;
  }
  .sl { color: ".

(** [generate_frame_html], part 1 of the text of the document. *)
Definition FRAME_HTML_1 : string :=
  "; }
  .sep { color: #555; padding: 0 0.3em; }

  /* ── Mode indicator ── */
  .mode-bar {
    padding: 2px 20px 10px 20px;
    display: flex;
    align-items: center;
    gap: 8px;
    flex-shrink: 0;
  }
  .mode-icon { color: #b388ff; font-size: 11px; }
  .mode-text { color: #666; font-size: 11px; }
  .mode-hint { color: #444; font-size: 10px; }

  /* ── Theme badge ── */
  .theme-overlay {
    position: absolute;
    bottom: 12px;
    right: 20px;
    display: flex;
    align-items: center;
    gap: 8px;
  }
  .theme-badge {
    display: inline-block;
    background: rgba(255,255,255,0.06);
    border: 1px solid ".

(** [generate_frame_html], part 2 of the text of the document. *)
Definition FRAME_HTML_2 : string :=
  "44;
    color: ".

(** [generate_frame_html], part 3 of the text of the document. *)
Definition FRAME_HTML_3 : string :=
  ";
    padding: 3px 12px;
    border-radius: 4px;
    font-size: 10px;
    letter-spacing: 1.5px;
    text-transform: uppercase;
    font-weight: 500;
  }
  .frame-counter {
    color: #444;
    font-size: 10px;
    letter-spacing: 1px;
  }
</style>
</head>
<body>
  <div class=" +:+ dq +:+ "terminal" +:+ dq +:+ ">
    <div class=" +:+ dq +:+ "titlebar" +:+ dq +:+ ">
      <div class=" +:+ dq +:+ "tab" +:+ dq +:+ "><span class=" +:+ dq +:+ "tab-icon" +:+ dq +:+ ">&#x276F;</span> Windows PowerShell</div>
      <div class=" +:+ dq +:+ "spacer" +:+ dq +:+ "></div>
      <div class=" +:+ dq +:+ "win-controls" +:+ dq +:+ ">
        <span class=" +:+ dq +:+ "win-btn" +:+ dq +:+ ">&#x2500;</span>
        <span class=" +:+ dq +:+ "win-btn" +:+ dq +:+ ">&#x25A1;</span>
        <span class=" +:+ dq +:+ "win-btn close" +:+ dq +:+ ">&#x2715;</span>
      </div>
    </div>

    <div class=" +:+ dq +:+ "body" +:+ dq +:+ ">
      <div class=" +:+ dq +:+ "conversation" +:+ dq +:+ ">
        <div class=" +:+ dq +:+ "cc-title" +:+ dq +:+ ">Claude Code v2.1.36</div>

        <div class=" +:+ dq +:+ "welcome-row" +:+ dq +:+ ">
          <div class=" +:+ dq +:+ "welcome-left" +:+ dq +:+ ">
            <div class=" +:+ dq +:+ "welcome-greeting" +:+ dq +:+ ">Welcome back NoobyGains!</div>
            <div class=" +:+ dq +:+ "mascot" +:+ dq +:+ ">
              ".

(** [generate_frame_html], part 4 of the text of the document. *)
Definition FRAME_HTML_4 : string :=
  "
            </div>
            <div class=" +:+ dq +:+ "welcome-meta" +:+ dq +:+ ">
              ".

(** [generate_frame_html], part 5 of the text of the document. *)
Definition FRAME_HTML_5 : string :=
  " &middot; Claude Max<br>
              C:\Users\David
            </div>
          </div>
          <div class=" +:+ dq +:+ "welcome-right" +:+ dq +:+ ">
            <div class=" +:+ dq +:+ "section-title" +:+ dq +:+ ">Tips for getting started</div>
            <div class=" +:+ dq +:+ "tip-text" +:+ dq +:+ ">
              Run <span style=" +:+ dq +:+ "color:#b388ff" +:+ dq +:+ ">/init</span> to create a CLAUDE.md file with instructions for Claude<br>
              Note: You have launched claude in your home directory. For the best<br>
              experience, navigate to a project folder first.
            </div>
            <div class=" +:+ dq +:+ "section-title" +:+ dq +:+ ">Recent activity</div>
            <div class=" +:+ dq +:+ "recent-text" +:+ dq +:+ ">No recent activity</div>
          </div>
        </div>

        <div class=" +:+ dq +:+ "user-msg" +:+ dq +:+ ">
          <div class=" +:+ dq +:+ "user-prompt" +:+ dq +:+ ">
            <span class=" +:+ dq +:+ "arrow" +:+ dq +:+ ">&#x276F;</span>
            <span class=" +:+ dq +:+ "user-text" +:+ dq +:+ ">hello</span>
          </div>
        </div>

        <div class=" +:+ dq +:+ "claude-reply" +:+ dq +:+ ">
          <div class=" +:+ dq +:+ "claude-reply-text" +:+ dq +:+ ">
            <span class=" +:+ dq +:+ "dot" +:+ dq +:+ ">&#x25CF;</span>
            Hello! How can I help you today?
          </div>
        </div>

        <div class=" +:+ dq +:+ "prompt-line" +:+ dq +:+ ">
          <span class=" +:+ dq +:+ "prompt-arrow" +:+ dq +:+ ">&#x276F;</span>
          <span class=" +:+ dq +:+ "cursor" +:+ dq +:+ "></span>
        </div>
      </div>

      <div class=" +:+ dq +:+ "divider" +:+ dq +:+ "></div>
      <div class=" +:+ dq +:+ "status-area" +:+ dq +:+ ">
        <div class=" +:+ dq +:+ "status-line" +:+ dq +:+ ">".

(** [generate_frame_html], part 6 of the text of the document. *)
Definition FRAME_HTML_6 : string :=
  "</div>
      </div>
      <div class=" +:+ dq +:+ "mode-bar" +:+ dq +:+ ">
        <span class=" +:+ dq +:+ "mode-icon" +:+ dq +:+ ">&#x23F5;&#x23F5;</span>
        <span class=" +:+ dq +:+ "mode-text" +:+ dq +:+ ">auto-accept edits</span>
        <span class=" +:+ dq +:+ "mode-hint" +:+ dq +:+ ">(shift+tab to cycle)</span>
      </div>
    </div>

    <div class=" +:+ dq +:+ "theme-overlay" +:+ dq +:+ ">
      <span class=" +:+ dq +:+ "theme-badge" +:+ dq +:+ ">".

(** [generate_frame_html], part 7 of the text of the document. *)
Definition FRAME_HTML_7 : string :=
  "</span>
      <span class=" +:+ dq +:+ "frame-counter" +:+ dq +:+ ">".

(** [generate_frame_html], part 8 of the text of the document. *)
Definition FRAME_HTML_8 : string :=
  "/".

(** [generate_frame_html], part 9 of the text of the document. *)
Definition FRAME_HTML_9 : string :=
  "</span>
    </div>
  </div>
</body>
</html>".

(** [generate_statusline_html], part 0 of the text of the document. *)
Definition STATUSLINE_HTML_0 : string :=
  "<!DOCTYPE html>
<html>
<head>
<meta charset=" +:+ dq +:+ "utf-8" +:+ dq +:+ ">
<style>
  @import url('https://fonts.googleapis.com/css2?family=JetBrains+Mono:wght@400;500;700&display=swap');
  * { margin: 0; padding: 0; box-sizing: border-box; }
  body {
    background: #ffffff;
    display: flex;
    align-items: center;
    justify-content: center;
    height: 60px;
    font-family: 'JetBrains Mono', 'Cascadia Code', 'Consolas', monospace;
  }
  .bar {
    background: #0c0c0c;
    padding: 10px 20px;
    width: 920px;
    border-radius: 6px;
    border: 1px solid #333;
  }
  .status-line {
    font-size: 13px;
    line-height: 1.5;
    white-space: pre;
    letter-spacing: 0;
    font-variant-ligatures: none;
  }
  .sl { color: ".

(** [generate_statusline_html], part 1 of the text of the document. *)
Definition STATUSLINE_HTML_1 : string :=
  "; }
  .sep { color: #555; padding: 0 0.3em; }
</style>
</head>
<body>
  <div class=" +:+ dq +:+ "bar" +:+ dq +:+ ">
    <div class=" +:+ dq +:+ "status-line" +:+ dq +:+ ">".

(** [generate_statusline_html], part 2 of the text of the document. *)
Definition STATUSLINE_HTML_2 : string :=
  "</div>
  </div>
</body>
</html>".

(** ** The frame composers *)

Definition sep : string :=
  "<span class=" +:+ dq +:+ "sep" +:+ dq +:+ ">|</span>".

(** [<span class="sl">{text}</span>] *)
Definition sl (text : string) : string :=
  "<span class=" +:+ dq +:+ "sl" +:+ dq +:+ ">" +:+ text +:+ "</span>".

Definition badge (text : string) : string :=
  sep +:+ "<span style=" +:+ dq +:+ "color:#eab308;font-weight:bold" +:+ dq
      +:+ ">&#x2191; " +:+ text +:+ "</span>".

Definition reset_field (reset_time : string) : string :=
  if truthy reset_time then " " +:+ reset_time else "       ".

(** [100 * float(used.replace("£", "")) / float(limit.replace("£", ""))] *)
Definition extra_percent (extra_used extra_limit : string) : result pynum :=
  Res.bind (py_float (strip_pound extra_used)) (fun u =>
  Res.bind (py_mul (PyInt 100) (PyFloat u)) (fun n =>
  Res.bind (py_float (strip_pound extra_limit)) (fun l =>
  py_truediv n (PyFloat l)))).

Definition extra_segment (extra_bar extra_used extra_limit : string) : string :=
  sep +:+ sl "Extra " +:+ extra_bar +:+ sl (" " +:+ extra_used +:+ "/" +:+ extra_limit).

(** The f-string [status], which the two composers share but for the
    replacement fields between the context segment and the plan, [middle]
    here: [{extra_part}{update_part}] in the first, [{update_part}] in the
    second. *)
Definition status_line (session_bar weekly_bar ctx_bar sp wp cp reset_str
                        middle plan model : string) : string :=
  sl "Session " +:+ session_bar +:+ sl (" " +:+ sp +:+ reset_str)
  +:+ sep
  +:+ sl "Weekly " +:+ weekly_bar +:+ sl (" " +:+ wp)
  +:+ sep
  +:+ sl "Context " +:+ ctx_bar +:+ sl (" " +:+ cp)
  +:+ middle
  +:+ sep +:+ sl plan
  +:+ sep +:+ sl model.

Definition frame_document (text_color badge_color mascot model status theme_name
                           frame_num total_frames : string) : string :=
  FRAME_HTML_0 +:+ text_color +:+ FRAME_HTML_1 +:+ badge_color +:+ FRAME_HTML_2
  +:+ badge_color +:+ FRAME_HTML_3 +:+ mascot +:+ FRAME_HTML_4 +:+ model
  +:+ FRAME_HTML_5 +:+ status +:+ FRAME_HTML_6 +:+ theme_name +:+ FRAME_HTML_7
  +:+ frame_num +:+ FRAME_HTML_8 +:+ total_frames +:+ FRAME_HTML_9.

Definition statusline_document (text_color status : string) : string :=
  STATUSLINE_HTML_0 +:+ text_color +:+ STATUSLINE_HTML_1 +:+ status
  +:+ STATUSLINE_HTML_2.

Definition generate_frame_html (theme_name : string) (theme : Theme)
    (session_pct weekly_pct ctx_pct : pynum)
    (reset_time plan model : string) (frame_num total_frames : Z) (desc : string)
    (is_rainbow : bool) (color_offset : Z)
    (extra_used extra_limit : string) (show_update : bool) : M string :=
  session_bar <- render_bar_html session_pct theme 10 is_rainbow color_offset ;;
  weekly_bar <- render_bar_html weekly_pct theme 10 is_rainbow (color_offset + 3) ;;
  ctx_bar <- render_bar_html ctx_pct theme 10 is_rainbow (color_offset + 6) ;;
  let text_color := "#d1d5db" in
  sp <- lift (format_3d session_pct) ;;
  wp <- lift (format_3d weekly_pct) ;;
  cp <- lift (format_3d ctx_pct) ;;
  let reset_str := reset_field reset_time in
  extra_part <-
    (if truthy extra_used && truthy extra_limit then
       extra_pct <- lift (extra_percent extra_used extra_limit) ;;
       extra_bar <- render_bar_html extra_pct theme 10 is_rainbow (color_offset + 9) ;;
       ret (extra_segment extra_bar extra_used extra_limit)
     else ret "") ;;
  let update_part := if show_update then badge "Pulse Update" else "" in
  let status :=
    status_line session_bar weekly_bar ctx_bar sp wp cp reset_str
                (extra_part +:+ update_part) plan model in
  let badge_color := low theme in
  mascot <- mascot_html ;;
  ret (frame_document text_color badge_color mascot model status theme_name
                      (py_str frame_num) (py_str total_frames)).

Definition generate_statusline_html (theme_name : string) (theme : Theme)
    (session_pct weekly_pct ctx_pct : pynum)
    (reset_time plan model : string) (frame_num total_frames : Z)
    (is_rainbow : bool) (color_offset : Z)
    (show_update show_claude_update : bool) : M string :=
  session_bar <- render_bar_html session_pct theme 10 is_rainbow color_offset ;;
  weekly_bar <- render_bar_html weekly_pct theme 10 is_rainbow (color_offset + 3) ;;
  ctx_bar <- render_bar_html ctx_pct theme 10 is_rainbow (color_offset + 6) ;;
  let text_color := "#d1d5db" in
  sp <- lift (format_3d session_pct) ;;
  wp <- lift (format_3d weekly_pct) ;;
  cp <- lift (format_3d ctx_pct) ;;
  let reset_str := reset_field reset_time in
  let update_part := if show_update then badge "Pulse Update" else "" in
  let update_part :=
    if show_claude_update then update_part +:+ badge "Claude Update"
    else update_part in
  let status :=
    status_line session_bar weekly_bar ctx_bar sp wp cp reset_str
                update_part plan model in
  ret (statusline_document text_color status).

(** ** The driver

    [main], as far as the documents go: the frame descriptions it builds and
    the document it composes for each.  Writing the documents and the
    manifests to files is left out. *)

Record FrameData : Type := mkFrameData {
  fd_tname : string; fd_theme : Theme;
  fd_sp : Z; fd_wp : Z; fd_cp : Z;
  fd_reset : string; fd_plan : string; fd_model : string; fd_desc : string;
  fd_is_rb : bool; fd_c_off : Z;
  fd_eu : string; fd_el : string
}.

(** [for x in l: ...], collecting what each turn produces. *)
Fixpoint for_each {A B} (l : list A) (body : A -> M B) : M (list B) :=
  match l with
  | [] => ret []
  | a :: l' =>
      b <- body a ;;
      bs <- for_each l' body ;;
      ret (b :: bs)
  end.

(** [enumerate(l)], counting from [i]. *)
Fixpoint enumerate_from {A} (i : Z) (l : list A) : list (Z * A) :=
  match l with
  | [] => []
  | a :: l' => (i, a) :: enumerate_from (i + 1) l'
  end.

Definition themes_to_show : list string :=
  ["default"; "ocean"; "sunset"; "neon"; "frost"; "ember"; "candy"; "pride"; "mono"].

(** [(session%, weekly%, ctx%, reset_time, desc, extra_used, extra_limit)] *)
Definition scenarios : list (Z * Z * Z * string * string * string * string) :=
  [(12, 6, 8, "4h 52m", "low usage", "£3.10", "£37.00");
   (38, 22, 30, "3h 14m", "warming up", "£8.20", "£37.00");
   (62, 45, 55, "1h 48m", "active session", "£22.50", "£37.00");
   (88, 68, 82, "0h 22m", "near limit", "£34.80", "£37.00")].

Definition update_scenarios : list (Z * Z * Z * string * string) :=
  [(42, 28, 35, "2h 40m", "with update");
   (65, 50, 60, "1h 15m", "with update");
   (85, 72, 78, "0h 30m", "with update")].

Definition cc_update_scenarios : list (Z * Z * Z * string * string) :=
  [(42, 28, 35, "2h 40m", "with claude update");
   (65, 50, 60, "1h 15m", "with claude update");
   (85, 72, 78, "0h 30m", "with claude update")].

(** The first [frames_data]: themes by scenarios, then the shimmer. *)
Definition frames_data : M (list FrameData) :=
  themed <- for_each themes_to_show (fun theme_name =>
    theme <- lookup_theme theme_name ;;
    ret (map (fun '(session_pct, weekly_pct, ctx_pct, reset, desc, eu, el) =>
                mkFrameData theme_name theme session_pct weekly_pct ctx_pct
                            reset "Max 20x" "Opus 4.6" desc false 0 eu el)
             scenarios)) ;;
  rainbow_theme <- lookup_theme "rainbow" ;;
  ret (app (concat themed)
           (map (fun offset =>
                   mkFrameData "rainbow" rainbow_theme 55 38 45
                               "2h 10m" "Max 20x" "Opus 4.6" "animated shimmer"
                               true offset "£18.50" "£37.00")
                (seqZ 0 10))).

(** [update_frames] and [cc_update_frames]: no extra usage. *)
Definition update_frames_of (scen : list (Z * Z * Z * string * string))
  : M (list FrameData) :=
  themed <- for_each themes_to_show (fun tname =>
    theme <- lookup_theme tname ;;
    ret (map (fun '(sp, wp, cp, reset, desc) =>
                mkFrameData tname theme sp wp cp reset "Max 20x" "Opus 4.6" desc
                            false 0 "" "")
             scen)) ;;
  shimmer <- for_each (seqZ 0 10) (fun offset =>
    rainbow_theme <- lookup_theme "rainbow" ;;
    ret (mkFrameData "rainbow" rainbow_theme 55 38 45
                     "2h 10m" "Max 20x" "Opus 4.6" "shimmer" true offset "" "")) ;;
  ret (app (concat themed) shimmer).

(** The documents of the three runs of [main], in the order of the
    manifests. *)
Definition main_documents : M (list string * list string * list string) :=
  frames <- frames_data ;;
  let total := Z.of_nat (length frames) in
  html1 <- for_each (enumerate_from 0 frames) (fun '(i, fd) =>
    generate_frame_html (fd_tname fd) (fd_theme fd)
      (PyInt (fd_sp fd)) (PyInt (fd_wp fd)) (PyInt (fd_cp fd))
      (fd_reset fd) (fd_plan fd) (fd_model fd) (i + 1) total (fd_desc fd)
      (fd_is_rb fd) (fd_c_off fd) (fd_eu fd) (fd_el fd) false) ;;
  update_frames <- update_frames_of update_scenarios ;;
  let total2 := Z.of_nat (length update_frames) in
  html2 <- for_each (enumerate_from 0 update_frames) (fun '(i, fd) =>
    generate_statusline_html (fd_tname fd) (fd_theme fd)
      (PyInt (fd_sp fd)) (PyInt (fd_wp fd)) (PyInt (fd_cp fd))
      (fd_reset fd) (fd_plan fd) (fd_model fd) (i + 1) total2
      (fd_is_rb fd) (fd_c_off fd) true false) ;;
  cc_update_frames <- update_frames_of cc_update_scenarios ;;
  let total3 := Z.of_nat (length cc_update_frames) in
  html3 <- for_each (enumerate_from 0 cc_update_frames) (fun '(i, fd) =>
    generate_statusline_html (fd_tname fd) (fd_theme fd)
      (PyInt (fd_sp fd)) (PyInt (fd_wp fd)) (PyInt (fd_cp fd))
      (fd_reset fd) (fd_plan fd) (fd_model fd) (i + 1) total3
      (fd_is_rb fd) (fd_c_off fd) false true) ;;
  ret (html1, html2, html3).

(** * Vocabulary of the properties

    What follows is not code of the program: these are the notions its
    properties are stated with. *)

(** ** Outcomes and the module state *)

(** A computation that leaves the module state as it found it. *)
Definition reads_only {A} (c : M A) : Prop := forall g, snd (c g) = g.

(** The outcome of a computation in a given module state. *)
Definition eval {A} (c : M A) (g : Globals) : result A := fst (c g).

(** The keys of [THEME_CSS]. *)
Definition registered_names : list string :=
  ["default"; "ocean"; "sunset"; "neon"; "frost"; "ember"; "candy"; "pride";
   "mono"; "rainbow"].

Definition default_theme : Theme := mkTheme "#22c55e" "#eab308" "#ef4444".

(** The two errors of the specification, which names them apart from any
    language: the exceptions of Python that stand for them in this program.
    The lookup in the registry raises [KeyError]; of the extra-usage pair,
    [float] raises [ValueError] and the division [ZeroDivisionError]. *)
Definition UnknownThemeError (e : exn) : Prop := e = KeyError.

(** ** Parts of the documents *)

Definition update_badges (show_update show_claude_update : bool) : string :=
  (if show_update then badge "Pulse Update" else "")
  +:+ (if show_claude_update then badge "Claude Update" else "").

(** What the status-line document holds before and after the badges. *)
Definition statusline_before (session_bar weekly_bar ctx_bar sp wp cp reset_str : string)
  : string :=
  STATUSLINE_HTML_0 +:+ "#d1d5db" +:+ STATUSLINE_HTML_1
  +:+ sl "Session " +:+ session_bar +:+ sl (" " +:+ sp +:+ reset_str)
  +:+ sep
  +:+ sl "Weekly " +:+ weekly_bar +:+ sl (" " +:+ wp)
  +:+ sep
  +:+ sl "Context " +:+ ctx_bar +:+ sl (" " +:+ cp).

Definition statusline_after (plan model : string) : string :=
  sep +:+ sl plan +:+ sep +:+ sl model +:+ STATUSLINE_HTML_2.

(** What the full-mockup document holds before the place of the extra-usage
    segment, and from there on. *)
Definition frame_before (badge_color mascot model session_bar weekly_bar ctx_bar
                         sp wp cp reset_str : string) : string :=
  FRAME_HTML_0 +:+ "#d1d5db" +:+ FRAME_HTML_1 +:+ badge_color +:+ FRAME_HTML_2
  +:+ badge_color +:+ FRAME_HTML_3 +:+ mascot +:+ FRAME_HTML_4 +:+ model
  +:+ FRAME_HTML_5
  +:+ sl "Session " +:+ session_bar +:+ sl (" " +:+ sp +:+ reset_str)
  +:+ sep
  +:+ sl "Weekly " +:+ weekly_bar +:+ sl (" " +:+ wp)
  +:+ sep
  +:+ sl "Context " +:+ ctx_bar +:+ sl (" " +:+ cp).

Definition frame_after (show_update : bool) (plan model theme_name : string)
                       (frame_num total_frames : Z) : string :=
  (if show_update then badge "Pulse Update" else "")
  +:+ sep +:+ sl plan +:+ sep +:+ sl model
  +:+ FRAME_HTML_6 +:+ theme_name +:+ FRAME_HTML_7 +:+ py_str frame_num
  +:+ FRAME_HTML_8 +:+ py_str total_frames +:+ FRAME_HTML_9.

(** The text of the mascot: the same in every frame. *)
Definition mascot_text (g : Globals) : string :=
  str_join (newline +:+ "            ")
    (flat_map (fun row => map pixel_span (list_ascii_of_string row)) (MASCOT_PIXELS g)).

(** The outcome of the extra-usage part of [generate_frame_html]: the
    segment, or nothing when one of the two strings is empty. *)
Definition extra_part (g : Globals) (theme : Theme) (rb : bool) (off : Z)
    (extra_used extra_limit : string) : result string :=
  if truthy extra_used && truthy extra_limit then
    Res.bind (extra_percent extra_used extra_limit) (fun extra_pct =>
    Res.bind (eval (render_bar_html extra_pct theme 10 rb (off + 9)) g) (fun extra_bar =>
    Ok (extra_segment extra_bar extra_used extra_limit)))
  else Ok "".

(** ** The bar *)

(** [max(0, min(width, round(pct / 100 * width)))], the first two lines of
    [render_bar_html]. *)
Definition bar_fill (pct : pynum) (width : Z) : result Z :=
  Res.bind (py_truediv pct (PyInt 100)) (fun x =>
  Res.bind (py_mul x (PyInt width)) (fun y =>
  Res.bind (py_round y) (fun filled =>
  Ok (Z.max 0 (Z.min width filled))))).

(** [palette[i mod 10]] *)
Definition palette_color (i : Z) : string :=
  nth (Z.to_nat (i mod 10)) RAINBOW_COLORS_0 "".

(** The cells [j], [j + 1], ... of a rainbow bar, [n] of them. *)
Fixpoint rainbow_cells (off : Z) (n : nat) (j : Z) : string :=
  match n with
  | O => ""
  | S n' => span (palette_color (j + off)) HEAVY +:+ rainbow_cells off n' (j + 1)
  end.

Definition filled_region (pct : pynum) (theme : Theme) (rainbow : bool) (off filled : Z)
  : string :=
  if rainbow && (0 <? filled) then rainbow_cells off (Z.to_nat filled) 0
  else span (bar_color pct theme) (py_str_mul HEAVY filled).

Definition empty_region (empty : Z) : string :=
  span "#3a3a3a" (py_str_mul LIGHT empty).

Definition str_concat (l : list string) : string := fold_right String.append "" l.

(** A cell is one glyph, three bytes of UTF-8 of which the last tells the
    heavy line (129) from the light one (128); in text that has no other byte
    of these two values, counting that byte counts the cells. *)
Fixpoint count_byte (c : ascii) (s : string) : nat :=
  match s with
  | "" => O
  | String c' s' => ((if Ascii.eqb c c' then 1 else 0) + count_byte c s')%nat
  end.

Definition filled_cells (doc : string) : nat := count_byte "129" doc.
Definition empty_cells (doc : string) : nat := count_byte "128" doc.

(** Text with no byte of a cell in it, as colors are. *)
Definition glyph_free (s : string) : Prop :=
  count_byte "129" s = O /\ count_byte "128" s = O.

Definition plain_theme (theme : Theme) : Prop :=
  glyph_free (low theme) /\ glyph_free (mid theme) /\ glyph_free (high theme).

(** ** Values of floats *)

(** [m * 2^e] as a rational. *)
Definition dval (m e : Z) : Q := (inject_Z m * 2 ^ e)%Q.

(** The sign bit of a float that is not a NaN. *)
Definition float_sign_is (sx : bool) (f : spec_float) : Prop :=
  match f with
  | S754_zero s | S754_infinity s | S754_finite s _ _ => s = sx
  | S754_nan => False
  end.

(** The magnitude of [f] is at least [T], for a positive [T]: [f] is finite
    or infinite, not zero. *)
Definition mag_ge (f : spec_float) (T : Q) : Prop :=
  match f with
  | S754_finite _ m e => (T <= dval (Zpos m) e)%Q
  | S754_infinity _ => True
  | _ => False
  end.

(** The magnitude of [f] is at most [T]: [f] is finite. *)
Definition mag_le (f : spec_float) (T : Q) : Prop :=
  match f with
  | S754_finite _ m e => (dval (Zpos m) e <= T)%Q
  | S754_zero _ => True
  | _ => False
  end.

(** Whether bits were lost in shifting a mantissa right. *)
Definition inexact (mrs : shr_record) : bool := shr_r mrs || shr_s mrs.

(** 100.0 and 62.5 as binary64, and a size of percentage far from any
    overflow. *)
Definition f100 : spec_float := S754_finite false 7036874417766400 (-46).
Definition f62_5 : spec_float := S754_finite false 8796093022208000 (-47).
Definition moderate : Z := 2 ^ 960.


(** ** Rounding to nearest *)

(** Round half to even of a rational. *)
Definition rne (x : Q) : Z :=
  let f := Qfloor x in
  match Qcompare (x - inject_Z f) (1 # 2) with
  | Lt => f
  | Gt => f + 1
  | Eq => if Z.even f then f else f + 1
  end.

(** The location [l] tells where [x] lies from the integer [m] to the next
    one: on [m], or before, on or after the middle. *)
Definition loc_ok (x : Q) (m : Z) (l : location) : Prop :=
  match l with
  | loc_Exact => (x == inject_Z m)%Q
  | loc_Inexact c =>
      (inject_Z m < x)%Q /\ (x < inject_Z (m + 1))%Q /\
      Qcompare x (inject_Z m + (1 # 2)) = c
  end.

(** [|f1| <= |f2|], for floats that are not NaN. *)
Definition mag_leq (f1 f2 : spec_float) : Prop :=
  match f1, f2 with
  | S754_nan, _ | _, S754_nan => False
  | S754_zero _, _ => True
  | S754_finite _ m1 e1, S754_finite _ m2 e2 =>
      (dval (Zpos m1) e1 <= dval (Zpos m2) e2)%Q
  | S754_finite _ _ _, S754_infinity _ => True
  | S754_infinity _, S754_infinity _ => True
  | _, _ => False
  end.

(** ** The mascot *)


(** ** Text put into a document as it is *)

(** The outcome [f s] holds the text [s] once, unchanged, between two texts
    that do not depend on it, or is one exception for every [s]. *)
Definition verbatim (f : string -> result string) : Prop :=
  (exists e, forall s, f s = Raise e) \/
  (exists before after, forall s, f s = Ok (before +:+ s +:+ after)).


(** * Properties *)

(** ** The module state is read, never written *)

Lemma reads_only_ret {A} (a : A) : reads_only (ret a).
Proof. intros g; reflexivity. Qed.

Lemma reads_only_raise {A} (e : exn) : reads_only (@raise A e).
Proof. intros g; reflexivity. Qed.

Lemma reads_only_global {A} (field : Globals -> A) : reads_only (global field).
Proof. intros g; reflexivity. Qed.

Lemma reads_only_lift {A} (r : result A) : reads_only (lift r).
Proof. intros g; reflexivity. Qed.

Lemma reads_only_bind {A B} (c : M A) (k : A -> M B) :
  reads_only c -> (forall a, reads_only (k a)) -> reads_only (bind c k).
Proof.
  intros Hc Hk g. unfold bind. specialize (Hc g).
  destruct (c g) as [[a|e] g']; simpl in *; subst.
  - apply Hk.
  - reflexivity.
Qed.

Lemma reads_only_if {A} (b : bool) (c1 c2 : M A) :
  reads_only c1 -> reads_only c2 -> reads_only (if b then c1 else c2).
Proof. destruct b; auto. Qed.

Create HintDb reads.
#[export] Hint Resolve reads_only_ret reads_only_raise reads_only_global
  reads_only_lift reads_only_bind reads_only_if : reads.

Ltac reads := repeat (intros; first
  [ apply reads_only_bind | apply reads_only_ret | apply reads_only_raise
  | apply reads_only_global | apply reads_only_lift | apply reads_only_if
  | match goal with |- reads_only (match ?x with _ => _ end) => destruct x end
  | solve [auto with reads] ]).

Lemma lookup_theme_reads_only name : reads_only (lookup_theme name).
Proof. unfold lookup_theme. reads. Qed.

Lemma rainbow_color_reads_only off j : reads_only (rainbow_color off j).
Proof. unfold rainbow_color. reads. Qed.

Lemma rainbow_step_reads_only off parts j : reads_only (rainbow_step off parts j).
Proof.
  unfold rainbow_step. apply reads_only_bind; [apply rainbow_color_reads_only | reads].
Qed.

Lemma rainbow_loop_reads_only off n : forall j parts,
  reads_only (rainbow_loop off n j parts).
Proof.
  induction n as [|n IH]; intros j parts; simpl.
  - reads.
  - apply reads_only_bind; [apply rainbow_step_reads_only | intros; apply IH].
Qed.

Lemma render_bar_html_reads_only pct theme width rainbow off :
  reads_only (render_bar_html pct theme width rainbow off).
Proof.
  unfold render_bar_html. reads. apply rainbow_loop_reads_only.
Qed.

Lemma mascot_html_reads_only : reads_only mascot_html.
Proof. unfold mascot_html. reads. Qed.

#[export] Hint Resolve lookup_theme_reads_only rainbow_loop_reads_only
  render_bar_html_reads_only mascot_html_reads_only : reads.

Lemma generate_frame_html_reads_only tn th sp wp cp rt plan model fn tf desc rb off eu el su :
  reads_only (generate_frame_html tn th sp wp cp rt plan model fn tf desc rb off eu el su).
Proof. unfold generate_frame_html. reads. Qed.

Lemma generate_statusline_html_reads_only tn th sp wp cp rt plan model fn tf rb off su scu :
  reads_only (generate_statusline_html tn th sp wp cp rt plan model fn tf rb off su scu).
Proof. unfold generate_statusline_html. reads. Qed.

Lemma for_each_reads_only {A B} (l : list A) (body : A -> M B) :
  (forall a, reads_only (body a)) -> reads_only (for_each l body).
Proof.
  intros Hb. induction l as [| a l IH]; cbn [for_each].
  - apply reads_only_ret.
  - apply reads_only_bind; [apply Hb |]. intros b.
    apply reads_only_bind; [exact IH |]. intros bs. apply reads_only_ret.
Qed.

Lemma frames_data_reads_only : reads_only frames_data.
Proof.
  unfold frames_data. apply reads_only_bind.
  - apply for_each_reads_only. intros a. reads.
  - intros themed. reads.
Qed.

Lemma update_frames_of_reads_only scen : reads_only (update_frames_of scen).
Proof.
  unfold update_frames_of. apply reads_only_bind.
  - apply for_each_reads_only. intros a. reads.
  - intros themed. apply reads_only_bind.
    + apply for_each_reads_only. intros a. reads.
    + intros shimmer. reads.
Qed.

Lemma main_documents_reads_only : reads_only main_documents.
Proof.
  unfold main_documents.
  apply reads_only_bind; [apply frames_data_reads_only | intros frames].
  apply reads_only_bind.
  { apply for_each_reads_only. intros [i fd]. apply generate_frame_html_reads_only. }
  intros html1.
  apply reads_only_bind; [apply update_frames_of_reads_only | intros uf].
  apply reads_only_bind.
  { apply for_each_reads_only. intros [i fd]. apply generate_statusline_html_reads_only. }
  intros html2.
  apply reads_only_bind; [apply update_frames_of_reads_only | intros cf].
  apply reads_only_bind.
  { apply for_each_reads_only. intros [i fd]. apply generate_statusline_html_reads_only. }
  intros html3. apply reads_only_ret.
Qed.

Lemma eval_bind {A B} (c : M A) (k : A -> M B) g :
  reads_only c ->
  eval (bind c k) g = Res.bind (eval c g) (fun a => eval (k a) g).
Proof.
  intros Hc. unfold eval, bind. specialize (Hc g).
  destruct (c g) as [[a|e] g']; simpl in *; subst; reflexivity.
Qed.

Lemma run_bind {A B} (c : M A) (k : A -> M B) :
  reads_only c ->
  run (bind c k) = Res.bind (run c) (fun a => run (k a)).
Proof. apply eval_bind. Qed.

Lemma run_ret {A} (a : A) : run (ret a) = Ok a.
Proof. reflexivity. Qed.
Lemma run_lift {A} (r : result A) : run (lift r) = r.
Proof. reflexivity. Qed.

(** ** Strings *)

Lemma append_cons (ch : ascii) (a b : string) :
  String ch a +:+ b = String ch (a +:+ b).
Proof. reflexivity. Qed.

Lemma append_assoc (a b c : string) : (a +:+ b) +:+ c = a +:+ (b +:+ c).
Proof.
  induction a as [|ch a IH]; [reflexivity |].
  now rewrite !append_cons, IH.
Qed.

Lemma append_nil_r (a : string) : a +:+ "" = a.
Proof.
  induction a as [|ch a IH]; [reflexivity |].
  now rewrite append_cons, IH.
Qed.

(** ** The theme registry *)

Lemma unregistered_lookup (name : string) :
  name ∉ registered_names -> THEME_CSS_0 !! name = None.
Proof.
  unfold registered_names. rewrite !not_elem_of_cons.
  intros (? & ? & ? & ? & ? & ? & ? & ? & ? & ? & _).
  unfold THEME_CSS_0.
  rewrite !lookup_insert_ne by congruence.
  apply lookup_empty.
Qed.

Lemma registered_lookup (name : string) :
  name ∈ registered_names -> is_Some (THEME_CSS_0 !! name).
Proof.
  unfold registered_names. intros H.
  repeat (apply elem_of_cons in H as [-> | H]; [vm_compute; eauto |]).
  inversion H.
Qed.

Lemma run_lookup_theme (name : string) :
  run (lookup_theme name) =
  match THEME_CSS_0 !! name with Some t => Ok t | None => Raise KeyError end.
Proof.
  unfold run, lookup_theme, bind, global. cbn [THEME_CSS module_globals].
  destruct (THEME_CSS_0 !! name); reflexivity.
Qed.

(** C6.  Looking a theme up by name, [THEME_CSS[name]], gives the theme
    registered under that name when the name is one of the ten registered
    names, and raises [KeyError], the [UnknownThemeError] of the
    specification, for every other name; every name [main] looks up is
    registered.  Neither the lookup nor any other operation of the module,
    the whole of [main] included, changes the registry or any other
    module-level object. *)
Theorem theme_lookup :
  (forall name, name ∈ registered_names ->
     exists t, THEME_CSS_0 !! name = Some t /\ run (lookup_theme name) = Ok t) /\
  (forall name, name ∉ registered_names ->
     exists e, run (lookup_theme name) = Raise e /\ UnknownThemeError e) /\
  (forall name, name ∈ themes_to_show \/ name = "rainbow" ->
     name ∈ registered_names) /\
  (forall g name, snd (lookup_theme name g) = g) /\
  (forall g pct theme width rainbow off,
     snd (render_bar_html pct theme width rainbow off g) = g) /\
  (forall g, snd (mascot_html g) = g) /\
  (forall g tn th sp wp cp rt plan model fn tf desc rb off eu el su,
     snd (generate_frame_html tn th sp wp cp rt plan model fn tf desc rb off
                              eu el su g) = g) /\
  (forall g tn th sp wp cp rt plan model fn tf rb off su scu,
     snd (generate_statusline_html tn th sp wp cp rt plan model fn tf rb off
                                   su scu g) = g) /\
  (forall g, snd (main_documents g) = g).
Proof.
  repeat apply conj.
  - intros name [t Ht]%registered_lookup. exists t. split; [exact Ht |].
    now rewrite run_lookup_theme, Ht.
  - intros name Hn%unregistered_lookup. exists KeyError.
    rewrite run_lookup_theme, Hn. split; reflexivity.
  - unfold themes_to_show, registered_names. intros name [H | ->].
    + repeat (apply elem_of_cons in H as [-> | H]; [repeat constructor |]).
      inversion H.
    + repeat constructor.
  - intros; apply lookup_theme_reads_only.
  - intros; apply render_bar_html_reads_only.
  - intros; apply mascot_html_reads_only.
  - intros; apply generate_frame_html_reads_only.
  - intros; apply generate_statusline_html_reads_only.
  - intros; apply main_documents_reads_only.
Qed.

(** ** Determinism *)

Lemma reads_only_twice {A} (c : M A) (g : Globals) :
  reads_only c ->
  let '(r1, g1) := c g in
  let '(r2, g2) := c g1 in
  r1 = r2 /\ g2 = g.
Proof.
  intros Hc. pose proof (Hc g) as H.
  destruct (c g) as [r1 g1] eqn:E; simpl in H; subst g1.
  rewrite E. auto.
Qed.

(** C7.  Calling a composer twice in a row with the same arguments gives
    the same outcome both times (the same document, byte for byte, or the
    same exception), whatever the state of the module before the first call,
    and leaves that state as it was. *)
Theorem composers_deterministic :
  (forall g tn th sp wp cp rt plan model fn tf desc rb off eu el su,
     let c := generate_frame_html tn th sp wp cp rt plan model fn tf desc rb
                                  off eu el su in
     let '(r1, g1) := c g in
     let '(r2, g2) := c g1 in
     r1 = r2 /\ g2 = g) /\
  (forall g tn th sp wp cp rt plan model fn tf rb off su scu,
     let c := generate_statusline_html tn th sp wp cp rt plan model fn tf rb
                                       off su scu in
     let '(r1, g1) := c g in
     let '(r2, g2) := c g1 in
     r1 = r2 /\ g2 = g).
Proof.
  split; intros; apply reads_only_twice.
  - apply generate_frame_html_reads_only.
  - apply generate_statusline_html_reads_only.
Qed.

(** ** The rotation offset without the rainbow *)

Lemma render_bar_html_plain_offset pct theme width r1 r2 :
  render_bar_html pct theme width false r1 = render_bar_html pct theme width false r2.
Proof. reflexivity. Qed.

(** C9.  With [is_rainbow] false the outcome of either composer is the same
    for any two rotation offsets, the other arguments being equal. *)
Theorem plain_offset_irrelevant :
  (forall g tn th sp wp cp rt plan model fn tf desc r1 r2 eu el su,
     generate_frame_html tn th sp wp cp rt plan model fn tf desc false r1 eu el su g
     = generate_frame_html tn th sp wp cp rt plan model fn tf desc false r2 eu el su g) /\
  (forall g tn th sp wp cp rt plan model fn tf r1 r2 su scu,
     generate_statusline_html tn th sp wp cp rt plan model fn tf false r1 su scu g
     = generate_statusline_html tn th sp wp cp rt plan model fn tf false r2 su scu g).
Proof. split; intros; reflexivity. Qed.

(** ** Update badges of the status line *)

Lemma statusline_document_split sb wb cb s w c r middle plan model :
  statusline_document "#d1d5db" (status_line sb wb cb s w c r middle plan model)
  = statusline_before sb wb cb s w c r +:+ middle +:+ statusline_after plan model.
Proof.
  unfold statusline_document, status_line, statusline_before, statusline_after.
  now rewrite !append_assoc.
Qed.

Lemma eval_generate_statusline_html g tn th sp wp cp rt plan model fn tf rb off su scu :
  eval (generate_statusline_html tn th sp wp cp rt plan model fn tf rb off su scu) g =
  Res.bind (eval (render_bar_html sp th 10 rb off) g) (fun session_bar =>
  Res.bind (eval (render_bar_html wp th 10 rb (off + 3)) g) (fun weekly_bar =>
  Res.bind (eval (render_bar_html cp th 10 rb (off + 6)) g) (fun ctx_bar =>
  Res.bind (format_3d sp) (fun s =>
  Res.bind (format_3d wp) (fun w =>
  Res.bind (format_3d cp) (fun c =>
  Ok (statusline_before session_bar weekly_bar ctx_bar s w c (reset_field rt)
      +:+ update_badges su scu +:+ statusline_after plan model))))))).
Proof.
  unfold generate_statusline_html.
  rewrite eval_bind by auto with reads.
  destruct (eval (render_bar_html sp th 10 rb off) g) as [sb|e]; [|reflexivity].
  cbn [Res.bind]. rewrite eval_bind by auto with reads.
  destruct (eval (render_bar_html wp th 10 rb (off + 3)) g) as [wb|e]; [|reflexivity].
  cbn [Res.bind]. rewrite eval_bind by auto with reads.
  destruct (eval (render_bar_html cp th 10 rb (off + 6)) g) as [cb|e]; [|reflexivity].
  cbn [Res.bind].
  rewrite eval_bind by auto with reads.
  change (eval (lift (format_3d sp)) g) with (format_3d sp).
  destruct (format_3d sp) as [s|e]; [|reflexivity].
  cbn [Res.bind]. rewrite eval_bind by auto with reads.
  change (eval (lift (format_3d wp)) g) with (format_3d wp).
  destruct (format_3d wp) as [w|e]; [|reflexivity].
  cbn [Res.bind]. rewrite eval_bind by auto with reads.
  change (eval (lift (format_3d cp)) g) with (format_3d cp).
  destruct (format_3d cp) as [c|e]; [|reflexivity].
  cbn [Res.bind].
  change (eval (ret ?x) g) with (Ok x).
  unfold eval, ret, fst. f_equal.
  rewrite statusline_document_split. f_equal. f_equal.
  unfold update_badges. destruct su, scu; reflexivity.
Qed.


(** ** The extra-usage segment of the full mockup *)

Lemma frame_document_split bc mascot model sb wb cb s w c r extra (su : bool)
    plan tn fn tf :
  frame_document "#d1d5db" bc mascot model
    (status_line sb wb cb s w c r
       (extra +:+ (if su then badge "Pulse Update" else "")) plan model)
    tn (py_str fn) (py_str tf)
  = frame_before bc mascot model sb wb cb s w c r +:+ extra
    +:+ frame_after su plan model tn fn tf.
Proof.
  unfold frame_document, status_line, frame_before, frame_after.
  now rewrite !append_assoc.
Qed.

Lemma eval_mascot_html g : eval mascot_html g = Ok (mascot_text g).
Proof. reflexivity. Qed.

Lemma eval_generate_frame_html g tn th sp wp cp rt plan model fn tf desc rb off eu el su :
  eval (generate_frame_html tn th sp wp cp rt plan model fn tf desc rb off eu el su) g =
  Res.bind (eval (render_bar_html sp th 10 rb off) g) (fun session_bar =>
  Res.bind (eval (render_bar_html wp th 10 rb (off + 3)) g) (fun weekly_bar =>
  Res.bind (eval (render_bar_html cp th 10 rb (off + 6)) g) (fun ctx_bar =>
  Res.bind (format_3d sp) (fun s =>
  Res.bind (format_3d wp) (fun w =>
  Res.bind (format_3d cp) (fun c =>
  Res.bind (extra_part g th rb off eu el) (fun extra =>
  Ok (frame_before (low th) (mascot_text g) model session_bar weekly_bar ctx_bar
                   s w c (reset_field rt)
      +:+ extra +:+ frame_after su plan model tn fn tf)))))))).
Proof.
  unfold generate_frame_html.
  rewrite eval_bind by auto with reads.
  destruct (eval (render_bar_html sp th 10 rb off) g) as [sb|e]; [|reflexivity].
  cbn [Res.bind]. rewrite eval_bind by auto with reads.
  destruct (eval (render_bar_html wp th 10 rb (off + 3)) g) as [wb|e]; [|reflexivity].
  cbn [Res.bind]. rewrite eval_bind by auto with reads.
  destruct (eval (render_bar_html cp th 10 rb (off + 6)) g) as [cb|e]; [|reflexivity].
  cbn [Res.bind].
  rewrite eval_bind by auto with reads.
  change (eval (lift (format_3d sp)) g) with (format_3d sp).
  destruct (format_3d sp) as [s|e]; [|reflexivity].
  cbn [Res.bind]. rewrite eval_bind by auto with reads.
  change (eval (lift (format_3d wp)) g) with (format_3d wp).
  destruct (format_3d wp) as [w|e]; [|reflexivity].
  cbn [Res.bind]. rewrite eval_bind by auto with reads.
  change (eval (lift (format_3d cp)) g) with (format_3d cp).
  destruct (format_3d cp) as [c|e]; [|reflexivity].
  cbn [Res.bind].
  rewrite eval_bind by (reads; auto with reads).
  assert (Hx : eval (if truthy eu && truthy el
                     then extra_pct <- lift (extra_percent eu el) ;;
                          extra_bar <- render_bar_html extra_pct th 10 rb (off + 9) ;;
                          ret (extra_segment extra_bar eu el)
                     else ret "") g = extra_part g th rb off eu el).
  { unfold extra_part. destruct (truthy eu && truthy el); [|reflexivity].
    rewrite eval_bind by auto with reads.
    change (eval (lift (extra_percent eu el)) g) with (extra_percent eu el).
    destruct (extra_percent eu el) as [p|e]; [|reflexivity].
    cbn [Res.bind]. rewrite eval_bind by auto with reads.
    destruct (eval (render_bar_html p th 10 rb (off + 9)) g); reflexivity. }
  rewrite Hx. destruct (extra_part g th rb off eu el) as [extra|e]; [|reflexivity].
  cbn [Res.bind]. rewrite eval_bind by auto with reads.
  rewrite eval_mascot_html. cbn [Res.bind].
  unfold eval, ret, fst. f_equal. apply frame_document_split.
Qed.




(** ** An extra-usage pair that is not two amounts *)

Lemma float_of_int_100 :
  float_of_int 100 = Ok (S754_finite false 7036874417766400 (-46)).
Proof. reflexivity. Qed.

Lemma extra_percent_unfold (eu el : string) :
  extra_percent eu el =
  Res.bind (py_float (strip_pound eu)) (fun u =>
  Res.bind (py_float (strip_pound el)) (fun l =>
  Res.bind (float_truediv
              (SFmul prec emax (S754_finite false 7036874417766400 (-46)) u) l)
           (fun q => Ok (PyFloat q)))).
Proof.
  unfold extra_percent. destruct (py_float (strip_pound eu)) as [u|e]; [|reflexivity].
  cbn [Res.bind py_mul]. rewrite float_of_int_100. reflexivity.
Qed.



(** ** Binary digits *)

Lemma digits2_pos_bounds (p : positive) :
  2 ^ (Zpos (digits2_pos p) - 1) <= Zpos p < 2 ^ Zpos (digits2_pos p).
Proof.
  induction p as [p IH | p IH |]; cbn [digits2_pos].
  - rewrite Pos2Z.inj_succ.
    replace (Z.succ (Zpos (digits2_pos p)) - 1) with (Z.succ (Zpos (digits2_pos p) - 1)) by lia.
    rewrite !Z.pow_succ_r by lia. lia.
  - rewrite Pos2Z.inj_succ.
    replace (Z.succ (Zpos (digits2_pos p)) - 1) with (Z.succ (Zpos (digits2_pos p) - 1)) by lia.
    rewrite !Z.pow_succ_r by lia. lia.
  - simpl. lia.
Qed.

Lemma Zdigits2_nonneg (m : Z) : 0 <= Zdigits2 m.
Proof. destruct m; simpl; lia. Qed.

Lemma Zdigits2_bounds (m : Z) :
  0 < m -> 2 ^ (Zdigits2 m - 1) <= m < 2 ^ Zdigits2 m.
Proof. destruct m; try lia. intros _. apply digits2_pos_bounds. Qed.

Lemma Zdigits2_pos (m : Z) : 0 < m -> 0 < Zdigits2 m.
Proof. destruct m; simpl; lia. Qed.

Lemma Zdigits2_unique (m d : Z) :
  2 ^ (d - 1) <= m < 2 ^ d -> 0 < d -> Zdigits2 m = d.
Proof.
  intros [H1 H2] Hd.
  assert (Hm : 0 < m) by (pose proof (Z.pow_pos_nonneg 2 (d - 1)); lia).
  pose proof (Zdigits2_bounds m Hm) as [B1 B2].
  pose proof (Zdigits2_pos m Hm) as Hp.
  destruct (Z.lt_trichotomy (Zdigits2 m) d) as [L | [E | G]]; [| exact E |].
  - assert (2 ^ Zdigits2 m <= 2 ^ (d - 1)) by (apply Z.pow_le_mono_r; lia). lia.
  - assert (2 ^ d <= 2 ^ (Zdigits2 m - 1)) by (apply Z.pow_le_mono_r; lia). lia.
Qed.

Lemma Zdigits2_le (m d : Z) : 0 <= d -> 0 <= m < 2 ^ d -> Zdigits2 m <= d.
Proof.
  intros Hd [H0 H]. destruct (Z.eq_dec m 0) as [-> | Hm]; [simpl; lia |].
  assert (Hp : 0 < m) by lia.
  pose proof (Zdigits2_bounds m Hp) as [B1 _].
  destruct (Z_lt_le_dec d (Zdigits2 m)) as [L | L]; [| exact L].
  assert (2 ^ d <= 2 ^ (Zdigits2 m - 1)) by (apply Z.pow_le_mono_r; lia). lia.
Qed.

Lemma Zdigits2_ge (m d : Z) : 2 ^ (d - 1) <= m -> 0 < d -> d <= Zdigits2 m.
Proof.
  intros H Hd.
  assert (Hp : 0 < m) by (pose proof (Z.pow_pos_nonneg 2 (d - 1)); lia).
  pose proof (Zdigits2_bounds m Hp) as [_ B2].
  destruct (Z_lt_le_dec (Zdigits2 m) d) as [L | L]; [| exact L].
  assert (2 ^ Zdigits2 m <= 2 ^ (d - 1)) by (apply Z.pow_le_mono_r; [lia |]; pose proof (Zdigits2_nonneg m); lia).
  lia.
Qed.

(** Digits of a quotient by a power of two. *)
Lemma Zdigits2_div_pow2 (m k : Z) :
  0 < m -> 0 <= k -> k < Zdigits2 m -> Zdigits2 (m / 2 ^ k) = Zdigits2 m - k.
Proof.
  intros Hm Hk Hlt.
  pose proof (Zdigits2_bounds m Hm) as [B1 B2].
  assert (P : 0 < 2 ^ k) by (apply Z.pow_pos_nonneg; lia).
  apply Zdigits2_unique; [| lia]. split.
  - apply Z.div_le_lower_bound; [exact P |].
    rewrite <- Z.pow_add_r by lia.
    replace (k + (Zdigits2 m - k - 1)) with (Zdigits2 m - 1) by lia. exact B1.
  - apply Z.div_lt_upper_bound; [exact P |].
    rewrite <- Z.pow_add_r by lia.
    replace (k + (Zdigits2 m - k)) with (Zdigits2 m) by lia. exact B2.
Qed.

Lemma div_pow2_small (m k : Z) :
  0 <= m -> Zdigits2 m <= k -> m / 2 ^ k = 0.
Proof.
  intros Hm Hk. destruct (Z.eq_dec m 0) as [-> | Hne].
  - apply Z.div_0_l. pose proof (Zdigits2_nonneg 0).
    assert (0 < 2 ^ k) by (apply Z.pow_pos_nonneg; simpl in *; lia). lia.
  - apply Z.div_small. split; [lia |].
    pose proof (Zdigits2_bounds m ltac:(lia)) as [_ B].
    pose proof (Zdigits2_nonneg m).
    assert (2 ^ Zdigits2 m <= 2 ^ k) by (apply Z.pow_le_mono_r; lia). lia.
Qed.

(** ** Shifting a mantissa right *)

Lemma shr_1_m (mrs : shr_record) :
  0 <= shr_m mrs -> shr_m (shr_1 mrs) = shr_m mrs / 2.
Proof.
  destruct mrs as [m r s]; cbn [shr_m]. intros Hm.
  destruct m as [| [p | p |] |]; cbn [shr_1 shr_m]; try lia.
  - reflexivity.
  - apply Z.div_unique with 1; lia.
  - apply Z.div_unique with 0; lia.
  - reflexivity.
Qed.

Lemma shr_1_inexact (mrs : shr_record) :
  0 <= shr_m mrs -> inexact (shr_1 mrs) = inexact mrs || Z.odd (shr_m mrs).
Proof.
  destruct mrs as [m r s]; unfold inexact; simpl. intros Hm.
  destruct m as [| [p | p |] |]; simpl; try lia; destruct r, s; reflexivity.
Qed.

Lemma shr_1_nonneg (mrs : shr_record) : 0 <= shr_m mrs -> 0 <= shr_m (shr_1 mrs).
Proof. intros H. rewrite shr_1_m by exact H. apply Z.div_pos; lia. Qed.

Lemma iter_pos_shr_1 (p : positive) : forall mrs,
  0 <= shr_m mrs ->
  shr_m (SpecFloat.iter_pos shr_1 p mrs) = shr_m mrs / 2 ^ Zpos p /\
  (inexact (SpecFloat.iter_pos shr_1 p mrs) = true ->
   inexact mrs = true \/ shr_m mrs mod 2 ^ Zpos p <> 0).
Proof.
  induction p as [p IH | p IH |]; intros mrs Hm; cbn [SpecFloat.iter_pos].
  - pose proof (shr_1_nonneg mrs Hm) as H1.
    destruct (IH (shr_1 mrs) H1) as [A1 A2].
    assert (H2 : 0 <= shr_m (SpecFloat.iter_pos shr_1 p (shr_1 mrs))).
    { rewrite A1. apply Z.div_pos; [exact H1 | apply Z.pow_pos_nonneg; lia]. }
    destruct (IH _ H2) as [B1 B2].
    assert (P : 0 < 2 ^ Zpos p) by (apply Z.pow_pos_nonneg; lia).
    assert (E : 2 ^ Zpos p~1 = 2 * (2 ^ Zpos p * 2 ^ Zpos p)).
    { replace (Zpos p~1) with (Z.succ (Zpos p + Zpos p)) by lia.
      rewrite Z.pow_succ_r, Z.pow_add_r by lia. reflexivity. }
    split.
    + rewrite B1, A1, shr_1_m by exact Hm. rewrite E.
      rewrite !Z.div_div by lia. reflexivity.
    + intros Hi. destruct (B2 Hi) as [Hi' | Hmod].
      * destruct (A2 Hi') as [Hi'' | Hmod].
        -- rewrite shr_1_inexact in Hi'' by exact Hm.
           apply orb_true_iff in Hi'' as [? | Hodd]; [now left |].
           right. rewrite E. intros Hz.
           apply Z.mod_divide in Hz; [| lia].
           rewrite <- Z.negb_even in Hodd. apply negb_true_iff in Hodd.
           assert (Z.even (shr_m mrs) = true); [| congruence].
           destruct Hz as [c ->]. rewrite Z.even_mul.
           rewrite (Z.even_mul 2). simpl. now rewrite orb_true_r.
        -- right. rewrite E. intros Hz. apply Hmod.
           rewrite shr_1_m by exact Hm.
           apply Z.mod_divide in Hz; [| lia]. destruct Hz as [c ->].
           replace (c * (2 * (2 ^ Zpos p * 2 ^ Zpos p))) with ((c * 2 ^ Zpos p * 2 ^ Zpos p) * 2) by lia.
           rewrite Z.div_mul by lia.
           replace (c * 2 ^ Z.pos p * 2 ^ Z.pos p) with ((c * 2 ^ Zpos p) * 2 ^ Zpos p) by lia.
           apply Z.mod_mul. lia.
      * right. rewrite E. intros Hz. apply Hmod.
        rewrite A1, shr_1_m by exact Hm.
        apply Z.mod_divide in Hz; [| lia]. destruct Hz as [c ->].
        replace (c * (2 * (2 ^ Zpos p * 2 ^ Zpos p))) with ((c * 2 ^ Zpos p * 2 ^ Zpos p) * 2) by lia.
        rewrite Z.div_mul by lia. rewrite Z.div_mul by lia.
        apply Z.mod_mul. lia.
  - destruct (IH mrs Hm) as [A1 A2].
    assert (H2 : 0 <= shr_m (SpecFloat.iter_pos shr_1 p mrs)).
    { rewrite A1. apply Z.div_pos; [exact Hm | apply Z.pow_pos_nonneg; lia]. }
    destruct (IH _ H2) as [B1 B2].
    assert (P : 0 < 2 ^ Zpos p) by (apply Z.pow_pos_nonneg; lia).
    assert (E : 2 ^ Zpos p~0 = 2 ^ Zpos p * 2 ^ Zpos p).
    { replace (Zpos p~0) with (Zpos p + Zpos p) by lia.
      rewrite Z.pow_add_r by lia. reflexivity. }
    split.
    + rewrite B1, A1, E. rewrite Z.div_div by lia. reflexivity.
    + intros Hi. destruct (B2 Hi) as [Hi' | Hmod].
      * destruct (A2 Hi') as [? | Hmod]; [now left |].
        right. rewrite E. intros Hz. apply Hmod.
        apply Z.mod_divide in Hz; [| lia]. destruct Hz as [c ->].
        replace (c * (2 ^ Zpos p * 2 ^ Zpos p)) with ((c * 2 ^ Zpos p) * 2 ^ Zpos p) by lia.
        apply Z.mod_mul. lia.
      * right. rewrite E. intros Hz. apply Hmod. rewrite A1.
        apply Z.mod_divide in Hz; [| lia]. destruct Hz as [c ->].
        replace (c * (2 ^ Zpos p * 2 ^ Zpos p)) with ((c * 2 ^ Zpos p) * 2 ^ Zpos p) by lia.
        rewrite Z.div_mul by lia. apply Z.mod_mul. lia.
  - split.
    + rewrite shr_1_m by exact Hm. reflexivity.
    + intros Hi. rewrite shr_1_inexact in Hi by exact Hm.
      apply orb_true_iff in Hi as [? | Hodd]; [now left |].
      right. change (2 ^ 1) with 2. rewrite Zmod_odd, Hodd. lia.
Qed.

Lemma fexp_eq (e : Z) : fexp prec emax e = Z.max (e - 53) (-1074).
Proof. reflexivity. Qed.

Lemma shr_spec (mrs : shr_record) (e n : Z) :
  0 <= shr_m mrs ->
  let k := Z.max 0 n in
  snd (shr mrs e n) = e + k /\
  shr_m (fst (shr mrs e n)) = shr_m mrs / 2 ^ k /\
  (inexact (fst (shr mrs e n)) = true ->
   inexact mrs = true \/ shr_m mrs mod 2 ^ k <> 0).
Proof.
  intros Hm k. subst k. destruct n as [| p | p]; cbn [shr fst snd].
  - change (Z.max 0 0) with 0. rewrite Z.pow_0_r, Z.div_1_r. repeat split; auto; lia.
  - replace (Z.max 0 (Zpos p)) with (Zpos p) by lia.
    destruct (iter_pos_shr_1 p mrs Hm) as [A B]. repeat split; auto.
  - replace (Z.max 0 (Zneg p)) with 0 by lia.
    rewrite Z.pow_0_r, Z.div_1_r. repeat split; auto; lia.
Qed.

Lemma shr_record_of_loc_m (m : Z) (l : location) : shr_m (shr_record_of_loc m l) = m.
Proof. destruct l as [| []]; reflexivity. Qed.

Lemma shr_record_of_loc_inexact (m : Z) (l : location) :
  inexact (shr_record_of_loc m l) = true -> l <> loc_Exact.
Proof. destruct l as [| []]; simpl; intros H; try discriminate; congruence. Qed.

Lemma round_nearest_even_bounds (mrs : shr_record) :
  let m := shr_m mrs in
  let m' := round_nearest_even m (loc_of_shr_record mrs) in
  m <= m' <= m + 1 /\ (m' = m + 1 -> inexact mrs = true).
Proof.
  destruct mrs as [m [] []]; cbn; try destruct (Z.even m);
    (split; [lia | intros; try reflexivity; lia]).
Qed.

(** The outcome of [binary_round_aux]: the mantissa is cut at the exponent
    [e1] the format gives to the magnitude of the input, rounded up by at
    most one unit, and renormalized when the rounding carries. *)
Lemma binary_round_aux_shape (sx : bool) (mx ex : Z) (lx : location) :
  0 <= mx -> ex <= fexp prec emax (Zdigits2 mx + ex) ->
  let e1 := fexp prec emax (Zdigits2 mx + ex) in
  let m1 := mx / 2 ^ (e1 - ex) in
  exists m2,
    m1 <= m2 <= m1 + 1 /\
    (m2 = m1 + 1 -> lx <> loc_Exact \/ mx mod 2 ^ (e1 - ex) <> 0) /\
    m1 < 2 ^ prec /\
    (-1074 < e1 -> 2 ^ (prec - 1) <= m1) /\
    binary_round_aux prec emax sx mx ex lx =
      if m2 =? 0 then S754_zero sx
      else if m2 =? 2 ^ prec then
        (if e1 + 1 <=? emax - prec
         then S754_finite sx (Z.to_pos (2 ^ (prec - 1))) (e1 + 1)
         else S754_infinity sx)
      else if e1 <=? emax - prec then S754_finite sx (Z.to_pos m2) e1
      else S754_infinity sx.
Proof.
  intros Hmx Hn e1 m1.
  assert (He1 : -1074 <= e1) by (subst e1; rewrite fexp_eq; lia).
  assert (Hk : 0 <= e1 - ex) by (subst e1; lia).
  assert (Hm1_nonneg : 0 <= m1).
  { subst m1. apply Z.div_pos; [exact Hmx | apply Z.pow_pos_nonneg; lia]. }
  (* the size of the cut mantissa *)
  assert (Hm1 : m1 < 2 ^ prec /\ (-1074 < e1 -> 2 ^ (prec - 1) <= m1)).
  { destruct (Z.eq_dec mx 0) as [-> | Hne].
    - subst m1. rewrite Z.div_0_l by (apply Z.pow_nonzero; lia).
      split; [reflexivity |]. intros H. subst e1. simpl in *.
      rewrite fexp_eq in *. lia.
    - assert (Hp : 0 < mx) by lia.
      pose proof (Zdigits2_pos mx Hp) as Hd.
      destruct (Z_lt_le_dec (e1 - ex) (Zdigits2 mx)) as [L | L].
      + pose proof (Zdigits2_div_pow2 mx (e1 - ex) Hp Hk L) as D. fold m1 in D.
        assert (Hpos : 0 < m1).
        { subst m1. apply Z.div_str_pos. split; [apply Z.pow_pos_nonneg; lia |].
          pose proof (Zdigits2_bounds mx Hp) as [B _].
          assert (2 ^ (e1 - ex) <= 2 ^ (Zdigits2 mx - 1)) by (apply Z.pow_le_mono_r; lia).
          lia. }
        pose proof (Zdigits2_bounds m1 Hpos) as [B1 B2]. rewrite D in B1, B2.
        split.
        * assert (2 ^ (Zdigits2 mx - (e1 - ex)) <= 2 ^ prec).
          { apply Z.pow_le_mono_r; [lia |]. subst e1. rewrite fexp_eq. unfold prec. lia. }
          lia.
        * intros H. replace (Zdigits2 mx - (e1 - ex) - 1) with (prec - 1) in B1; [exact B1 |].
          subst e1. rewrite fexp_eq in *. unfold prec. lia.
      + pose proof (div_pow2_small mx (e1 - ex) Hmx L) as Z0. fold m1 in Z0.
        rewrite Z0. split; [reflexivity |].
        intros H. subst e1. rewrite fexp_eq in *. lia. }
  destruct Hm1 as [Hm1a Hm1b].
  unfold binary_round_aux, shr_fexp.
  fold e1.
  pose proof (shr_spec (shr_record_of_loc mx lx) ex (e1 - ex)) as S1.
  rewrite shr_record_of_loc_m in S1. specialize (S1 Hmx). cbv zeta in S1.
  replace (Z.max 0 (e1 - ex)) with (e1 - ex) in S1 by lia.
  destruct (shr (shr_record_of_loc mx lx) ex (e1 - ex)) as [mrs' e'] eqn:E1.
  cbn [fst snd] in S1. destruct S1 as (Se & Sm & Si).
  fold m1 in Sm. replace (ex + (e1 - ex)) with e1 in Se by lia. subst e'.
  pose proof (round_nearest_even_bounds mrs') as R. cbv zeta in R.
  rewrite Sm in R. destruct R as [R1 R2].
  set (m2 := round_nearest_even m1 (loc_of_shr_record mrs')) in *.
  rewrite Sm. fold m2.
  exists m2. split; [exact R1 |]. split.
  { intros H. destruct (Si (R2 H)) as [Hi | Hmod]; [| now right].
    left. now apply shr_record_of_loc_inexact in Hi. }
  split; [exact Hm1a |]. split; [exact Hm1b |].
  (* the renormalization *)
  change (shr_record_of_loc m2 loc_Exact) with (Build_shr_record m2 false false).
  destruct (Z.eqb_spec m2 0) as [Z2 | NZ2].
  - rewrite Z2. cbn [Zdigits2]. rewrite fexp_eq.
    destruct (Z.max (0 + e1 - 53) (-1074) - e1) eqn:En; try lia; reflexivity.
  - assert (Hpos2 : 0 < m2) by lia.
    destruct (Z.eqb_spec m2 (2 ^ prec)) as [C | NC].
    + assert (D : Zdigits2 m2 = prec + 1).
      { apply Zdigits2_unique; [| unfold prec; lia]. rewrite C.
        replace (prec + 1 - 1) with prec by lia. split; [lia |].
        apply Z.pow_lt_mono_r; unfold prec; lia. }
      rewrite D, fexp_eq. unfold prec at 1.
      replace (Z.max (53 + 1 + e1 - 53) (-1074) - e1) with 1 by lia.
      cbn [shr SpecFloat.iter_pos shr_1]. rewrite C. reflexivity.
    + assert (D : Zdigits2 m2 <= prec).
      { apply Zdigits2_le; [unfold prec; lia | lia]. }
      rewrite fexp_eq. unfold prec in D.
      destruct (Z.max (Zdigits2 m2 + e1 - 53) (-1074) - e1) eqn:En; try lia.
      * cbn [shr shr_m]. destruct m2; try lia. reflexivity.
      * cbn [shr shr_m]. destruct m2; try lia. reflexivity.
Qed.

(** ** Dyadic values *)

Lemma pow2_pos (e : Z) : (0 < 2 ^ e)%Q.
Proof. apply Qpower_0_lt. reflexivity. Qed.

Lemma pow2_add (a b : Z) : (2 ^ (a + b) == 2 ^ a * 2 ^ b)%Q.
Proof. apply Qpower_plus. discriminate. Qed.

Lemma pow2_inject (n : Z) : 0 <= n -> (inject_Z (2 ^ n) == 2 ^ n)%Q.
Proof. intros H. rewrite Zpower_Qpower by exact H. reflexivity. Qed.

Lemma dval_shift (m e k : Z) : 0 <= k -> (dval (m * 2 ^ k) e == dval m (e + k))%Q.
Proof.
  intros H. unfold dval. rewrite inject_Z_mult, pow2_inject by exact H.
  rewrite pow2_add. ring.
Qed.

Lemma dval_le (m m' e : Z) : (dval m e <= dval m' e)%Q <-> m <= m'.
Proof.
  unfold dval. pose proof (pow2_pos e) as P. rewrite Zle_Qle. split; intros H.
  - apply Qmult_le_r in H; assumption.
  - apply Qmult_le_r; assumption.
Qed.

Lemma dval_lt (m m' e : Z) : (dval m e < dval m' e)%Q <-> m < m'.
Proof.
  unfold dval. pose proof (pow2_pos e) as P. rewrite Zlt_Qlt. split; intros H.
  - apply Qmult_lt_r in H; assumption.
  - apply Qmult_lt_r; assumption.
Qed.

Lemma dval_pos (m e : Z) : 0 < m -> (0 < dval m e)%Q.
Proof.
  intros H. unfold dval. apply Qmult_lt_0_compat; [| apply pow2_pos].
  change 0%Q with (inject_Z 0). now rewrite <- Zlt_Qlt.
Qed.

(** Bringing a value to a finer exponent. *)
Lemma dval_align (m e e' : Z) : e' <= e -> (dval m e == dval (m * 2 ^ (e - e')) e')%Q.
Proof.
  intros H. rewrite dval_shift by lia. replace (e' + (e - e')) with e by lia. reflexivity.
Qed.

(** ** Rounding bounds *)

Lemma pow2_ge_2 (n : Z) : 0 < n -> 2 <= 2 ^ n.
Proof.
  intros H. replace n with (Z.succ (n - 1)) by lia. rewrite Z.pow_succ_r by lia.
  assert (0 < 2 ^ (n - 1)) by (apply Z.pow_pos_nonneg; lia). lia.
Qed.

Lemma pack_sign (sx : bool) (m2 e1 : Z) :
  float_sign_is sx
    (if m2 =? 0 then S754_zero sx
     else if m2 =? 2 ^ prec then
       (if e1 + 1 <=? emax - prec
        then S754_finite sx (Z.to_pos (2 ^ (prec - 1))) (e1 + 1)
        else S754_infinity sx)
     else if e1 <=? emax - prec then S754_finite sx (Z.to_pos m2) e1
     else S754_infinity sx).
Proof.
  destruct (m2 =? 0); [reflexivity |].
  destruct (m2 =? 2 ^ prec).
  - destruct (e1 + 1 <=? emax - prec); reflexivity.
  - destruct (e1 <=? emax - prec); reflexivity.
Qed.

Lemma binary_round_aux_sign (sx : bool) (mx ex : Z) (lx : location) :
  0 <= mx -> ex <= fexp prec emax (Zdigits2 mx + ex) ->
  float_sign_is sx (binary_round_aux prec emax sx mx ex lx).
Proof.
  intros H1 H2.
  destruct (binary_round_aux_shape sx mx ex lx H1 H2) as (m2 & _ & _ & _ & _ & ->).
  apply pack_sign.
Qed.

Lemma binary_round_aux_valid (sx : bool) (mx ex : Z) (lx : location) :
  0 <= mx -> ex <= fexp prec emax (Zdigits2 mx + ex) ->
  valid_binary prec emax (binary_round_aux prec emax sx mx ex lx) = true.
Proof.
  intros H1 H2.
  destruct (binary_round_aux_shape sx mx ex lx H1 H2)
    as (m2 & Hb & _ & Hlt & Hnorm & ->).
  set (e1 := fexp prec emax (Zdigits2 mx + ex)) in *.
  set (m1 := mx / 2 ^ (e1 - ex)) in *.
  assert (He1 : -1074 <= e1) by (subst e1; rewrite fexp_eq; lia).
  destruct (Z.eqb_spec m2 0) as [Z2 | NZ2]; [reflexivity |].
  assert (Hm1 : 0 <= m1).
  { subst m1. apply Z.div_pos; [exact H1 | apply Z.pow_pos_nonneg; subst e1; lia]. }
  destruct (Z.eqb_spec m2 (2 ^ prec)) as [C | NC].
  - destruct (Z.leb_spec (e1 + 1) (emax - prec)) as [L | L]; [| reflexivity].
    cbn [valid_binary]. unfold bounded, canonical_mantissa.
    apply andb_true_iff. split; [| apply Z.leb_le; exact L].
    apply Z.eqb_eq. rewrite fexp_eq.
    change (Zpos (digits2_pos (Z.to_pos (2 ^ (prec - 1))))) with 53. lia.
  - destruct (Z.leb_spec e1 (emax - prec)) as [L | L]; [| reflexivity].
    cbn [valid_binary]. unfold bounded, canonical_mantissa.
    apply andb_true_iff. split; [| apply Z.leb_le; exact L].
    apply Z.eqb_eq. rewrite fexp_eq.
    assert (Hp : 0 < m2) by lia.
    change (Zpos (digits2_pos (Z.to_pos m2))) with (Zdigits2 (Zpos (Z.to_pos m2))).
    rewrite Z2Pos.id by exact Hp.
    assert (D : Zdigits2 m2 <= prec) by (apply Zdigits2_le; [unfold prec; lia | lia]).
    unfold prec in D.
    destruct (Z.eq_dec e1 (-1074)) as [-> | Hne]; [lia |].
    assert (D' : prec <= Zdigits2 m2).
    { apply Zdigits2_ge; [| unfold prec; lia]. specialize (Hnorm ltac:(lia)). lia. }
    unfold prec in D'. lia.
Qed.

Section RoundingBounds.

Variables (sx : bool) (mx ex : Z) (lx : location) (v : Q) (t k : Z).
Hypothesis Hmx : 0 <= mx.
Hypothesis Hn : ex <= fexp prec emax (Zdigits2 mx + ex).
Hypothesis Ht : 0 < t < 2 ^ prec.

(** The exact value [v] lies at or after the mantissa, before the next one. *)

Lemma binary_round_aux_lower :
  (v < dval (mx + 1) ex)%Q -> -1074 <= k -> (dval t k <= v)%Q ->
  mag_ge (binary_round_aux prec emax sx mx ex lx) (dval t k).
Proof.
  intros Hv Hk HT.
  destruct (binary_round_aux_shape sx mx ex lx Hmx Hn)
    as (m2 & Hb & _ & Hlt & Hnorm & ->).
  set (e1 := fexp prec emax (Zdigits2 mx + ex)) in *.
  set (m1 := mx / 2 ^ (e1 - ex)) in *.
  assert (He1 : -1074 <= e1) by (subst e1; rewrite fexp_eq; lia).
  assert (Hk1 : 0 <= e1 - ex) by lia.
  assert (P1 : 0 < 2 ^ (e1 - ex)) by (apply Z.pow_pos_nonneg; lia).
  assert (Hm1 : 0 <= m1) by (subst m1; apply Z.div_pos; lia).
  (* the rounded value is at least the threshold *)
  assert (Hge : (dval t k <= dval m2 e1)%Q).
  { destruct (Z_le_gt_dec e1 k) as [L | G].
    - rewrite (dval_align t k e1) by exact L. apply dval_le.
      assert (t * 2 ^ (k - e1) <= m1); [| lia].
      subst m1. apply Z.div_le_lower_bound; [exact P1 |].
      assert (Hlt' : (dval (t * 2 ^ (k - e1) * 2 ^ (e1 - ex)) ex < dval (mx + 1) ex)%Q).
      { rewrite dval_shift by lia. replace (ex + (e1 - ex)) with e1 by lia.
        rewrite <- (dval_align t k e1) by exact L.
        eapply Qle_lt_trans; eassumption. }
      apply dval_lt in Hlt'. lia.
    - rewrite (dval_align m2 e1 k) by lia. apply dval_le.
      specialize (Hnorm ltac:(lia)).
      assert (2 <= 2 ^ (e1 - k)) by (apply pow2_ge_2; lia).
      assert (2 ^ prec = 2 ^ (prec - 1) * 2) by reflexivity.
      nia. }
  assert (Hpos : 0 < m2).
  { pose proof (dval_pos t k ltac:(lia)) as Tp.
    destruct (Z_lt_le_dec 0 m2) as [? | Hle]; [assumption | exfalso].
    apply (dval_le m2 0 e1) in Hle.
    assert (Hz : (dval 0 e1 == 0)%Q) by (unfold dval; ring).
    lra. }
  destruct (Z.eqb_spec m2 0) as [? | _]; [lia |].
  destruct (Z.eqb_spec m2 (2 ^ prec)) as [C | NC].
  - destruct (e1 + 1 <=? emax - prec); [| exact I].
    cbn [mag_ge]. rewrite Z2Pos.id by reflexivity.
    rewrite (dval_align (2 ^ (prec - 1)) (e1 + 1) e1) by lia.
    replace (e1 + 1 - e1) with 1 by lia.
    change (2 ^ (prec - 1) * 2 ^ 1) with (2 ^ prec). now rewrite <- C.
  - destruct (e1 <=? emax - prec); [| exact I].
    cbn [mag_ge]. now rewrite Z2Pos.id by exact Hpos.
Qed.

Lemma binary_round_aux_upper :
  (dval mx ex <= v)%Q -> (lx <> loc_Exact -> (dval mx ex < v)%Q) ->
  -1074 <= k <= emax - prec -> (v <= dval t k)%Q ->
  mag_le (binary_round_aux prec emax sx mx ex lx) (dval t k).
Proof.
  intros Hv Hx Hk HT.
  destruct (binary_round_aux_shape sx mx ex lx Hmx Hn)
    as (m2 & Hb & Hup & Hlt & Hnorm & ->).
  set (e1 := fexp prec emax (Zdigits2 mx + ex)) in *.
  set (m1 := mx / 2 ^ (e1 - ex)) in *.
  assert (He1 : -1074 <= e1) by (subst e1; rewrite fexp_eq; lia).
  assert (Hk1 : 0 <= e1 - ex) by lia.
  assert (P1 : 0 < 2 ^ (e1 - ex)) by (apply Z.pow_pos_nonneg; lia).
  assert (Hm1 : 0 <= m1) by (subst m1; apply Z.div_pos; lia).
  assert (Hfloor : m1 * 2 ^ (e1 - ex) <= mx).
  { subst m1. rewrite Z.mul_comm. apply Z.mul_div_le. exact P1. }
  assert (Hm1v : (dval m1 e1 <= dval mx ex)%Q).
  { rewrite (dval_align m1 e1 ex) by lia. now apply dval_le. }
  (* the threshold is on the grid of [e1] *)
  assert (Hgrid : e1 <= k).
  { destruct (Z_le_gt_dec e1 k) as [L | G]; [exact L | exfalso].
    specialize (Hnorm ltac:(lia)).
    assert (Hc : (dval t k < dval m1 e1)%Q).
    { rewrite (dval_align m1 e1 k) by lia. apply dval_lt.
      assert (2 <= 2 ^ (e1 - k)) by (apply pow2_ge_2; lia).
      assert (2 ^ prec = 2 ^ (prec - 1) * 2) by reflexivity.
      nia. }
    lra. }
  assert (Hle : m2 <= t * 2 ^ (k - e1)).
  { destruct (Z.eq_dec m2 (m1 + 1)) as [E | NE].
    - assert (Hstrict : (dval m1 e1 < v)%Q).
      { destruct (Hup E) as [Hl | Hmod].
        - specialize (Hx Hl). lra.
        - assert (m1 * 2 ^ (e1 - ex) < mx).
          { destruct (Z.eq_dec (m1 * 2 ^ (e1 - ex)) mx) as [Eq | ?]; [| lia].
            exfalso. apply Hmod. rewrite <- Eq. apply Z.mod_mul. lia. }
          assert ((dval m1 e1 < dval mx ex)%Q).
          { rewrite (dval_align m1 e1 ex) by lia. now apply dval_lt. }
          lra. }
      assert (Hs2 : (dval m1 e1 < dval (t * 2 ^ (k - e1)) e1)%Q).
      { rewrite <- (dval_align t k e1) by exact Hgrid. lra. }
      apply dval_lt in Hs2. lia.
    - assert (m2 = m1) by lia. subst m2.
      assert (Hs2 : (dval m1 e1 <= dval (t * 2 ^ (k - e1)) e1)%Q).
      { rewrite <- (dval_align t k e1) by exact Hgrid. lra. }
      now apply dval_le in Hs2. }
  assert (Hval : (dval m2 e1 <= dval t k)%Q).
  { rewrite (dval_align t k e1) by exact Hgrid. now apply dval_le. }
  assert (Hpk : 1 <= 2 ^ (k - e1)).
  { assert (0 < 2 ^ (k - e1)) by (apply Z.pow_pos_nonneg; lia). lia. }
  destruct (Z.eqb_spec m2 0) as [? | NZ]; [exact I |].
  destruct (Z.eqb_spec m2 (2 ^ prec)) as [C | NC].
  - (* a carry needs a threshold on a coarser grid *)
    assert (Hk2 : e1 < k).
    { destruct (Z.eq_dec e1 k) as [Eq | ?]; [exfalso | lia].
      rewrite Eq, Z.sub_diag, Z.pow_0_r in Hle. lia. }
    destruct (Z.leb_spec (e1 + 1) (emax - prec)) as [L | L]; [| unfold emax, prec in *; lia].
    cbn [mag_le]. rewrite Z2Pos.id by reflexivity.
    rewrite (dval_align (2 ^ (prec - 1)) (e1 + 1) e1) by lia.
    replace (e1 + 1 - e1) with 1 by lia.
    change (2 ^ (prec - 1) * 2 ^ 1) with (2 ^ prec). now rewrite <- C.
  - destruct (Z.leb_spec e1 (emax - prec)) as [L | L]; [| unfold emax, prec in *; lia].
    cbn [mag_le]. now rewrite Z2Pos.id by lia.
Qed.

End RoundingBounds.

(** ** Valid floats *)

Lemma valid_finite (s : bool) (m : positive) (e : Z) :
  valid_binary prec emax (S754_finite s m e) = true ->
  -1074 <= e <= emax - prec /\ Zpos m < 2 ^ prec /\
  (e = -1074 \/ 2 ^ (prec - 1) <= Zpos m).
Proof.
  cbn [valid_binary]. unfold bounded, canonical_mantissa.
  intros [H1 H2]%andb_true_iff. apply Z.eqb_eq in H1. apply Z.leb_le in H2.
  rewrite fexp_eq in H1.
  change (Zpos (digits2_pos m)) with (Zdigits2 (Zpos m)) in H1.
  pose proof (Zdigits2_bounds (Zpos m) ltac:(lia)) as [B1 B2].
  repeat split; try lia.
  - assert (2 ^ Zdigits2 (Zpos m) <= 2 ^ prec) by (apply Z.pow_le_mono_r; unfold prec; lia).
    lia.
  - destruct (Z.eq_dec e (-1074)) as [? | Hne]; [now left | right].
    replace (prec - 1) with (Zdigits2 (Zpos m) - 1) by (unfold prec; lia). exact B1.
Qed.

Lemma Zdigits2_mul_ge (a b : Z) :
  0 < a -> 0 < b -> Zdigits2 a + Zdigits2 b - 1 <= Zdigits2 (a * b).
Proof.
  intros Ha Hb.
  pose proof (Zdigits2_bounds a Ha) as [A _]. pose proof (Zdigits2_bounds b Hb) as [B _].
  pose proof (Zdigits2_pos a Ha). pose proof (Zdigits2_pos b Hb).
  apply Zdigits2_ge; [| lia].
  replace (Zdigits2 a + Zdigits2 b - 1 - 1) with ((Zdigits2 a - 1) + (Zdigits2 b - 1)) by lia.
  rewrite Z.pow_add_r by lia.
  assert (0 < 2 ^ (Zdigits2 a - 1)) by (apply Z.pow_pos_nonneg; lia).
  assert (0 < 2 ^ (Zdigits2 b - 1)) by (apply Z.pow_pos_nonneg; lia).
  nia.
Qed.

Lemma valid_digits (s : bool) (m : positive) (e : Z) :
  valid_binary prec emax (S754_finite s m e) = true ->
  -1074 <= e /\ (e = -1074 \/ Zdigits2 (Zpos m) = 53).
Proof.
  cbn [valid_binary]. unfold bounded, canonical_mantissa.
  intros [H1 H2]%andb_true_iff. apply Z.eqb_eq in H1.
  rewrite fexp_eq in H1.
  change (Zpos (digits2_pos m)) with (Zdigits2 (Zpos m)) in H1. lia.
Qed.

(** The exact product of two valid floats is never finer than the format. *)
Lemma mul_aligned (sx sy : bool) (mx my : positive) (ex ey : Z) :
  valid_binary prec emax (S754_finite sx mx ex) = true ->
  valid_binary prec emax (S754_finite sy my ey) = true ->
  ex + ey <= fexp prec emax (Zdigits2 (Zpos (mx * my)) + (ex + ey)).
Proof.
  intros [Hx1 Hx2]%valid_digits [Hy1 Hy2]%valid_digits.
  rewrite fexp_eq, Pos2Z.inj_mul.
  pose proof (Zdigits2_mul_ge (Zpos mx) (Zpos my) ltac:(lia) ltac:(lia)).
  pose proof (Zdigits2_pos (Zpos mx) ltac:(lia)).
  pose proof (Zdigits2_pos (Zpos my) ltac:(lia)).
  lia.
Qed.

Lemma dval_mul (m1 e1 m2 e2 : Z) :
  (dval (m1 * m2) (e1 + e2) == dval m1 e1 * dval m2 e2)%Q.
Proof. unfold dval. rewrite inject_Z_mult, pow2_add. ring. Qed.

Lemma dval_succ_lt (m e : Z) : (dval m e < dval (m + 1) e)%Q.
Proof. apply dval_lt. lia. Qed.

Lemma dval_1 : (dval 1 0 == 1)%Q.
Proof. reflexivity. Qed.

(** ** Multiplication *)

Lemma SFmul_finite (sx sy : bool) (mx my : positive) (ex ey : Z) :
  SFmul prec emax (S754_finite sx mx ex) (S754_finite sy my ey) =
  binary_round_aux prec emax (xorb sx sy) (Zpos (mx * my)) (ex + ey) loc_Exact.
Proof. reflexivity. Qed.

Lemma SFmul_valid (x y : spec_float) :
  valid_binary prec emax x = true -> valid_binary prec emax y = true ->
  valid_binary prec emax (SFmul prec emax x y) = true.
Proof.
  intros Hx Hy. destruct x as [sx | sx | | sx mx ex], y as [sy | sy | | sy my ey];
    try reflexivity.
  rewrite SFmul_finite. apply binary_round_aux_valid; [lia |].
  eapply mul_aligned; eassumption.
Qed.

(** A factor of magnitude at least one does not shrink a valid float. *)
Lemma SFmul_lower (x : spec_float) (sy : bool) (my : positive) (ey : Z) :
  valid_binary prec emax x = true ->
  valid_binary prec emax (S754_finite sy my ey) = true ->
  mag_ge x 1 ->
  mag_ge (SFmul prec emax x (S754_finite sy my ey)) (dval (Zpos my) ey).
Proof.
  intros Hx Hy Hge.
  destruct x as [sx | sx | | sx mx ex]; try contradiction; [exact I |].
  cbn [mag_ge] in Hge. rewrite SFmul_finite.
  pose proof (valid_finite _ _ _ Hy) as (He & Hm & _).
  apply binary_round_aux_lower with (v := dval (Zpos (mx * my)) (ex + ey)).
  - lia.
  - eapply mul_aligned; eassumption.
  - lia.
  - apply dval_succ_lt.
  - lia.
  - rewrite Pos2Z.inj_mul, dval_mul.
    pose proof (dval_pos (Zpos my) ey ltac:(lia)). nra.
Qed.

(** A factor of magnitude at most one does not grow a valid float. *)
Lemma SFmul_upper (x : spec_float) (sy : bool) (my : positive) (ey : Z) :
  valid_binary prec emax x = true ->
  valid_binary prec emax (S754_finite sy my ey) = true ->
  mag_le x 1 ->
  mag_le (SFmul prec emax x (S754_finite sy my ey)) (dval (Zpos my) ey).
Proof.
  intros Hx Hy Hle.
  destruct x as [sx | sx | | sx mx ex]; try contradiction; [exact I |].
  cbn [mag_le] in Hle. rewrite SFmul_finite.
  pose proof (valid_finite _ _ _ Hy) as (He & Hm & _).
  apply binary_round_aux_upper with (v := dval (Zpos (mx * my)) (ex + ey)).
  - lia.
  - eapply mul_aligned; eassumption.
  - lia.
  - apply Qle_refl.
  - intros H; now contradiction H.
  - lia.
  - rewrite Pos2Z.inj_mul, dval_mul.
    pose proof (dval_pos (Zpos my) ey ltac:(lia)). nra.
Qed.

Lemma SFmul_sign (x y : spec_float) (sx sy : bool) :
  valid_binary prec emax x = true -> valid_binary prec emax y = true ->
  float_sign_is sx x -> float_sign_is sy y ->
  SFmul prec emax x y = S754_nan \/
  float_sign_is (xorb sx sy) (SFmul prec emax x y).
Proof.
  intros Vx Vy Hx Hy.
  destruct x as [s1 | s1 | | s1 mx ex], y as [s2 | s2 | | s2 my ey];
    cbn in Hx, Hy; try contradiction; subst; try (now left); try (now right).
  right. rewrite SFmul_finite. apply binary_round_aux_sign; [lia |].
  eapply mul_aligned; eassumption.
Qed.

(** ** Division *)

Lemma fexp_mono (a b : Z) : a <= b -> fexp prec emax a <= fexp prec emax b.
Proof. intros H. rewrite !fexp_eq. lia. Qed.

(** The quotient and remainder [SFdiv] hands to the rounding. *)
Lemma SFdiv_core_binary_spec (mx my : positive) (ex ey : Z) :
  exists q e' l,
    SFdiv_core_binary prec emax (Zpos mx) ex (Zpos my) ey = (q, e', l) /\
    0 <= q /\ e' <= fexp prec emax (Zdigits2 q + e') /\
    (dval q e' * dval (Zpos my) ey <= dval (Zpos mx) ex)%Q /\
    (dval (Zpos mx) ex < dval (q + 1) e' * dval (Zpos my) ey)%Q /\
    (l <> loc_Exact -> (dval q e' * dval (Zpos my) ey < dval (Zpos mx) ex)%Q).
Proof.
  unfold SFdiv_core_binary.
  set (d1 := Zdigits2 (Zpos mx)). set (d2 := Zdigits2 (Zpos my)).
  set (e' := Z.min (fexp prec emax (d1 + ex - (d2 + ey))) (ex - ey)).
  set (s := ex - ey - e').
  assert (Hs : 0 <= s) by (subst s e'; lia).
  set (m' := match s with Zpos _ => Z.shiftl (Zpos mx) s | Z0 => Zpos mx | Zneg _ => 0 end).
  assert (Hm' : m' = Zpos mx * 2 ^ s).
  { subst m'. clearbody s. destruct s; try lia.
    rewrite Z.shiftl_mul_pow2 by lia. reflexivity. }
  pose proof (Z_div_mod m' (Zpos my) ltac:(lia)) as DM.
  destruct (Z.div_eucl m' (Zpos my)) as [q r] eqn:Ediv.
  destruct DM as [Dq Dr].
  assert (P : 0 < 2 ^ s) by (apply Z.pow_pos_nonneg; lia).
  assert (Hq : 0 <= q) by nia.
  exists q, e', (new_location (Zpos my) r).
  split; [reflexivity |]. split; [exact Hq |].
  (* values, at the exponent [e' + ey] *)
  assert (Hval : forall a : Z,
            (dval a e' * dval (Zpos my) ey == dval (a * Zpos my) (e' + ey))%Q).
  { intros a. now rewrite dval_mul. }
  assert (Hx : (dval (Zpos mx) ex == dval m' (e' + ey))%Q).
  { rewrite Hm'. rewrite dval_shift by exact Hs.
    replace (e' + ey + s) with ex by (subst s; lia). reflexivity. }
  split; [| split; [| split]].
  - (* the rounding is not finer than the format *)
    eapply Z.le_trans; [apply Z.le_min_l |]. fold e'. apply fexp_mono.
    pose proof (Zdigits2_bounds (Zpos mx) ltac:(lia)) as [A1 A2].
    pose proof (Zdigits2_bounds (Zpos my) ltac:(lia)) as [B1 B2].
    pose proof (Zdigits2_pos (Zpos mx) ltac:(lia)).
    pose proof (Zdigits2_pos (Zpos my) ltac:(lia)).
    fold d1 in A1, A2, H. fold d2 in B1, B2, H0.
    pose proof (Zdigits2_nonneg q).
    destruct (Z_lt_le_dec (d1 + s - d2) 1) as [L | L]; [subst s; lia |].
    assert (d1 + s - d2 <= Zdigits2 q); [| subst s; lia].
    apply Zdigits2_ge; [| lia].
    (* 2^(d1+s-d2-1) * my <= 2^(d1-1+s) <= m' < (q+1) * my *)
    assert (E1 : 2 ^ (d1 + s - d2 - 1) * 2 ^ d2 = 2 ^ (d1 - 1) * 2 ^ s).
    { rewrite <- !Z.pow_add_r by lia. f_equal. lia. }
    assert (0 < 2 ^ (d1 + s - d2 - 1)) by (apply Z.pow_pos_nonneg; lia).
    assert (2 ^ (d1 + s - d2 - 1) * Zpos my < (q + 1) * Zpos my) by nia.
    assert (2 ^ (d1 + s - d2 - 1) < q + 1) by nia. lia.
  - rewrite Hval, Hx. apply dval_le. nia.
  - rewrite Hval, Hx. apply dval_lt. nia.
  - intros Hl. rewrite Hval, Hx. apply dval_lt.
    assert (r <> 0); [| nia].
    intros ->. apply Hl. unfold new_location, new_location_even, new_location_odd.
    destruct (Z.even (Zpos my)); reflexivity.
Qed.

Lemma SFdiv_finite (sx sy : bool) (mx my : positive) (ex ey : Z) :
  SFdiv prec emax (S754_finite sx mx ex) (S754_finite sy my ey) =
  let '(mz, ez, lz) := SFdiv_core_binary prec emax (Zpos mx) ex (Zpos my) ey in
  binary_round_aux prec emax (xorb sx sy) mz ez lz.
Proof. reflexivity. Qed.

(** The quotient of two finite numbers, of any mantissa size: it is a valid
    float or an infinity, of the sign of the exact quotient. *)
Lemma SFdiv_valid (sx sy : bool) (mx my : positive) (ex ey : Z) :
  valid_binary prec emax
    (SFdiv prec emax (S754_finite sx mx ex) (S754_finite sy my ey)) = true /\
  float_sign_is (xorb sx sy)
    (SFdiv prec emax (S754_finite sx mx ex) (S754_finite sy my ey)).
Proof.
  rewrite SFdiv_finite.
  destruct (SFdiv_core_binary_spec mx my ex ey) as (q & e' & l & -> & Hq & Hn & _).
  split; [apply binary_round_aux_valid | apply binary_round_aux_sign]; assumption.
Qed.

Section DivisionBounds.

Variables (sx sy : bool) (mx my : positive) (ex ey t k : Z).
Hypothesis Ht : 0 < t < 2 ^ prec.

(** [T <= |x| / |y|] gives [T <= |x / y|]. *)
Lemma SFdiv_lower :
  -1074 <= k ->
  (dval t k * dval (Zpos my) ey <= dval (Zpos mx) ex)%Q ->
  mag_ge (SFdiv prec emax (S754_finite sx mx ex) (S754_finite sy my ey)) (dval t k).
Proof.
  intros Hk HT. rewrite SFdiv_finite.
  destruct (SFdiv_core_binary_spec mx my ex ey)
    as (q & e' & l & -> & Hq & Hn & Hlo & Hhi & Hstrict).
  pose proof (dval_pos (Zpos my) ey ltac:(lia)) as Py.
  apply binary_round_aux_lower
    with (v := (dval (Zpos mx) ex / dval (Zpos my) ey)%Q); try assumption.
  - apply Qlt_shift_div_r; assumption.
  - apply Qle_shift_div_l; assumption.
Qed.

(** [|x| / |y| <= T] gives [|x / y| <= T]. *)
Lemma SFdiv_upper :
  -1074 <= k <= emax - prec ->
  (dval (Zpos mx) ex <= dval t k * dval (Zpos my) ey)%Q ->
  mag_le (SFdiv prec emax (S754_finite sx mx ex) (S754_finite sy my ey)) (dval t k).
Proof.
  intros Hk HT. rewrite SFdiv_finite.
  destruct (SFdiv_core_binary_spec mx my ex ey)
    as (q & e' & l & -> & Hq & Hn & Hlo & Hhi & Hstrict).
  pose proof (dval_pos (Zpos my) ey ltac:(lia)) as Py.
  apply binary_round_aux_upper
    with (v := (dval (Zpos mx) ex / dval (Zpos my) ey)%Q); try assumption.
  - apply Qle_shift_div_l; assumption.
  - intros Hl. apply Qlt_shift_div_l; [assumption | auto].
  - apply Qle_shift_div_r; assumption.
Qed.

End DivisionBounds.

(** ** Conversion of an [int] *)

Lemma iter_xO (m d : positive) : Zpos (Pos.iter xO m d) = Zpos m * 2 ^ Zpos d.
Proof.
  induction d as [| d IH] using Pos.peano_ind.
  - cbn [Pos.iter]. rewrite Pos2Z.inj_xO. change (2 ^ 1) with 2. lia.
  - rewrite Pos.iter_succ, Pos2Z.inj_xO, IH, Pos2Z.inj_succ, Z.pow_succ_r by lia. lia.
Qed.

Lemma Zdigits2_mul_pow2 (m j : Z) :
  0 < m -> 0 <= j -> Zdigits2 (m * 2 ^ j) = Zdigits2 m + j.
Proof.
  intros Hm Hj. pose proof (Zdigits2_bounds m Hm) as [B1 B2].
  pose proof (Zdigits2_pos m Hm).
  assert (0 < 2 ^ j) by (apply Z.pow_pos_nonneg; lia).
  apply Zdigits2_unique; [| lia]. split.
  - replace (Zdigits2 m + j - 1) with ((Zdigits2 m - 1) + j) by lia.
    rewrite Z.pow_add_r by lia. nia.
  - rewrite Z.pow_add_r by lia. nia.
Qed.

Lemma shl_align_spec (mx : positive) (ex ex' : Z) :
  let '(mz, ez) := shl_align mx ex ex' in
  ez = Z.min ex ex' /\ Zpos mz = Zpos mx * 2 ^ (ex - ez).
Proof.
  unfold shl_align. destruct (ex' - ex) as [| d | d] eqn:E.
  - split; [lia |]. replace (ex - ex) with 0 by lia. rewrite Z.pow_0_r. lia.
  - split; [lia |]. replace (ex - ex) with 0 by lia. rewrite Z.pow_0_r. lia.
  - split; [lia |]. rewrite iter_xO. f_equal. f_equal. lia.
Qed.

(** [binary_round] hands to the rounding a mantissa of the same value that is
    not finer than the format. *)
Lemma binary_round_unfold (sx : bool) (mx : positive) (ex : Z) :
  exists mz ez,
    binary_round prec emax sx mx ex = binary_round_aux prec emax sx (Zpos mz) ez loc_Exact /\
    (dval (Zpos mz) ez == dval (Zpos mx) ex)%Q /\
    ez <= fexp prec emax (Zdigits2 (Zpos mz) + ez).
Proof.
  unfold binary_round.
  pose proof (shl_align_spec mx ex (fexp prec emax (Zpos (digits2_pos mx) + ex))) as S.
  destruct (shl_align mx ex (fexp prec emax (Zpos (digits2_pos mx) + ex))) as [mz ez].
  destruct S as [S1 S2]. exists mz, ez. split; [reflexivity |].
  assert (Hez : ez <= ex) by lia.
  split.
  - rewrite S2. rewrite dval_shift by lia. replace (ez + (ex - ez)) with ex by lia.
    reflexivity.
  - rewrite S2, Zdigits2_mul_pow2 by lia.
    replace (Zdigits2 (Zpos mx) + (ex - ez) + ez) with (Zpos (digits2_pos mx) + ex)
      by (cbn [Zdigits2]; lia).
    lia.
Qed.

Lemma binary_round_facts (sx : bool) (mx : positive) (ex : Z) :
  valid_binary prec emax (binary_round prec emax sx mx ex) = true /\
  float_sign_is sx (binary_round prec emax sx mx ex) /\
  (forall t k, 0 < t < 2 ^ prec -> -1074 <= k ->
     (dval t k <= dval (Zpos mx) ex)%Q ->
     mag_ge (binary_round prec emax sx mx ex) (dval t k)) /\
  (forall t k, 0 < t < 2 ^ prec -> -1074 <= k <= emax - prec ->
     (dval (Zpos mx) ex <= dval t k)%Q ->
     mag_le (binary_round prec emax sx mx ex) (dval t k)).
Proof.
  destruct (binary_round_unfold sx mx ex) as (mz & ez & -> & Hv & Hn).
  repeat apply conj.
  - apply binary_round_aux_valid; [lia | exact Hn].
  - apply binary_round_aux_sign; [lia | exact Hn].
  - intros t k Ht Hk HT.
    apply binary_round_aux_lower with (v := dval (Zpos mz) ez); try assumption; try lia.
    + apply dval_succ_lt.
    + now rewrite Hv.
  - intros t k Ht Hk HT.
    apply binary_round_aux_upper with (v := dval (Zpos mz) ez); try assumption; try lia.
    + apply Qle_refl.
    + intros H; now contradiction H.
    + now rewrite Hv.
Qed.

Lemma dval_0 (m : Z) : (dval m 0 == inject_Z m)%Q.
Proof. unfold dval. change (2 ^ 0)%Q with 1%Q. ring. Qed.

(** A positive [int] that converts is a valid positive float, at least 1. *)
Lemma float_of_int_ok (w : Z) (wf : spec_float) :
  1 <= w -> float_of_int w = Ok wf ->
  exists m e, wf = S754_finite false m e /\
              valid_binary prec emax wf = true /\ (1 <= dval (Zpos m) e)%Q.
Proof.
  intros Hw. unfold float_of_int. destruct w as [| p | p]; try lia.
  cbn [binary_normalize].
  destruct (binary_round_facts false p 0) as (V & S & Lo & _).
  specialize (Lo 1 0 ltac:(unfold prec; lia) ltac:(lia) ltac:(apply dval_le; lia)).
  destruct (binary_round prec emax false p 0) as [s | s | | s m e];
    cbn in Lo, S; try contradiction; try discriminate.
  intros [= <-]. subst s. exists m, e. repeat split; [exact V |].
  now rewrite <- dval_1.
Qed.

(** Up to [2^53] the conversion is exact. *)
Lemma float_of_int_exact (w : Z) :
  1 <= w <= 2 ^ 53 ->
  exists m e, float_of_int w = Ok (S754_finite false m e) /\
              valid_binary prec emax (S754_finite false m e) = true /\
              (dval (Zpos m) e == inject_Z w)%Q.
Proof.
  intros Hw. unfold float_of_int. destruct w as [| p | p]; try lia.
  cbn [binary_normalize].
  destruct (binary_round_facts false p 0) as (V & S & Lo & Up).
  assert (HT : exists t k, 0 < t < 2 ^ prec /\ -1074 <= k <= emax - prec /\
                           (dval t k == dval (Zpos p) 0)%Q).
  { destruct (Z.eq_dec (Zpos p) (2 ^ 53)) as [E | NE].
    - exists (2 ^ 52), 1. repeat split; try (unfold prec, emax; lia).
      rewrite E. reflexivity.
    - exists (Zpos p), 0. repeat split; try (unfold prec, emax; lia). }
  destruct HT as (t & k & Ht & Hk & E).
  specialize (Lo t k Ht ltac:(lia) ltac:(rewrite E; apply Qle_refl)).
  specialize (Up t k Ht Hk ltac:(rewrite E; apply Qle_refl)).
  destruct (binary_round prec emax false p 0) as [s | s | | s m e];
    cbn in Lo, Up, S; try contradiction.
  subst s. exists m, e. repeat split; [exact V |].
  rewrite E, dval_0 in Lo, Up. apply Qle_antisym; assumption.
Qed.

(** ** Rounding to an [int] *)

Lemma round_half_even_floor (m e : Z) :
  0 <= m -> e < 0 -> m / 2 ^ (- e) <= round_half_even m e.
Proof.
  intros Hm He. unfold round_half_even.
  destruct (Z.leb_spec 0 e); [lia |].
  destruct (Z.compare _ _); [destruct (Z.even _) | |]; lia.
Qed.

Lemma round_half_even_nonneg (m e : Z) : 0 <= m -> 0 <= round_half_even m e.
Proof.
  intros Hm. unfold round_half_even. destruct (Z.leb_spec 0 e) as [L | L].
  - apply Z.mul_nonneg_nonneg; [exact Hm | apply Z.pow_nonneg; lia].
  - pose proof (round_half_even_floor m e Hm L) as F.
    unfold round_half_even in F. destruct (Z.leb_spec 0 e); [lia |].
    assert (0 <= m / 2 ^ (- e)) by (apply Z.div_pos; [lia | apply Z.pow_pos_nonneg; lia]).
    lia.
Qed.

Lemma round_half_even_ge (m e w : Z) :
  0 <= m -> (inject_Z w <= dval m e)%Q -> w <= round_half_even m e.
Proof.
  intros Hm H. destruct (Z_le_gt_dec 0 e) as [L | G].
  - unfold round_half_even. destruct (Z.leb_spec 0 e); [| lia].
    rewrite (dval_align m e 0) in H by lia. rewrite dval_0, <- Zle_Qle in H.
    replace (e - 0) with e in H by lia. exact H.
  - eapply Z.le_trans; [| apply round_half_even_floor; lia].
    apply Z.div_le_lower_bound; [apply Z.pow_pos_nonneg; lia |].
    rewrite <- dval_0, (dval_align w 0 e) in H by lia.
    apply dval_le in H. replace (0 - e) with (- e) in H by lia. lia.
Qed.

(** ** Comparisons *)

Lemma dyadic_compare_le (m1 e1 m2 e2 : Z) :
  dyadic_compare m1 e1 m2 e2 <> Gt <-> (dval m1 e1 <= dval m2 e2)%Q.
Proof.
  unfold dyadic_compare. set (e := Z.min e1 e2).
  rewrite (dval_align m1 e1 e), (dval_align m2 e2 e) by (subst e; lia).
  rewrite dval_le. apply Z.compare_le_iff.
Qed.

Lemma dyadic_compare_lt (m1 e1 m2 e2 : Z) :
  dyadic_compare m1 e1 m2 e2 = Lt <-> (dval m1 e1 < dval m2 e2)%Q.
Proof.
  unfold dyadic_compare. set (e := Z.min e1 e2).
  rewrite (dval_align m1 e1 e), (dval_align m2 e2 e) by (subst e; lia).
  rewrite dval_lt. apply Z.compare_lt_iff.
Qed.

Lemma dyadic_compare_antisym (m1 e1 m2 e2 : Z) :
  dyadic_compare m2 e2 m1 e1 = CompOpp (dyadic_compare m1 e1 m2 e2).
Proof.
  unfold dyadic_compare. rewrite (Z.min_comm e2 e1). apply Z.compare_antisym.
Qed.

Lemma dval_signed_neg (m : positive) (e : Z) : (dval (signed true m) e < 0)%Q.
Proof.
  assert (H : (dval (Zneg m) e < dval 0 e)%Q) by (apply dval_lt; lia).
  assert (Hz : (dval 0 e == 0)%Q) by (unfold dval; ring).
  unfold signed. lra.
Qed.

(** ** Comparing a percentage with an [int] *)

Lemma py_compare_int (a b : Z) : py_compare (PyInt a) (PyInt b) = Some (a ?= b).
Proof.
  unfold py_compare, ereal_of, ereal_compare, dyadic_compare.
  rewrite Z.min_id, Z.sub_diag, Z.pow_0_r, !Z.mul_1_r. reflexivity.
Qed.

Lemma py_ge_int (a b : Z) : py_ge (PyInt a) (PyInt b) = (b <=? a).
Proof.
  unfold py_ge. rewrite py_compare_int.
  destruct (Z.compare_spec a b); destruct (Z.leb_spec b a); try reflexivity; lia.
Qed.

Lemma py_le_int (a b : Z) : py_le (PyInt a) (PyInt b) = (a <=? b).
Proof.
  unfold py_le. rewrite py_compare_int.
  destruct (Z.compare_spec a b); destruct (Z.leb_spec a b); try reflexivity; lia.
Qed.

Lemma py_lt_int (a b : Z) : py_lt (PyInt a) (PyInt b) = (a <? b).
Proof.
  unfold py_lt. rewrite py_compare_int.
  destruct (Z.compare_spec a b); destruct (Z.ltb_spec a b); try reflexivity; lia.
Qed.

Lemma py_gt_int (a b : Z) : py_gt (PyInt a) (PyInt b) = (b <? a).
Proof.
  unfold py_gt. rewrite py_compare_int.
  destruct (Z.compare_spec a b); destruct (Z.ltb_spec b a); try reflexivity; lia.
Qed.

Lemma py_compare_finite (s : bool) (m : positive) (e c : Z) :
  py_compare (PyFloat (S754_finite s m e)) (PyInt c)
  = Some (dyadic_compare (signed s m) e c 0).
Proof. reflexivity. Qed.

Lemma py_ge_finite (s : bool) (m : positive) (e c : Z) :
  py_ge (PyFloat (S754_finite s m e)) (PyInt c) = true <->
  (inject_Z c <= dval (signed s m) e)%Q.
Proof.
  unfold py_ge. rewrite py_compare_finite, <- dval_0, <- dyadic_compare_le.
  rewrite (dyadic_compare_antisym (signed s m) e c 0).
  destruct (dyadic_compare (signed s m) e c 0); simpl; split; intros H;
    congruence.
Qed.

Lemma py_le_finite (s : bool) (m : positive) (e c : Z) :
  py_le (PyFloat (S754_finite s m e)) (PyInt c) = true <->
  (dval (signed s m) e <= inject_Z c)%Q.
Proof.
  unfold py_le. rewrite py_compare_finite, <- dval_0, <- dyadic_compare_le.
  destruct (dyadic_compare (signed s m) e c 0); simpl; split; intros H;
    congruence.
Qed.

Lemma py_lt_finite (s : bool) (m : positive) (e c : Z) :
  py_lt (PyFloat (S754_finite s m e)) (PyInt c) = true <->
  (dval (signed s m) e < inject_Z c)%Q.
Proof.
  unfold py_lt. rewrite py_compare_finite, <- dval_0, <- dyadic_compare_lt.
  destruct (dyadic_compare (signed s m) e c 0); simpl; split; intros H;
    congruence.
Qed.

Lemma py_gt_finite (s : bool) (m : positive) (e c : Z) :
  py_gt (PyFloat (S754_finite s m e)) (PyInt c) = true <->
  (inject_Z c < dval (signed s m) e)%Q.
Proof.
  unfold py_gt. rewrite py_compare_finite, <- dval_0, <- dyadic_compare_lt.
  rewrite (dyadic_compare_antisym (signed s m) e c 0).
  destruct (dyadic_compare (signed s m) e c 0); simpl; split; intros H;
    congruence.
Qed.

(** ** The fraction [pct / 100] *)

Lemma f100_value : (dval 7036874417766400 (-46) == 100)%Q.
Proof. reflexivity. Qed.

Lemma py_truediv_float_100 (f : spec_float) :
  py_truediv (PyFloat f) (PyInt 100) = Ok (PyFloat (SFdiv prec emax f f100)).
Proof. reflexivity. Qed.

Lemma py_truediv_int_100 (p : positive) (s : bool) :
  py_truediv (PyInt (signed s p)) (PyInt 100) =
  match SFdiv prec emax (S754_finite s p 0) (S754_finite false 100 0) with
  | S754_infinity _ => Raise OverflowError
  | f => Ok (PyFloat f)
  end.
Proof.
  destruct s; cbn [py_truediv signed int_truediv int_mantissa Z.eqb];
    destruct (SFdiv _ _ _ _); reflexivity.
Qed.

(** A percentage of at least 100 gives a fraction of at least 1. *)
Lemma fraction_hi (pct : pynum) :
  py_ge pct (PyInt 100) = true ->
  py_truediv pct (PyInt 100) = Raise OverflowError \/
  exists x, py_truediv pct (PyInt 100) = Ok (PyFloat x) /\
            valid_binary prec emax x = true /\ mag_ge x 1 /\
            float_sign_is false x.
Proof.
  intros H. destruct pct as [z | f].
  - rewrite py_ge_int in H. apply Z.leb_le in H.
    destruct z as [| p | p]; try lia.
    change (Zpos p) with (signed false p). rewrite py_truediv_int_100.
    destruct (SFdiv_valid false false p 100 0 0) as [V S].
    assert (L : mag_ge (SFdiv prec emax (S754_finite false p 0) (S754_finite false 100 0))
                       (dval 1 0)).
    { apply SFdiv_lower; [unfold prec; lia | lia |].
      rewrite !dval_0, <- inject_Z_mult, <- Zle_Qle. lia. }
    destruct (SFdiv _ _ _ _) as [s | s | | s m e] eqn:E; cbn in L, S;
      try contradiction; [now left |].
    right. eexists. repeat split; eauto.
  - rewrite py_truediv_float_100. right.
    destruct f as [s | s | | s m e]; try discriminate.
    + destruct s; [discriminate |].
      exists (S754_infinity false). repeat split.
    + apply py_ge_finite in H.
      destruct s.
      { pose proof (dval_signed_neg m e). change (inject_Z 100) with 100%Q in H. lra. }
      destruct (SFdiv_valid false false m 7036874417766400 e (-46)) as [V S].
      eexists. split; [reflexivity |]. split; [exact V |]. split; [| exact S].
      change 1%Q with (dval 1 0). apply SFdiv_lower; [unfold prec; lia | lia |].
      rewrite dval_1, f100_value. cbn [signed] in H.
      change (inject_Z 100) with 100%Q in H. lra.
Qed.

(** A percentage between 0 and 100 gives a finite fraction of at most 1. *)
Lemma fraction_unit (pct : pynum) :
  py_ge pct (PyInt 0) = true -> py_le pct (PyInt 100) = true ->
  exists x, py_truediv pct (PyInt 100) = Ok (PyFloat x) /\
            valid_binary prec emax x = true /\ mag_le x 1.
Proof.
  intros H0 H. destruct pct as [z | f].
  - rewrite py_ge_int in H0. rewrite py_le_int in H.
    apply Z.leb_le in H0, H.
    destruct z as [| p | p]; try lia.
    + exists (S754_zero false). repeat split.
    + change (Zpos p) with (signed false p). rewrite py_truediv_int_100.
      destruct (SFdiv_valid false false p 100 0 0) as [V S].
      assert (L : mag_le (SFdiv prec emax (S754_finite false p 0) (S754_finite false 100 0))
                         (dval 1 0)).
      { apply SFdiv_upper; [unfold prec; lia | unfold emax, prec; lia |].
        rewrite !dval_0, <- inject_Z_mult, <- Zle_Qle. lia. }
      destruct (SFdiv _ _ _ _) as [s | s | | s m e] eqn:E; cbn in L;
        try contradiction; eexists; repeat split; eauto.
  - rewrite py_truediv_float_100.
    destruct f as [s | s | | s m e]; try discriminate.
    + exists (S754_zero (xorb s false)). repeat split.
    + destruct s; discriminate.
    + apply py_ge_finite in H0. apply py_le_finite in H.
      destruct s.
      { pose proof (dval_signed_neg m e). change (inject_Z 0) with 0%Q in H0. lra. }
      destruct (SFdiv_valid false false m 7036874417766400 e (-46)) as [V S].
      eexists. split; [reflexivity |]. split; [exact V |].
      change 1%Q with (dval 1 0). apply SFdiv_upper; [unfold prec; lia | unfold emax, prec; lia |].
      rewrite dval_1, f100_value. cbn [signed] in H.
      change (inject_Z 100) with 100%Q in H. lra.
Qed.

(** A negative percentage gives a fraction with the sign bit set. *)
Lemma fraction_neg (pct : pynum) :
  py_lt pct (PyInt 0) = true ->
  py_truediv pct (PyInt 100) = Raise OverflowError \/
  exists x, py_truediv pct (PyInt 100) = Ok (PyFloat x) /\
            valid_binary prec emax x = true /\ float_sign_is true x.
Proof.
  intros H. destruct pct as [z | f].
  - rewrite py_lt_int in H. apply Z.ltb_lt in H.
    destruct z as [| p | p]; try lia.
    change (Zneg p) with (signed true p). rewrite py_truediv_int_100.
    destruct (SFdiv_valid true false p 100 0 0) as [V S].
    destruct (SFdiv _ _ _ _) as [s | s | | s m e] eqn:E; cbn in S;
      try contradiction; [right | now left | right]; eexists; repeat split; eauto.
  - rewrite py_truediv_float_100. right.
    destruct f as [s | s | | s m e]; try discriminate.
    + destruct s; [| discriminate].
      exists (S754_infinity true). repeat split.
    + apply py_lt_finite in H.
      destruct s.
      * destruct (SFdiv_valid true false m 7036874417766400 e (-46)) as [V S].
        eexists. split; [reflexivity |]. split; [exact V | exact S].
      * pose proof (dval_pos (Zpos m) e ltac:(lia)). cbn [signed] in H.
        change (inject_Z 0) with 0%Q in H. lra.
Qed.

(** ** The scaled fraction [pct / 100 * width] and its rounding *)

Lemma py_mul_float_int (x : spec_float) (w : Z) (wf : spec_float) :
  float_of_int w = Ok wf ->
  py_mul (PyFloat x) (PyInt w) = Ok (PyFloat (SFmul prec emax x wf)).
Proof. intros H. cbn [py_mul]. now rewrite H. Qed.

Lemma scale_hi (x : spec_float) (w : Z) :
  1 <= w <= 2 ^ 53 ->
  valid_binary prec emax x = true -> mag_ge x 1 -> float_sign_is false x ->
  exists y, py_mul (PyFloat x) (PyInt w) = Ok (PyFloat y) /\
            (py_round (PyFloat y) = Raise OverflowError \/
             exists r, py_round (PyFloat y) = Ok r /\ w <= r).
Proof.
  intros Hw Vx Gx Sx.
  destruct (float_of_int_exact w Hw) as (m & e & Hf & V & E).
  rewrite (py_mul_float_int x w _ Hf). eexists. split; [reflexivity |].
  pose proof (SFmul_lower x false m e Vx V Gx) as L.
  destruct (SFmul_sign x (S754_finite false m e) false false Vx V Sx eq_refl) as [N | S].
  { rewrite N in L. contradiction. }
  destruct (SFmul prec emax x (S754_finite false m e)) as [s | s | | s m' e'];
    cbn in L, S; try contradiction; [now left |].
  subst s. right. eexists. split; [reflexivity |].
  apply round_half_even_ge; [lia |]. now rewrite <- E.
Qed.

Lemma scale_neg (x : spec_float) (w : Z) :
  1 <= w <= 2 ^ 53 ->
  valid_binary prec emax x = true -> float_sign_is true x ->
  exists y, py_mul (PyFloat x) (PyInt w) = Ok (PyFloat y) /\
            (py_round (PyFloat y) = Raise OverflowError \/
             exists r, py_round (PyFloat y) = Ok r /\ r <= 0).
Proof.
  intros Hw Vx Sx.
  destruct (float_of_int_exact w Hw) as (m & e & Hf & V & E).
  rewrite (py_mul_float_int x w _ Hf). eexists. split; [reflexivity |].
  destruct x as [s | s | | s mx ex]; cbn in Sx; try contradiction; subst s.
  - right. exists 0. split; [reflexivity | lia].
  - now left.
  - rewrite SFmul_finite.
    pose proof (binary_round_aux_sign (xorb true false) (Zpos (mx * m)) (ex + e) loc_Exact
                  ltac:(lia) (mul_aligned _ _ _ _ _ _ Vx V)) as S.
    destruct (binary_round_aux _ _ _ _ _ _) as [s | s | | s m' e'];
      cbn in S; try contradiction.
    + right. exists 0. split; [reflexivity | lia].
    + now left.
    + subst s. right. eexists. split; [reflexivity |]. cbn.
      pose proof (round_half_even_nonneg (Zpos m') e' ltac:(lia)). lia.
Qed.

Lemma scale_unit (x : spec_float) (w : Z) (wf : spec_float) :
  1 <= w -> float_of_int w = Ok wf ->
  valid_binary prec emax x = true -> mag_le x 1 ->
  exists y r, py_mul (PyFloat x) (PyInt w) = Ok (PyFloat y) /\
              py_round (PyFloat y) = Ok r.
Proof.
  intros Hw Hf Vx Lx.
  destruct (float_of_int_ok w wf Hw Hf) as (m & e & -> & V & _).
  rewrite (py_mul_float_int x w _ Hf).
  pose proof (SFmul_upper x false m e Vx V Lx) as U.
  destruct (SFmul prec emax x (S754_finite false m e)) as [s | s | | s m' e'];
    cbn in U; try contradiction; eexists _, _; split; reflexivity.
Qed.

(** ** The number of filled cells *)

Lemma bar_fill_unit (pct : pynum) (w : Z) :
  py_ge pct (PyInt 0) = true -> py_le pct (PyInt 100) = true ->
  1 <= w -> is_ok (float_of_int w) = true ->
  exists r,
    Res.bind (py_truediv pct (PyInt 100)) (fun x =>
      Res.bind (py_mul x (PyInt w)) py_round) = Ok r /\
    bar_fill pct w = Ok (Z.max 0 (Z.min w r)).
Proof.
  intros H0 H100 Hw Hf.
  destruct (float_of_int w) as [wf |] eqn:Ef; [| discriminate].
  destruct (fraction_unit pct H0 H100) as (x & Ex & Vx & Lx).
  destruct (scale_unit x w wf Hw Ef Vx Lx) as (y & r & Ey & Er).
  exists r. unfold bar_fill. rewrite Ex. cbn [Res.bind]. rewrite Ey. cbn [Res.bind].
  rewrite Er. split; reflexivity.
Qed.

Lemma bar_fill_hi (pct : pynum) (w : Z) :
  py_ge pct (PyInt 100) = true -> 1 <= w <= 2 ^ 53 ->
  bar_fill pct w = Raise OverflowError \/ bar_fill pct w = Ok w.
Proof.
  intros H Hw. unfold bar_fill.
  destruct (fraction_hi pct H) as [-> | (x & -> & Vx & Gx & Sx)]; [now left |].
  cbn [Res.bind].
  destruct (scale_hi x w Hw Vx Gx Sx) as (y & -> & Hy). cbn [Res.bind].
  destruct Hy as [-> | (r & -> & Hr)]; cbn [Res.bind]; [now left | right].
  f_equal. lia.
Qed.

Lemma bar_fill_neg (pct : pynum) (w : Z) :
  py_lt pct (PyInt 0) = true -> 1 <= w <= 2 ^ 53 ->
  bar_fill pct w = Raise OverflowError \/ bar_fill pct w = Ok 0.
Proof.
  intros H Hw. unfold bar_fill.
  destruct (fraction_neg pct H) as [-> | (x & -> & Vx & Sx)]; [now left |].
  cbn [Res.bind].
  destruct (scale_neg x w Hw Vx Sx) as (y & -> & Hy). cbn [Res.bind].
  destruct Hy as [-> | (r & -> & Hr)]; cbn [Res.bind]; [now left | right].
  f_equal. lia.
Qed.

Lemma float_of_int_small_ok (w : Z) : 1 <= w <= 2 ^ 53 -> is_ok (float_of_int w) = true.
Proof. intros H. destruct (float_of_int_exact w H) as (m & e & -> & _). reflexivity. Qed.

Lemma bar_fill_100 (w : Z) : 1 <= w <= 2 ^ 53 -> bar_fill (PyInt 100) w = Ok w.
Proof.
  intros Hw.
  destruct (bar_fill_unit (PyInt 100) w eq_refl eq_refl ltac:(lia)
              (float_of_int_small_ok w Hw)) as (r & _ & E).
  destruct (bar_fill_hi (PyInt 100) w eq_refl Hw) as [E' | E']; [congruence | exact E'].
Qed.

Lemma bar_fill_0 (w : Z) : 1 <= w <= 2 ^ 53 -> bar_fill (PyInt 0) w = Ok 0.
Proof.
  intros Hw. destruct (float_of_int_exact w Hw) as (m & e & Hf & _).
  unfold bar_fill.
  change (py_truediv (PyInt 0) (PyInt 100)) with (Ok (PyFloat (S754_zero false))).
  cbn [Res.bind]. rewrite (py_mul_float_int _ w _ Hf). cbn. f_equal. lia.
Qed.

(** ** The rendered bar *)

Lemma py_getitem_palette (i : Z) :
  0 <= i < 10 ->
  py_getitem RAINBOW_COLORS_0 i = Ok (nth (Z.to_nat i) RAINBOW_COLORS_0 "").
Proof.
  intros H. unfold py_getitem.
  change (Z.of_nat (length RAINBOW_COLORS_0)) with 10.
  destruct (Z.ltb_spec i 0); [lia |].
  destruct (Z.leb_spec 0 i); [| lia]. destruct (Z.ltb_spec i 10); [| lia].
  cbn [andb].
  rewrite (nth_error_nth' RAINBOW_COLORS_0 "");
    [reflexivity | change (length RAINBOW_COLORS_0) with 10%nat; lia].
Qed.

Lemma run_rainbow_color (off j : Z) :
  run (rainbow_color off j) = Ok (palette_color (j + off)).
Proof.
  unfold rainbow_color.
  rewrite run_bind by auto with reads.
  change (run (global RAINBOW_COLORS)) with (Ok RAINBOW_COLORS_0).
  cbn [Res.bind]. rewrite run_bind by auto with reads. rewrite run_lift.
  change (Z.of_nat (length RAINBOW_COLORS_0)) with 10.
  unfold py_mod. change (10 =? 0) with false. cbn [Res.bind]. rewrite run_lift.
  apply py_getitem_palette. apply Z.mod_pos_bound. lia.
Qed.

Lemma run_rainbow_loop (off : Z) (n : nat) : forall j parts,
  run (rainbow_loop off n j parts) = Ok (parts +:+ rainbow_cells off n j).
Proof.
  induction n as [| n IH]; intros j parts; cbn [rainbow_loop rainbow_cells].
  - now rewrite run_ret, append_nil_r.
  - rewrite run_bind by apply rainbow_step_reads_only.
    unfold rainbow_step. rewrite run_bind by apply rainbow_color_reads_only.
    rewrite run_rainbow_color. cbn [Res.bind]. rewrite run_ret. cbn [Res.bind].
    rewrite IH. now rewrite append_assoc.
Qed.

Lemma run_render_bar_html (pct : pynum) (theme : Theme) (w : Z) (rb : bool) (off : Z) :
  run (render_bar_html pct theme w rb off) =
  Res.bind (bar_fill pct w) (fun filled =>
    Ok (filled_region pct theme rb off filled +:+ empty_region (w - filled))).
Proof.
  unfold render_bar_html, bar_fill.
  rewrite run_bind by auto with reads. rewrite run_lift.
  destruct (py_truediv pct (PyInt 100)) as [x | e]; [| reflexivity].
  cbn [Res.bind]. rewrite run_bind by auto with reads. rewrite run_lift.
  destruct (py_mul x (PyInt w)) as [y | e]; [| reflexivity].
  cbn [Res.bind]. rewrite run_bind by auto with reads. rewrite run_lift.
  destruct (py_round y) as [r | e]; [| reflexivity].
  cbn [Res.bind]. rewrite run_bind by auto with reads.
  change (run (global DIM_COLOR)) with (Ok "#3a3a3a"). cbn [Res.bind].
  unfold filled_region, empty_region.
  destruct (rb && (0 <? Z.max 0 (Z.min w r))).
  - rewrite run_bind by auto with reads. rewrite run_rainbow_loop.
    cbn [Res.bind]. rewrite run_ret. reflexivity.
  - rewrite run_ret. reflexivity.
Qed.

(** ** Counting cells

    A cell is one glyph, three bytes of UTF-8 of which the last tells the
    heavy line (129) from the light one (128); in text that has no other
    byte of these two values, counting that byte counts the cells. *)

Lemma count_byte_app (c : ascii) (a b : string) :
  count_byte c (a +:+ b) = (count_byte c a + count_byte c b)%nat.
Proof.
  induction a as [| ch a IH]; [reflexivity |].
  rewrite append_cons. cbn [count_byte]. rewrite IH. lia.
Qed.

Lemma count_byte_repeat (c : ascii) (s : string) (n : nat) :
  count_byte c (str_repeat s n) = (n * count_byte c s)%nat.
Proof.
  induction n as [| n IH]; [reflexivity |].
  cbn [str_repeat]. rewrite count_byte_app, IH. lia.
Qed.

Lemma count_byte_span (c : ascii) (color text : string) :
  c = "129"%char \/ c = "128"%char ->
  count_byte c (span color text) = (count_byte c color + count_byte c text)%nat.
Proof.
  intros [-> | ->]; unfold span; rewrite !count_byte_app; cbn; lia.
Qed.

Lemma palette_color_glyph_free (i : Z) : glyph_free (palette_color i).
Proof.
  unfold palette_color.
  assert (H : (Z.to_nat (i mod 10) < 10)%nat).
  { pose proof (Z.mod_pos_bound i 10 ltac:(lia)). lia. }
  destruct (Z.to_nat (i mod 10)) as [|[|[|[|[|[|[|[|[|[|n]]]]]]]]]];
    try (split; reflexivity). lia.
Qed.

Lemma rainbow_cells_count (off : Z) (n : nat) : forall j,
  filled_cells (rainbow_cells off n j) = n /\ empty_cells (rainbow_cells off n j) = O.
Proof.
  unfold filled_cells, empty_cells.
  induction n as [| n IH]; intros j; [split; reflexivity |].
  cbn [rainbow_cells]. rewrite !count_byte_app, !count_byte_span by auto.
  destruct (palette_color_glyph_free (j + off)) as [-> ->].
  destruct (IH (j + 1)) as [-> ->]. split; reflexivity.
Qed.

Lemma bar_color_glyph_free (pct : pynum) (theme : Theme) :
  plain_theme theme -> glyph_free (bar_color pct theme).
Proof.
  intros (L & M & H). unfold bar_color.
  destruct (py_ge pct (PyInt 80)); [exact H |].
  destruct (py_ge pct (PyInt 50)); assumption.
Qed.


(** ** Order facts *)

Lemma py_order_dyadic (pct : pynum) (m e a : Z) :
  ereal_of pct = Dyadic m e ->
  (py_lt pct (PyInt a) = true <-> (dval m e < inject_Z a)%Q) /\
  (py_le pct (PyInt a) = true <-> (dval m e <= inject_Z a)%Q) /\
  (py_gt pct (PyInt a) = true <-> (inject_Z a < dval m e)%Q) /\
  (py_ge pct (PyInt a) = true <-> (inject_Z a <= dval m e)%Q).
Proof.
  intros E. unfold py_lt, py_le, py_gt, py_ge, py_compare. rewrite E.
  cbn [ereal_of ereal_compare].
  rewrite <- !dval_0, <- !dyadic_compare_lt, <- !dyadic_compare_le.
  rewrite (dyadic_compare_antisym m e a 0).
  destruct (dyadic_compare m e a 0); simpl; repeat split; intros; congruence.
Qed.

Lemma py_lt_weaken (pct : pynum) (a b : Z) :
  a <= b -> py_lt pct (PyInt a) = true -> py_lt pct (PyInt b) = true.
Proof.
  intros Hab. destruct (ereal_of pct) as [| | | m e] eqn:E.
  - unfold py_lt, py_compare. now rewrite E.
  - unfold py_lt, py_compare. now rewrite E.
  - unfold py_lt, py_compare. now rewrite E.
  - destruct (py_order_dyadic pct m e a E) as (La & _).
    destruct (py_order_dyadic pct m e b E) as (Lb & _).
    rewrite La, Lb. rewrite Zle_Qle in Hab. lra.
Qed.

Lemma py_ge_weaken (pct : pynum) (a b : Z) :
  b <= a -> py_ge pct (PyInt a) = true -> py_ge pct (PyInt b) = true.
Proof.
  intros Hab. destruct (ereal_of pct) as [| | | m e] eqn:E.
  - unfold py_ge, py_compare. now rewrite E.
  - unfold py_ge, py_compare. now rewrite E.
  - unfold py_ge, py_compare. now rewrite E.
  - destruct (py_order_dyadic pct m e a E) as (_ & _ & _ & Ga).
    destruct (py_order_dyadic pct m e b E) as (_ & _ & _ & Gb).
    rewrite Ga, Gb. rewrite Zle_Qle in Hab. lra.
Qed.

Lemma py_gt_ge (pct : pynum) (a : Z) :
  py_gt pct (PyInt a) = true -> py_ge pct (PyInt a) = true.
Proof.
  unfold py_gt, py_ge. destruct (py_compare pct (PyInt a)) as [[] |]; congruence.
Qed.

Lemma py_lt_not_ge (pct : pynum) (a : Z) :
  py_lt pct (PyInt a) = true -> py_ge pct (PyInt a) = false.
Proof.
  unfold py_lt, py_ge. destruct (py_compare pct (PyInt a)) as [[] |]; congruence.
Qed.

(** ** The tier of a percentage *)

Lemma bar_color_high (pct : pynum) (theme : Theme) :
  py_ge pct (PyInt 80) = true -> bar_color pct theme = high theme.
Proof. intros H. unfold bar_color. now rewrite H. Qed.

Lemma bar_color_mid (pct : pynum) (theme : Theme) :
  py_ge pct (PyInt 50) = true -> py_lt pct (PyInt 80) = true ->
  bar_color pct theme = mid theme.
Proof.
  intros H1 H2. unfold bar_color. now rewrite (py_lt_not_ge _ _ H2), H1.
Qed.

Lemma bar_color_low (pct : pynum) (theme : Theme) :
  py_lt pct (PyInt 50) = true -> bar_color pct theme = low theme.
Proof.
  intros H. unfold bar_color.
  rewrite (py_lt_not_ge _ _ (py_lt_weaken pct 50 80 ltac:(lia) H)).
  now rewrite (py_lt_not_ge _ _ H).
Qed.

(** C2.  The color of a tiered bar is a step function of the percentage
    with steps at 50 and 80: high from 80 up, mid from 50 up to 80 excluded,
    low below 50, for an [int] and for a [float] alike; so 49 is low, 50 and
    79 are mid, 80 is high.  The whole filled region of a tiered bar is one
    span of that color. *)
Theorem tier_color (pct : pynum) (theme : Theme) :
  (py_ge pct (PyInt 80) = true -> bar_color pct theme = high theme) /\
  (py_ge pct (PyInt 50) = true -> py_lt pct (PyInt 80) = true ->
     bar_color pct theme = mid theme) /\
  (py_lt pct (PyInt 50) = true -> bar_color pct theme = low theme) /\
  (forall z : Z,
     bar_color (PyInt z) theme =
       if 80 <=? z then high theme else if 50 <=? z then mid theme else low theme) /\
  bar_color (PyInt 49) theme = low theme /\
  bar_color (PyInt 50) theme = mid theme /\
  bar_color (PyInt 79) theme = mid theme /\
  bar_color (PyInt 80) theme = high theme /\
  (forall w off doc,
     run (render_bar_html pct theme w false off) = Ok doc ->
     exists filled,
       bar_fill pct w = Ok filled /\
       doc = span (bar_color pct theme) (py_str_mul HEAVY filled)
             +:+ span "#3a3a3a" (py_str_mul LIGHT (w - filled))).
Proof.
  repeat apply conj; try reflexivity.
  - apply bar_color_high.
  - apply bar_color_mid.
  - apply bar_color_low.
  - intros z. unfold bar_color. now rewrite !py_ge_int.
  - intros w off doc. rewrite run_render_bar_html.
    destruct (bar_fill pct w) as [filled | e]; [| discriminate].
    cbn [Res.bind]. intros [= <-]. exists filled. split; reflexivity.
Qed.

(** ** The rainbow *)

Lemma rainbow_cells_concat (off : Z) (n : nat) : forall j,
  rainbow_cells off n j =
  str_concat (map (fun i => span (palette_color (i + off)) HEAVY) (seqZ j (Z.of_nat n))).
Proof.
  induction n as [| n IH]; intros j; [reflexivity |].
  rewrite Nat2Z.inj_succ, seqZ_cons by lia.
  replace (Z.pred (Z.succ (Z.of_nat n))) with (Z.of_nat n) by lia.
  cbn [rainbow_cells map str_concat fold_right]. rewrite IH.
  replace (Z.succ j) with (j + 1) by lia. reflexivity.
Qed.

Lemma palette_color_period (i : Z) : palette_color (i + 10) = palette_color i.
Proof.
  unfold palette_color. replace (i + 10) with (i + 1 * 10) by lia.
  now rewrite Z.mod_add by lia.
Qed.

(** C4.  In a rainbow bar the filled cell of index [j] drawn with rotation
    offset [r] has the color [RAINBOW_COLORS[(j + r) mod 10]], so the colors
    repeat with period 10 in the index; the filled region is the cells of
    index 0 to [filled - 1] in this order.  In both modes what follows the
    filled region is one span of the dim color [#3a3a3a] holding the empty
    cells. *)
Theorem rainbow_palette :
  (forall r j,
     run (rainbow_color r j)
     = Ok (nth (Z.to_nat ((j + r) mod 10)) RAINBOW_COLORS_0 "") /\
     (Z.to_nat ((j + r) mod 10) < length RAINBOW_COLORS_0)%nat) /\
  (forall r j, run (rainbow_color r (j + 10)) = run (rainbow_color r j)) /\
  (forall pct theme w r doc,
     run (render_bar_html pct theme w true r) = Ok doc ->
     exists filled,
       bar_fill pct w = Ok filled /\
       doc = (if 0 <? filled
              then str_concat
                     (map (fun j => span (nth (Z.to_nat ((j + r) mod 10))
                                              RAINBOW_COLORS_0 "") HEAVY)
                          (seqZ 0 filled))
              else span (bar_color pct theme) "")
             +:+ span "#3a3a3a" (py_str_mul LIGHT (w - filled))) /\
  (forall pct theme w rb r doc,
     run (render_bar_html pct theme w rb r) = Ok doc ->
     exists filled filled_part,
       bar_fill pct w = Ok filled /\
       doc = filled_part +:+ span "#3a3a3a" (py_str_mul LIGHT (w - filled))).
Proof.
  repeat apply conj.
  - intros r j. split; [apply run_rainbow_color |].
    pose proof (Z.mod_pos_bound (j + r) 10 ltac:(lia)).
    change (length RAINBOW_COLORS_0) with 10%nat. lia.
  - intros r j. rewrite !run_rainbow_color.
    replace (j + 10 + r) with (j + r + 10) by lia. now rewrite palette_color_period.
  - intros pct theme w r doc. rewrite run_render_bar_html.
    destruct (bar_fill pct w) as [filled | e] eqn:E; [| discriminate].
    cbn [Res.bind]. intros [= <-]. exists filled. split; [reflexivity |].
    unfold filled_region, empty_region. cbn [andb].
    destruct (Z.ltb_spec 0 filled) as [L | L].
    + rewrite rainbow_cells_concat, Z2Nat.id by lia. reflexivity.
    + unfold py_str_mul. replace (Z.to_nat filled) with O by lia. reflexivity.
  - intros pct theme w rb r doc. rewrite run_render_bar_html.
    destruct (bar_fill pct w) as [filled | e] eqn:E; [| discriminate].
    cbn [Res.bind]. intros [= <-]. eexists _, _. split; reflexivity.
Qed.

(** ** Percentages of moderate size never overflow *)

Lemma dval_1_960 : (dval 1 960 == inject_Z moderate)%Q.
Proof. unfold dval, moderate. rewrite pow2_inject by lia. ring. Qed.

Lemma dval_opp (m e : Z) : (dval (- m) e == - dval m e)%Q.
Proof. unfold dval. rewrite inject_Z_opp. ring. Qed.

Lemma moderate_pos : 0 < moderate.
Proof. reflexivity. Qed.

Lemma fraction_moderate (pct : pynum) :
  py_ge pct (PyInt (- moderate)) = true -> py_le pct (PyInt moderate) = true ->
  exists x, py_truediv pct (PyInt 100) = Ok (PyFloat x) /\
            valid_binary prec emax x = true /\ mag_le x (dval 1 960).
Proof.
  intros Hlo Hhi. pose proof moderate_pos as MP.
  assert (MQ : (0 < inject_Z moderate)%Q) by (change 0%Q with (inject_Z 0); now rewrite <- Zlt_Qlt).
  destruct pct as [z | f].
  - rewrite py_ge_int in Hlo. rewrite py_le_int in Hhi. apply Z.leb_le in Hlo, Hhi.
    assert (Hdiv : forall s p, Zpos p <= moderate ->
              exists x, py_truediv (PyInt (signed s p)) (PyInt 100) = Ok (PyFloat x) /\
                        valid_binary prec emax x = true /\ mag_le x (dval 1 960)).
    { intros s p Hp. rewrite py_truediv_int_100.
      destruct (SFdiv_valid s false p 100 0 0) as [V _].
      assert (L : mag_le (SFdiv prec emax (S754_finite s p 0) (S754_finite false 100 0))
                         (dval 1 960)).
      { apply SFdiv_upper; [unfold prec; lia | unfold emax, prec; lia |].
        rewrite dval_1_960, !dval_0, <- inject_Z_mult, <- Zle_Qle. lia. }
      destruct (SFdiv _ _ _ _) as [s' | s' | | s' m e] eqn:E; cbn in L;
        try contradiction; eexists; repeat split; eauto. }
    destruct z as [| p | p].
    + exists (S754_zero false). repeat split.
    + apply (Hdiv false p). lia.
    + apply (Hdiv true p). lia.
  - rewrite py_truediv_float_100.
    destruct f as [s | s | | s m e]; try discriminate.
    + exists (S754_zero (xorb s false)). repeat split.
    + destruct s; discriminate.
    + apply py_ge_finite in Hlo. apply py_le_finite in Hhi.
      assert (Hm : (dval (Zpos m) e <= inject_Z moderate)%Q).
      { destruct s; cbn [signed] in *; [| exact Hhi].
        change (Zneg m) with (- Zpos m) in Hlo.
        rewrite dval_opp, inject_Z_opp in Hlo. lra. }
      destruct (SFdiv_valid s false m 7036874417766400 e (-46)) as [V _].
      eexists. split; [reflexivity |]. split; [exact V |].
      apply SFdiv_upper; [unfold prec; lia | unfold emax, prec; lia |].
      rewrite dval_1_960, f100_value. lra.
Qed.

Lemma dval_42_971 : (dval 1 960 * inject_Z (2 ^ 53) == dval (2 ^ 42) 971)%Q.
Proof.
  unfold dval. rewrite !pow2_inject by lia. rewrite <- !pow2_add. reflexivity.
Qed.

Lemma scale_moderate (x : spec_float) (w : Z) :
  1 <= w <= 2 ^ 53 ->
  valid_binary prec emax x = true -> mag_le x (dval 1 960) ->
  exists y r, py_mul (PyFloat x) (PyInt w) = Ok (PyFloat y) /\
              py_round (PyFloat y) = Ok r.
Proof.
  intros Hw Vx Lx.
  destruct (float_of_int_exact w Hw) as (m & e & Hf & V & E).
  rewrite (py_mul_float_int x w _ Hf).
  assert (U : mag_le (SFmul prec emax x (S754_finite false m e)) (dval (2 ^ 42) 971)).
  { destruct x as [sx | sx | | sx mx ex]; try contradiction; [exact I |].
    cbn [mag_le] in Lx. rewrite SFmul_finite.
    apply binary_round_aux_upper with (v := dval (Zpos (mx * m)) (ex + e)).
    - lia.
    - eapply mul_aligned; eassumption.
    - unfold prec. lia.
    - apply Qle_refl.
    - intros H; now contradiction H.
    - unfold emax, prec. lia.
    - rewrite Pos2Z.inj_mul, dval_mul, <- dval_42_971, E.
      pose proof (dval_pos (Zpos mx) ex ltac:(lia)).
      assert ((inject_Z w <= inject_Z (2 ^ 53))%Q) by (rewrite <- Zle_Qle; lia).
      assert ((0 < inject_Z w)%Q) by (change 0%Q with (inject_Z 0); rewrite <- Zlt_Qlt; lia).
      nra. }
  destruct (SFmul prec emax x (S754_finite false m e)) as [s | s | | s m' e'];
    cbn in U; try contradiction; eexists _, _; split; reflexivity.
Qed.

Lemma bar_fill_moderate (pct : pynum) (w : Z) :
  py_ge pct (PyInt (- moderate)) = true -> py_le pct (PyInt moderate) = true ->
  1 <= w <= 2 ^ 53 ->
  exists filled, bar_fill pct w = Ok filled.
Proof.
  intros Hlo Hhi Hw. unfold bar_fill.
  destruct (fraction_moderate pct Hlo Hhi) as (x & -> & Vx & Lx). cbn [Res.bind].
  destruct (scale_moderate x w Hw Vx Lx) as (y & r & -> & Er). cbn [Res.bind].
  rewrite Er. eexists. reflexivity.
Qed.

(** Every width up to the largest finite float converts. *)
Lemma float_of_int_converts (w : Z) :
  1 <= w <= (2 ^ 53 - 1) * 2 ^ 971 -> is_ok (float_of_int w) = true.
Proof.
  intros Hw. unfold float_of_int. destruct w as [| p | p]; try lia.
  cbn [binary_normalize].
  destruct (binary_round_facts false p 0) as (_ & _ & _ & Up).
  specialize (Up (2 ^ 53 - 1) 971 ltac:(unfold prec; lia) ltac:(unfold emax, prec; lia)).
  assert (H : (dval (Zpos p) 0 <= dval (2 ^ 53 - 1) 971)%Q).
  { rewrite (dval_align (2 ^ 53 - 1) 971 0) by lia. apply dval_le.
    replace (971 - 0) with 971 by lia. lia. }
  specialize (Up H).
  destruct (binary_round prec emax false p 0); cbn in Up; try contradiction; reflexivity.
Qed.

(** ** The fill of a bar *)




(** ** Percentages out of range *)

Lemma bar_color_below (pct : pynum) (theme : Theme) :
  py_lt pct (PyInt 0) = true -> bar_color pct theme = low theme.
Proof. intros H. apply bar_color_low. now apply (py_lt_weaken pct 0 50). Qed.

Lemma bar_color_above (pct : pynum) (theme : Theme) :
  py_gt pct (PyInt 100) = true -> bar_color pct theme = high theme.
Proof.
  intros H. apply bar_color_high. apply (py_ge_weaken pct 100 80); [lia |].
  now apply py_gt_ge.
Qed.

(** C3, amended.  For a width from 1 to 2^53 (the widths a float holds
    exactly), a percentage below 0 gives the very output of percentage 0 and a
    percentage above 100 the very output of percentage 100, fill and colors,
    in both modes, unless the call raises [OverflowError]; it does not raise
    for a percentage of magnitude up to 2^960, nor for 0 and 100
    themselves. *)
Theorem out_of_range_clamped (pct : pynum) (theme : Theme) (w : Z) (rb : bool) (off : Z) :
  1 <= w <= 2 ^ 53 ->
  let render := fun p => run (render_bar_html p theme w rb off) in
  (py_lt pct (PyInt 0) = true ->
     render pct = render (PyInt 0) \/ render pct = Raise OverflowError) /\
  (py_gt pct (PyInt 100) = true ->
     render pct = render (PyInt 100) \/ render pct = Raise OverflowError) /\
  (py_ge pct (PyInt (- 2 ^ 960)) = true -> py_le pct (PyInt (2 ^ 960)) = true ->
     is_ok (render pct) = true) /\
  is_ok (render (PyInt 0)) = true /\
  is_ok (render (PyInt 100)) = true.
Proof.
  intros Hw. cbv zeta beta. rewrite !run_render_bar_html.
  rewrite (bar_fill_0 w Hw), (bar_fill_100 w Hw). cbn [Res.bind is_ok].
  repeat apply conj; try reflexivity.
  - intros H. destruct (bar_fill_neg pct w H Hw) as [-> | ->]; [now right | left].
    cbn [Res.bind]. unfold filled_region.
    replace (rb && (0 <? 0)) with false by (destruct rb; reflexivity).
    now rewrite (bar_color_below pct theme H).
  - intros H. destruct (bar_fill_hi pct w (py_gt_ge _ _ H) Hw) as [-> | ->];
      [now right | left].
    cbn [Res.bind]. unfold filled_region.
    now rewrite (bar_color_above pct theme H).
  - intros Hlo Hhi. destruct (bar_fill_moderate pct w Hlo Hhi Hw) as (filled & ->).
    reflexivity.
Qed.

Lemma out_of_range_clamped_witness :
  run (render_bar_html (PyInt 150) default_theme 10 true 2)
  = run (render_bar_html (PyInt 100) default_theme 10 true 2) /\
  run (render_bar_html (PyFloat (S754_finite true 5629499534213120 (-51)))
                       default_theme 10 false 0)
  = run (render_bar_html (PyInt 0) default_theme 10 false 0).
Proof.
  split.
  - destruct (out_of_range_clamped (PyInt 150) default_theme 10 true 2 ltac:(lia))
      as (_ & H & _).
    destruct (H eq_refl) as [E | E]; [exact E | discriminate E].
  - destruct (out_of_range_clamped
                (PyFloat (S754_finite true 5629499534213120 (-51)))
                default_theme 10 false 0 ltac:(lia)) as (H & _).
    destruct (H eq_refl) as [E | E]; [exact E | discriminate E].
Defined.

(** An infinite percentage is above 100 and raises, as does an [int] too large
    for its hundredth to be a float, while 100 does not.  On a width that no
    float holds exactly the fill of 200 and the fill of 100 differ. *)
Lemma out_of_range_counterexample :
  py_gt (PyFloat (S754_infinity false)) (PyInt 100) = true /\
  run (render_bar_html (PyFloat (S754_infinity false)) default_theme 10 false 0)
  = Raise OverflowError /\
  py_gt (PyInt (10 ^ 400)) (PyInt 100) = true /\
  run (render_bar_html (PyInt (10 ^ 400)) default_theme 10 false 0)
  = Raise OverflowError /\
  is_ok (run (render_bar_html (PyInt 100) default_theme 10 false 0)) = true /\
  bar_fill (PyInt 200) (2 ^ 53 + 1) = Ok (2 ^ 53 + 1) /\
  bar_fill (PyInt 100) (2 ^ 53 + 1) = Ok (2 ^ 53).
Proof. repeat split; reflexivity. Qed.

(** ** The claims at concrete inputs *)

Lemma tier_color_witness :
  bar_color (PyFloat f62_5) default_theme = "#eab308" /\
  bar_color (PyInt 12) default_theme = "#22c55e" /\
  bar_color (PyInt 88) default_theme = "#ef4444".
Proof.
  destruct (tier_color (PyFloat f62_5) default_theme) as (_ & Hmid & _).
  destruct (tier_color (PyInt 12) default_theme) as (_ & _ & Hlow & _).
  destruct (tier_color (PyInt 88) default_theme) as (Hhigh & _).
  split; [| split].
  - apply Hmid; reflexivity.
  - apply Hlow; reflexivity.
  - apply Hhigh; reflexivity.
Defined.

Lemma rainbow_palette_witness :
  exists filled,
    bar_fill (PyInt 38) 10 = Ok filled /\
    span "#00ff00" HEAVY +:+ span "#00ccff" HEAVY +:+ span "#0066ff" HEAVY
      +:+ span "#8800ff" HEAVY +:+ span "#3a3a3a" (py_str_mul LIGHT 6)
    = (if 0 <? filled
       then str_concat
              (map (fun j => span (nth (Z.to_nat ((j + 3) mod 10))
                                       RAINBOW_COLORS_0 "") HEAVY)
                   (seqZ 0 filled))
       else span (bar_color (PyInt 38) default_theme) "")
      +:+ span "#3a3a3a" (py_str_mul LIGHT (10 - filled)).
Proof.
  destruct rainbow_palette as (_ & _ & H & _).
  apply (H (PyInt 38) default_theme 10 3). reflexivity.
Defined.

Lemma theme_lookup_witness :
  exists t, THEME_CSS_0 !! "ocean" = Some t /\ run (lookup_theme "ocean") = Ok t.
Proof.
  destruct theme_lookup as (H & _). apply H. unfold registered_names.
  repeat constructor.
Defined.



(** The concrete scenarios of the specification. *)

Example render_62 :
  run (render_bar_html (PyInt 62) default_theme 10 false 0)
  = Ok (span "#eab308" (py_str_mul HEAVY 6) +:+ span "#3a3a3a" (py_str_mul LIGHT 4)).
Proof. reflexivity. Qed.

Example fill_88 : bar_fill (PyInt 88) 10 = Ok 9.
Proof. reflexivity. Qed.

Example extra_3_10_of_37 :
  exists p, extra_percent "£3.10" "£37.00" = Ok p /\ bar_fill p 10 = Ok 1 /\
            bar_color p default_theme = "#22c55e".
Proof. eexists. repeat split; reflexivity. Qed.

(** An infinite percentage reaches the renderer through the extra-usage
    pair. *)
Example extra_inf :
  run (generate_frame_html "default" default_theme (PyInt 12) (PyInt 6) (PyInt 8)
         "4h 52m" "Max 20x" "Opus 4.6" 1 46 "low usage" false 0
         "inf" "1" false)
  = Raise OverflowError.
Proof. reflexivity. Qed.

(** The fill is the rounding of the binary64 product, not of the exact one:
    70 hundredths of 45 cells are 31.5 cells, which would round to 32, while
    the product of the floats lies just under and rounds to 31.  On the width
    of the composers, 10, the two agree for every whole percentage. *)
Example fill_70_of_45 : bar_fill (PyInt 70) 45 = Ok 31.
Proof. reflexivity. Qed.

Example fill_of_10_is_exact_rounding :
  forallb (fun p =>
             match bar_fill (PyInt p) 10 with
             | Ok f =>
                 (* p * 10 / 100 = p / 10, rounded half to even *)
                 f =? (let q := p / 10 in
                       let r := p mod 10 in
                       match Z.compare (2 * r) 10 with
                       | Lt => q
                       | Gt => q + 1
                       | Eq => if Z.even q then q else q + 1
                       end)
             | Raise _ => false
             end)
          (seqZ 0 101) = true.
Proof. vm_compute. reflexivity. Qed.

(** Every document [main] composes is composed without an exception: 46
    full mockups and twice 37 status lines. *)
Example main_documents_ok :
  match run main_documents with
  | Ok (html1, html2, html3) =>
      (length html1, length html2, length html3) = (46, 37, 37)%nat
  | Raise _ => False
  end.
Proof. vm_compute. reflexivity. Qed.


(** * Rounding is monotone

    The rounding of the format, read from the location of the exact value:
    it gives the nearest mantissa, ties to even, and so keeps the order of
    the values it rounds. *)

(** ** Rounding a rational to the nearest integer *)

Lemma rne_bounds (x : Q) : Qfloor x <= rne x <= Qfloor x + 1.
Proof.
  unfold rne. destruct (Qcompare _ _); [destruct (Z.even _) | |]; lia.
Qed.

Lemma rne_mono (x y : Q) : (x <= y)%Q -> rne x <= rne y.
Proof.
  intros Hxy.
  pose proof (Qfloor_resp_le x y Hxy) as Hf.
  pose proof (rne_bounds x) as Bx. pose proof (rne_bounds y) as By.
  destruct (Z.eq_dec (Qfloor x) (Qfloor y)) as [E | NE]; [| lia].
  unfold rne. rewrite <- E.
  destruct (Qcompare_spec (x - inject_Z (Qfloor x)) (1 # 2)) as [H1 | H1 | H1];
    destruct (Qcompare_spec (y - inject_Z (Qfloor x)) (1 # 2)) as [H2 | H2 | H2];
    try destruct (Z.even (Qfloor x)); try lia; exfalso; lra.
Qed.

Lemma Qfloor_unique (x : Q) (m : Z) :
  (inject_Z m <= x)%Q -> (x < inject_Z (m + 1))%Q -> Qfloor x = m.
Proof.
  intros H1 H2.
  pose proof (Qfloor_le x) as F1. pose proof (Qlt_floor x) as F2.
  assert (A : (inject_Z m < inject_Z (Qfloor x + 1))%Q) by lra.
  assert (B : (inject_Z (Qfloor x) < inject_Z (m + 1))%Q) by lra.
  rewrite <- Zlt_Qlt in A, B. lia.
Qed.

Lemma rne_loc (x : Q) (m : Z) (l : location) :
  loc_ok x m l -> round_nearest_even m l = rne x.
Proof.
  intros H. unfold rne. destruct l as [| c]; cbn [loc_ok] in H.
  - assert (F : Qfloor x = m).
    { apply Qfloor_unique; rewrite H; [lra |]. rewrite <- Zlt_Qlt. lia. }
    rewrite F. cbn [round_nearest_even].
    destruct (Qcompare_spec (x - inject_Z m) (1 # 2)) as [H1 | H1 | H1];
      try reflexivity; exfalso; lra.
  - destruct H as (H1 & H2 & H3).
    assert (F : Qfloor x = m) by (apply Qfloor_unique; lra).
    rewrite F.
    assert (E : Qcompare (x - inject_Z m) (1 # 2) = c).
    { rewrite <- H3.
      destruct (Qcompare_spec (x - inject_Z m) (1 # 2)) as [A | A | A];
        destruct (Qcompare_spec x (inject_Z m + (1 # 2))) as [B | B | B];
        try reflexivity; exfalso; lra. }
    rewrite E. destruct c; reflexivity.
Qed.

(** ** Shifting keeps the location *)

Lemma inject_Z_xO (p : positive) : (inject_Z (Zpos p~0) == 2 * inject_Z (Zpos p))%Q.
Proof. change (Zpos p~0) with (2 * Zpos p). now rewrite inject_Z_mult. Qed.

Lemma inject_Z_xI (p : positive) : (inject_Z (Zpos p~1) == 2 * inject_Z (Zpos p) + 1)%Q.
Proof.
  change (Zpos p~1) with (2 * Zpos p + 1). now rewrite inject_Z_plus, inject_Z_mult.
Qed.

Lemma inject_Z_succ (m : Z) : (inject_Z (m + 1) == inject_Z m + 1)%Q.
Proof. now rewrite inject_Z_plus. Qed.

Ltac qcmp :=
  repeat match goal with
         | H : Qcompare _ _ = _ |- _ =>
             first [ apply <- Qeq_alt in H | apply <- Qlt_alt in H
                   | apply <- Qgt_alt in H ]
         | |- Qcompare _ _ = Eq => apply -> Qeq_alt
         | |- Qcompare _ _ = Lt => apply -> Qlt_alt
         | |- Qcompare _ _ = Gt => apply -> Qgt_alt
         end.

Lemma shr_1_loc (x : Q) (mrs : shr_record) :
  0 <= shr_m mrs ->
  loc_ok x (shr_m mrs) (loc_of_shr_record mrs) ->
  loc_ok (x * (1 # 2)) (shr_m (shr_1 mrs)) (loc_of_shr_record (shr_1 mrs)).
Proof.
  destruct mrs as [m r s]. cbn [shr_m]. intros Hm H.
  destruct m as [| p | p]; [| | lia].
  - destruct r, s; cbn [shr_1 orb loc_of_shr_record shr_m loc_ok] in H |- *;
      try destruct H as (H1 & H2 & H3);
      change (inject_Z (0 + 1)) with 1%Q in *; change (inject_Z 0) with 0%Q in *;
      qcmp; repeat split; qcmp; lra.
  - destruct p as [p | p |]; destruct r, s; cbn [shr_1 orb loc_of_shr_record shr_m loc_ok] in H |- *;
      try destruct H as (H1 & H2 & H3);
      rewrite ?inject_Z_succ, ?inject_Z_xO, ?inject_Z_xI in *;
      qcmp; repeat split; rewrite ?inject_Z_succ; qcmp;
      try (change (inject_Z (0 + 1)) with 1%Q in * );
      try (change (inject_Z 1) with 1%Q in * );
      try (change (inject_Z 0) with 0%Q in * ); lra.
Qed.

Lemma pow2_neg_half (k : Z) : (2 ^ (- (k + 1)) == 2 ^ (- k) * (1 # 2))%Q.
Proof.
  replace (- (k + 1)) with (- k + -1) by lia. rewrite pow2_add. reflexivity.
Qed.

Lemma iter_pos_shr_1_loc (p : positive) : forall mrs x,
  0 <= shr_m mrs ->
  loc_ok x (shr_m mrs) (loc_of_shr_record mrs) ->
  loc_ok (x * 2 ^ (- Zpos p))
         (shr_m (SpecFloat.iter_pos shr_1 p mrs))
         (loc_of_shr_record (SpecFloat.iter_pos shr_1 p mrs)).
Proof.
  assert (Hloc : forall x y m l, (x == y)%Q -> loc_ok x m l -> loc_ok y m l).
  { intros x y m l E. destruct l; cbn [loc_ok]; rewrite E; auto. }
  induction p as [p IH | p IH |]; intros mrs x Hm H; cbn [SpecFloat.iter_pos].
  - pose proof (shr_1_nonneg mrs Hm) as H1.
    pose proof (shr_1_loc x mrs Hm H) as L1.
    pose proof (IH _ _ H1 L1) as L2.
    assert (H2 : 0 <= shr_m (SpecFloat.iter_pos shr_1 p (shr_1 mrs))).
    { destruct (iter_pos_shr_1 p (shr_1 mrs) H1) as [-> _].
      apply Z.div_pos; [exact H1 | apply Z.pow_pos_nonneg; lia]. }
    pose proof (IH _ _ H2 L2) as L3.
    eapply Hloc; [| exact L3].
    replace (- Zpos p~1) with (- Zpos p + - Zpos p + -1) by lia.
    rewrite !pow2_add. change (2 ^ (-1))%Q with (1 # 2)%Q. ring.
  - pose proof (IH _ _ Hm H) as L2.
    assert (H2 : 0 <= shr_m (SpecFloat.iter_pos shr_1 p mrs)).
    { destruct (iter_pos_shr_1 p mrs Hm) as [-> _].
      apply Z.div_pos; [exact Hm | apply Z.pow_pos_nonneg; lia]. }
    pose proof (IH _ _ H2 L2) as L3.
    eapply Hloc; [| exact L3].
    replace (- Zpos p~0) with (- Zpos p + - Zpos p) by lia.
    rewrite !pow2_add. ring.
  - pose proof (shr_1_loc x mrs Hm H) as L1.
    eapply Hloc; [| exact L1]. reflexivity.
Qed.

Lemma shr_loc (mrs : shr_record) (e n : Z) (x : Q) :
  0 <= shr_m mrs ->
  loc_ok x (shr_m mrs) (loc_of_shr_record mrs) ->
  loc_ok (x * 2 ^ (- Z.max 0 n))
         (shr_m (fst (shr mrs e n))) (loc_of_shr_record (fst (shr mrs e n))).
Proof.
  assert (Hloc : forall x y m l, (x == y)%Q -> loc_ok x m l -> loc_ok y m l).
  { intros x' y m l E. destruct l; cbn [loc_ok]; rewrite E; auto. }
  intros Hm H. destruct n as [| p | p]; cbn [shr fst].
  - eapply Hloc; [| exact H]. change (2 ^ (- Z.max 0 0))%Q with 1%Q. ring.
  - replace (Z.max 0 (Zpos p)) with (Zpos p) by lia.
    now apply iter_pos_shr_1_loc.
  - replace (Z.max 0 (Zneg p)) with 0 by lia.
    eapply Hloc; [| exact H]. change (2 ^ (- 0))%Q with 1%Q. ring.
Qed.

Lemma loc_of_shr_record_of_loc (m : Z) (l : location) :
  loc_of_shr_record (shr_record_of_loc m l) = l.
Proof. destruct l as [| []]; reflexivity. Qed.

(** ** The rounding of a located value *)

(** The outcome of [binary_round_aux] when the location is that of an exact
    value [x * 2^ex] between two mantissas: the mantissa is the nearest
    integer, ties to even, to the value cut at the exponent of the format. *)
Lemma binary_round_aux_rne (sx : bool) (mx ex : Z) (lx : location) (x : Q) :
  0 <= mx -> ex <= fexp prec emax (Zdigits2 mx + ex) ->
  loc_ok x mx lx ->
  let e1 := fexp prec emax (Zdigits2 mx + ex) in
  let m2 := rne (x * 2 ^ (- (e1 - ex))) in
  0 <= m2 <= 2 ^ prec /\
  (-1074 < e1 -> 2 ^ (prec - 1) <= m2) /\
  binary_round_aux prec emax sx mx ex lx =
    if m2 =? 0 then S754_zero sx
    else if m2 =? 2 ^ prec then
      (if e1 + 1 <=? emax - prec
       then S754_finite sx (Z.to_pos (2 ^ (prec - 1))) (e1 + 1)
       else S754_infinity sx)
    else if e1 <=? emax - prec then S754_finite sx (Z.to_pos m2) e1
    else S754_infinity sx.
Proof.
  intros Hmx Hn Hloc e1 m2.
  destruct (binary_round_aux_shape sx mx ex lx Hmx Hn) as (m2' & _ & _ & Hm1a & Hm1b & _).
  fold e1 in Hm1a, Hm1b.
  set (m1 := mx / 2 ^ (e1 - ex)) in *.
  assert (He1 : -1074 <= e1) by (subst e1; rewrite fexp_eq; lia).
  assert (Hk : 0 <= e1 - ex) by (subst e1; lia).
  assert (Hm1_nonneg : 0 <= m1).
  { subst m1. apply Z.div_pos; [exact Hmx | apply Z.pow_pos_nonneg; lia]. }
  unfold binary_round_aux, shr_fexp. fold e1.
  pose proof (shr_spec (shr_record_of_loc mx lx) ex (e1 - ex)) as S1.
  rewrite shr_record_of_loc_m in S1. specialize (S1 Hmx). cbv zeta in S1.
  replace (Z.max 0 (e1 - ex)) with (e1 - ex) in S1 by lia.
  pose proof (shr_loc (shr_record_of_loc mx lx) ex (e1 - ex) x) as L1.
  rewrite shr_record_of_loc_m, loc_of_shr_record_of_loc in L1.
  specialize (L1 Hmx Hloc).
  replace (Z.max 0 (e1 - ex)) with (e1 - ex) in L1 by lia.
  destruct (shr (shr_record_of_loc mx lx) ex (e1 - ex)) as [mrs' e'] eqn:E1.
  cbn [fst snd] in S1, L1. destruct S1 as (Se & Sm & Si).
  fold m1 in Sm. replace (ex + (e1 - ex)) with e1 in Se by lia. subst e'.
  pose proof (round_nearest_even_bounds mrs') as R. cbv zeta in R.
  pose proof (rne_loc _ _ _ L1) as E2. fold m2 in E2.
  rewrite E2, Sm in R. destruct R as [R1 R2].
  rewrite E2.
  split; [lia |]. split; [intros H; specialize (Hm1b H); lia |].
  change (shr_record_of_loc m2 loc_Exact) with (Build_shr_record m2 false false).
  destruct (Z.eqb_spec m2 0) as [Z2 | NZ2].
  - rewrite Z2. cbn [Zdigits2]. rewrite fexp_eq.
    destruct (Z.max (0 + e1 - 53) (-1074) - e1) eqn:En; try lia; reflexivity.
  - assert (Hpos2 : 0 < m2) by lia.
    destruct (Z.eqb_spec m2 (2 ^ prec)) as [C | NC].
    + assert (D : Zdigits2 m2 = prec + 1).
      { apply Zdigits2_unique; [| unfold prec; lia]. rewrite C.
        replace (prec + 1 - 1) with prec by lia. split; [lia |].
        apply Z.pow_lt_mono_r; unfold prec; lia. }
      rewrite D, fexp_eq. unfold prec at 1.
      replace (Z.max (53 + 1 + e1 - 53) (-1074) - e1) with 1 by lia.
      cbn [shr SpecFloat.iter_pos shr_1]. rewrite C. reflexivity.
    + assert (D : Zdigits2 m2 <= prec).
      { apply Zdigits2_le; [unfold prec; lia | lia]. }
      rewrite fexp_eq. unfold prec in D.
      destruct (Z.max (Zdigits2 m2 + e1 - 53) (-1074) - e1) eqn:En; try lia.
      * cbn [shr shr_m]. destruct m2; try lia. reflexivity.
      * cbn [shr shr_m]. destruct m2; try lia. reflexivity.
Qed.

(** ** Rounding is monotone *)

Lemma pow2_le_mono (a b : Z) : a <= b -> (2 ^ a <= 2 ^ b)%Q.
Proof.
  intros H. replace b with (a + (b - a)) at 1 by lia. rewrite pow2_add.
  rewrite <- (pow2_inject (b - a)) by lia.
  assert (1 <= 2 ^ (b - a)) by (apply Z.lt_pred_le, Z.pow_pos_nonneg; lia).
  assert (E : (1 <= inject_Z (2 ^ (b - a)))%Q).
  { change 1%Q with (inject_Z 1). now rewrite <- Zle_Qle. }
  pose proof (pow2_pos a). nra.
Qed.

Lemma pow2_lt_inv (a b : Z) : (2 ^ a < 2 ^ b)%Q -> a < b.
Proof.
  intros H. destruct (Z_lt_le_dec a b) as [L | L]; [exact L |].
  pose proof (pow2_le_mono b a L). lra.
Qed.

Lemma dval_cmp (a b e1 e2 : Z) :
  e1 <= e2 -> a <= b * 2 ^ (e2 - e1) -> (dval a e1 <= dval b e2)%Q.
Proof.
  intros He H. rewrite (dval_align b e2 e1 He). now apply dval_le.
Qed.

(** The size of a located value. *)
Lemma loc_ok_bounds (x : Q) (m : Z) (l : location) :
  loc_ok x m l -> (inject_Z m <= x)%Q /\ (x < inject_Z (m + 1))%Q.
Proof.
  destruct l; cbn [loc_ok].
  - intros ->. rewrite <- Zle_Qle, <- Zlt_Qlt. lia.
  - intros (H1 & H2 & _). split; lra.
Qed.

Lemma located_magnitude (x1 x2 : Q) (mx1 ex1 mx2 ex2 : Z) (l1 l2 : location) :
  0 <= mx1 -> 0 <= mx2 ->
  ex1 <= fexp prec emax (Zdigits2 mx1 + ex1) ->
  loc_ok x1 mx1 l1 -> loc_ok x2 mx2 l2 ->
  (x1 * 2 ^ ex1 <= x2 * 2 ^ ex2)%Q ->
  fexp prec emax (Zdigits2 mx1 + ex1) <= fexp prec emax (Zdigits2 mx2 + ex2).
Proof.
  intros H1 H2 Hn L1 L2 Hv.
  destruct (Z.eq_dec mx1 0) as [-> | N1].
  - cbn [Zdigits2] in *. rewrite !fexp_eq in *. lia.
  - apply fexp_mono.
    assert (P1 : 0 < mx1) by lia.
    pose proof (Zdigits2_bounds mx1 P1) as [B1 _].
    apply loc_ok_bounds in L1 as [L1 _]. apply loc_ok_bounds in L2 as [_ L2].
    assert (U2 : mx2 + 1 <= 2 ^ Zdigits2 mx2).
    { destruct (Z.eq_dec mx2 0) as [-> | N2]; [cbn; lia |].
      pose proof (Zdigits2_bounds mx2 ltac:(lia)). lia. }
    pose proof (Zdigits2_nonneg mx2) as D2.
    pose proof (Zdigits2_pos mx1 P1) as D1.
    assert (A : (2 ^ (Zdigits2 mx1 - 1 + ex1) <= x1 * 2 ^ ex1)%Q).
    { rewrite pow2_add, <- (pow2_inject (Zdigits2 mx1 - 1)) by lia.
      rewrite Zle_Qle in B1. pose proof (pow2_pos ex1). nra. }
    assert (B : (x2 * 2 ^ ex2 < 2 ^ (Zdigits2 mx2 + ex2))%Q).
    { rewrite pow2_add, <- (pow2_inject (Zdigits2 mx2)) by lia.
      rewrite Zle_Qle in U2. pose proof (pow2_pos ex2). nra. }
    assert (C : (2 ^ (Zdigits2 mx1 - 1 + ex1) < 2 ^ (Zdigits2 mx2 + ex2))%Q) by lra.
    apply pow2_lt_inv in C. lia.
Qed.

Lemma binary_round_aux_mono (s1 s2 : bool) (mx1 ex1 mx2 ex2 : Z)
    (l1 l2 : location) (x1 x2 : Q) :
  0 <= mx1 -> 0 <= mx2 ->
  ex1 <= fexp prec emax (Zdigits2 mx1 + ex1) ->
  ex2 <= fexp prec emax (Zdigits2 mx2 + ex2) ->
  loc_ok x1 mx1 l1 -> loc_ok x2 mx2 l2 ->
  (x1 * 2 ^ ex1 <= x2 * 2 ^ ex2)%Q ->
  mag_leq (binary_round_aux prec emax s1 mx1 ex1 l1)
          (binary_round_aux prec emax s2 mx2 ex2 l2).
Proof.
  intros H1 H2 N1 N2 L1 L2 Hv.
  pose proof (located_magnitude _ _ _ _ _ _ _ _ H1 H2 N1 L1 L2 Hv) as He.
  destruct (binary_round_aux_rne s1 mx1 ex1 l1 x1 H1 N1 L1) as (B1 & C1 & ->).
  destruct (binary_round_aux_rne s2 mx2 ex2 l2 x2 H2 N2 L2) as (B2 & C2 & ->).
  set (e1 := fexp prec emax (Zdigits2 mx1 + ex1)) in *.
  set (e2 := fexp prec emax (Zdigits2 mx2 + ex2)) in *.
  set (a := rne (x1 * 2 ^ (- (e1 - ex1)))) in *.
  set (b := rne (x2 * 2 ^ (- (e2 - ex2)))) in *.
  assert (Hlow : -1074 <= e1) by (subst e1; rewrite fexp_eq; lia).
  assert (P53 : 2 ^ prec = 2 * 2 ^ (prec - 1)) by reflexivity.
  assert (Q53 : 0 < 2 ^ (prec - 1)) by reflexivity.
  assert (Hab : e1 = e2 -> a <= b).
  { intros E. subst a b. apply rne_mono. rewrite <- E.
    replace (- (e1 - ex1)) with (ex1 + - e1) by lia.
    replace (- (e1 - ex2)) with (ex2 + - e1) by lia.
    rewrite !pow2_add. pose proof (pow2_pos (- e1)). nra. }
  assert (Hstep : e1 < e2 -> 2 <= 2 ^ (e2 - e1)).
  { intros L. apply pow2_ge_2. lia. }
  assert (Hsame : e1 = e2 -> 2 ^ (e2 - e1) = 1).
  { intros ->. now rewrite Z.sub_diag. }
  assert (Hsucc : 2 ^ (e2 + 1 - e1) = 2 * 2 ^ (e2 - e1)).
  { replace (e2 + 1 - e1) with (Z.succ (e2 - e1)) by lia.
    rewrite Z.pow_succ_r by lia. reflexivity. }
  assert (Hsucc' : e1 < e2 -> 2 ^ (e2 - e1) = 2 * 2 ^ (e2 - (e1 + 1))).
  { intros L. replace (e2 - e1) with (Z.succ (e2 - (e1 + 1))) by lia.
    rewrite Z.pow_succ_r by lia. reflexivity. }
  assert (Hpp : 0 < 2 ^ (e2 - e1)) by (apply Z.pow_pos_nonneg; lia).
  assert (Hpp' : e1 < e2 -> 0 < 2 ^ (e2 - (e1 + 1))) by (intros; apply Z.pow_pos_nonneg; lia).
  destruct (Z.eq_dec e1 e2) as [E | NE].
  - specialize (Hab E). specialize (Hsame E).
    destruct (Z.eqb_spec a 0); [destruct (Z.eqb_spec b 0);
      [exact I | destruct (Z.eqb_spec b (2 ^ prec));
         [destruct (Z.leb_spec (e2 + 1) (emax - prec)); exact I
         | destruct (Z.leb_spec e2 (emax - prec)); exact I]] |].
    destruct (Z.eqb_spec b 0); [lia |].
    destruct (Z.eqb_spec a (2 ^ prec)), (Z.eqb_spec b (2 ^ prec)); try lia;
      destruct (Z.leb_spec (e1 + 1) (emax - prec)), (Z.leb_spec (e2 + 1) (emax - prec)),
               (Z.leb_spec e1 (emax - prec)), (Z.leb_spec e2 (emax - prec));
      try lia; cbn [mag_leq]; try exact I;
      rewrite ?Z2Pos.id by lia; apply dval_cmp; try lia; nia.
  - assert (L : e1 < e2) by lia. specialize (C2 ltac:(lia)).
    specialize (Hstep L). specialize (Hsucc' L). specialize (Hpp' L).
    destruct (Z.eqb_spec a 0); [destruct (Z.eqb_spec b 0);
      [exact I | destruct (Z.eqb_spec b (2 ^ prec));
         [destruct (Z.leb_spec (e2 + 1) (emax - prec)); exact I
         | destruct (Z.leb_spec e2 (emax - prec)); exact I]] |].
    destruct (Z.eqb_spec b 0); [lia |].
    destruct (Z.eqb_spec a (2 ^ prec)), (Z.eqb_spec b (2 ^ prec));
      destruct (Z.leb_spec (e1 + 1) (emax - prec)), (Z.leb_spec (e2 + 1) (emax - prec)),
               (Z.leb_spec e1 (emax - prec)), (Z.leb_spec e2 (emax - prec));
      try lia; cbn [mag_leq]; try exact I;
      rewrite ?Z2Pos.id by lia; apply dval_cmp; try lia; nia.
Qed.

(** ** Multiplication and division are monotone *)

Lemma binary_round_aux_not_nan (sx : bool) (mx ex : Z) (lx : location) :
  0 <= mx -> ex <= fexp prec emax (Zdigits2 mx + ex) ->
  binary_round_aux prec emax sx mx ex lx <> S754_nan.
Proof.
  intros H1 H2 E. pose proof (binary_round_aux_sign sx mx ex lx H1 H2) as S.
  now rewrite E in S.
Qed.

Lemma mag_leq_zero (s : bool) (f : spec_float) : f <> S754_nan -> mag_leq (S754_zero s) f.
Proof. destruct f; cbn; auto. Qed.

Lemma mag_leq_infinity (s : bool) (f : spec_float) :
  f <> S754_nan -> mag_leq f (S754_infinity s).
Proof. destruct f; cbn; auto. Qed.

Lemma mag_leq_refl (f : spec_float) : f <> S754_nan -> mag_leq f f.
Proof. destruct f; cbn; auto. intros _. lra. Qed.

Lemma loc_ok_exact (m : Z) : loc_ok (inject_Z m) m loc_Exact.
Proof. cbn. reflexivity. Qed.

Lemma dval_unfold (m e : Z) : (dval m e == inject_Z m * 2 ^ e)%Q.
Proof. reflexivity. Qed.

(** [|x1| <= |x2|] gives [|x1 * w| <= |x2 * w|]. *)
Lemma SFmul_mono (x1 x2 w : spec_float) :
  valid_binary prec emax x1 = true -> valid_binary prec emax x2 = true ->
  valid_binary prec emax w = true ->
  w <> S754_nan ->
  (forall s, w = S754_infinity s -> is_zero x1 = false) ->
  (forall s, w = S754_zero s -> x2 <> S754_infinity true /\ x2 <> S754_infinity false) ->
  mag_leq x1 x2 ->
  mag_leq (SFmul prec emax x1 w) (SFmul prec emax x2 w).
Proof.
  intros V1 V2 Vw Nw Hinf Hzero H.
  destruct w as [sw | sw | | sw mw ew]; [| | congruence |].
  - destruct (Hzero sw eq_refl) as [A B].
    destruct x1 as [s1 | s1 | | s1 m1 e1], x2 as [s2 | [] | | s2 m2 e2];
      cbn in H |- *; try exact I; try contradiction; congruence.
  - specialize (Hinf sw eq_refl).
    destruct x1 as [s1 | s1 | | s1 m1 e1], x2 as [s2 | s2 | | s2 m2 e2];
      cbn in H, Hinf |- *; try exact I; try contradiction; discriminate.
  - destruct x1 as [s1 | s1 | | s1 m1 e1]; [| | contradiction |].
    + destruct x2 as [s2 | s2 | | s2 m2 e2]; cbn [SFmul]; try exact I.
      * contradiction.
      * apply mag_leq_zero, binary_round_aux_not_nan; [lia |].
        exact (mul_aligned _ _ _ _ _ _ V2 Vw).
    + destruct x2 as [s2 | s2 | | s2 m2 e2]; cbn in H; try contradiction. exact I.
    + destruct x2 as [s2 | s2 | | s2 m2 e2]; cbn in H; try contradiction.
      * cbn [SFmul]. apply mag_leq_infinity, binary_round_aux_not_nan; [lia |].
        exact (mul_aligned _ _ _ _ _ _ V1 Vw).
      * cbn [SFmul].
        apply binary_round_aux_mono
          with (x1 := inject_Z (Zpos (m1 * mw))) (x2 := inject_Z (Zpos (m2 * mw)));
          try lia; try exact (mul_aligned _ _ _ _ _ _ V1 Vw);
          try exact (mul_aligned _ _ _ _ _ _ V2 Vw); try apply loc_ok_exact.
        rewrite <- !dval_unfold. rewrite !Pos2Z.inj_mul, !dval_mul.
        pose proof (dval_pos (Zpos mw) ew ltac:(lia)). nra.
Qed.

Lemma new_location_eq (d r : Z) :
  new_location d r =
  if Z.even d
  then (if r =? 0 then loc_Exact else loc_Inexact (2 * r ?= d))
  else (if r =? 0 then loc_Exact
        else loc_Inexact (match 2 * r + 1 ?= d with Gt => Gt | _ => Lt end)).
Proof.
  unfold new_location, new_location_even, new_location_odd.
  destruct d as [| [pd | pd |] | [pd | pd |]]; reflexivity.
Qed.

(** The quotient [SFdiv] hands to the rounding, with its location. *)
Lemma new_location_loc (q r d : Z) :
  0 < d -> 0 <= r < d ->
  loc_ok (inject_Z q + inject_Z r / inject_Z d) q (new_location d r).
Proof.
  intros Hd Hr.
  assert (Pd : (0 < inject_Z d)%Q).
  { change 0%Q with (inject_Z 0). now rewrite <- Zlt_Qlt. }
  assert (Pr : (0 <= inject_Z r)%Q).
  { change 0%Q with (inject_Z 0). rewrite <- Zle_Qle. lia. }
  rewrite new_location_eq.
  destruct (Z.eq_dec r 0) as [-> | Nr].
  - rewrite Z.eqb_refl.
    destruct (Z.even d); cbn [loc_ok]; unfold Qdiv; change (inject_Z 0) with 0%Q; ring.
  - assert (Zb : (r =? 0) = false) by (apply Z.eqb_neq; exact Nr).
    rewrite Zb.
    assert (P1 : (0 < inject_Z r)%Q).
    { change 0%Q with (inject_Z 0). rewrite <- Zlt_Qlt. lia. }
    assert (Hlt1 : (inject_Z r / inject_Z d < 1)%Q).
    { apply Qlt_shift_div_r; [exact Pd |]. rewrite Qmult_1_l, <- Zlt_Qlt. lia. }
    assert (Hgt0 : (0 < inject_Z r / inject_Z d)%Q).
    { apply Qlt_shift_div_l; [exact Pd |]. rewrite Qmult_0_l. exact P1. }
    assert (Hcmp : forall c, (2 * r ?= d) = c ->
              Qcompare (inject_Z q + inject_Z r / inject_Z d) (inject_Z q + (1 # 2)) = c).
    { intros c Hc.
      assert (Hhalf : (inject_Z r / inject_Z d ?= 1 # 2)%Q = c).
      { rewrite <- Hc. destruct (Z.compare_spec (2 * r) d) as [E | L | G].
        - apply -> Qeq_alt. subst d. rewrite inject_Z_mult.
          change (inject_Z 2) with 2%Q. field. lra.
        - apply -> Qlt_alt. apply Qlt_shift_div_r; [exact Pd |].
          rewrite Zlt_Qlt, inject_Z_mult in L. change (inject_Z 2) with 2%Q in L. lra.
        - apply -> Qgt_alt. apply Qlt_shift_div_l; [exact Pd |].
          rewrite Zlt_Qlt, inject_Z_mult in G. change (inject_Z 2) with 2%Q in G. lra. }
      destruct c; qcmp; lra. }
    destruct (Z.even d) eqn:Ev; cbn [loc_ok]; rewrite inject_Z_succ.
    + split; [lra |]. split; [lra |]. now apply Hcmp.
    + split; [lra |]. split; [lra |].
      assert (Hodd : 2 * r <> d).
      { intros <-. rewrite Z.even_mul in Ev. discriminate. }
      destruct (Z.compare_spec (2 * r + 1) d) as [E | L | G].
      * apply Hcmp. apply Z.compare_lt_iff. lia.
      * apply Hcmp. apply Z.compare_lt_iff. lia.
      * apply Hcmp. apply Z.compare_gt_iff. lia.
Qed.

Lemma SFdiv_core_binary_loc (mx my : positive) (ex ey : Z) :
  exists q e' l x,
    SFdiv_core_binary prec emax (Zpos mx) ex (Zpos my) ey = (q, e', l) /\
    0 <= q /\ e' <= fexp prec emax (Zdigits2 q + e') /\
    loc_ok x q l /\
    (x * 2 ^ e' == dval (Zpos mx) ex / dval (Zpos my) ey)%Q.
Proof.
  destruct (SFdiv_core_binary_spec mx my ex ey) as (q & e' & l & E & Hq & Hn & _).
  revert E. unfold SFdiv_core_binary.
  set (d1 := Zdigits2 (Zpos mx)). set (d2 := Zdigits2 (Zpos my)).
  set (e0 := Z.min (fexp prec emax (d1 + ex - (d2 + ey))) (ex - ey)).
  set (s := ex - ey - e0).
  assert (Hs : 0 <= s) by (subst s e0; lia).
  set (m' := match s with Zpos _ => Z.shiftl (Zpos mx) s | Z0 => Zpos mx | Zneg _ => 0 end).
  assert (Hm' : m' = Zpos mx * 2 ^ s).
  { subst m'. clearbody s. destruct s; try lia.
    rewrite Z.shiftl_mul_pow2 by lia. reflexivity. }
  pose proof (Z_div_mod m' (Zpos my) ltac:(lia)) as DM.
  destruct (Z.div_eucl m' (Zpos my)) as [q0 r] eqn:Ediv.
  destruct DM as [Dq Dr]. intros E. injection E as <- <- <-.
  exists q0, e0, (new_location (Zpos my) r),
         (inject_Z q0 + inject_Z r / inject_Z (Zpos my))%Q.
  split; [reflexivity |]. split; [exact Hq |]. split; [exact Hn |].
  split; [apply new_location_loc; lia |].
  assert (Py : (0 < inject_Z (Zpos my))%Q) by reflexivity.
  assert (Hsum : (inject_Z q0 + inject_Z r / inject_Z (Zpos my)
                  == inject_Z m' / inject_Z (Zpos my))%Q).
  { rewrite Dq, inject_Z_plus, inject_Z_mult. field. lra. }
  rewrite Hsum, Hm', inject_Z_mult, pow2_inject by exact Hs.
  assert (Eex : (2 ^ ex == 2 ^ s * 2 ^ e0 * 2 ^ ey)%Q).
  { rewrite <- !pow2_add. replace (s + e0 + ey) with ex by (subst s; lia). reflexivity. }
  unfold dval. rewrite Eex.
  pose proof (pow2_pos ey). pose proof (pow2_pos e0). pose proof (pow2_pos s).
  field. split; lra.
Qed.

(** [|x1| / |y1| <= |x2| / |y2|] gives [|x1 / y1| <= |x2 / y2|]. *)
Lemma SFdiv_mono (sx1 sy1 sx2 sy2 : bool) (mx1 my1 mx2 my2 : positive)
    (ex1 ey1 ex2 ey2 : Z) :
  (dval (Zpos mx1) ex1 / dval (Zpos my1) ey1
   <= dval (Zpos mx2) ex2 / dval (Zpos my2) ey2)%Q ->
  mag_leq (SFdiv prec emax (S754_finite sx1 mx1 ex1) (S754_finite sy1 my1 ey1))
          (SFdiv prec emax (S754_finite sx2 mx2 ex2) (S754_finite sy2 my2 ey2)).
Proof.
  intros H. rewrite !SFdiv_finite.
  destruct (SFdiv_core_binary_loc mx1 my1 ex1 ey1)
    as (q1 & e1 & l1 & x1 & -> & Q1 & N1 & L1 & V1).
  destruct (SFdiv_core_binary_loc mx2 my2 ex2 ey2)
    as (q2 & e2 & l2 & x2 & -> & Q2 & N2 & L2 & V2).
  apply binary_round_aux_mono with (x1 := x1) (x2 := x2); try assumption.
  now rewrite V1, V2.
Qed.

(** ** [round] is monotone *)

Lemma rne_compat (x y : Q) : (x == y)%Q -> rne x = rne y.
Proof.
  intros E. apply Z.le_antisymm; apply rne_mono; rewrite E; apply Qle_refl.
Qed.

Lemma rne_inject_Z (z : Z) : rne (inject_Z z) = z.
Proof. symmetry. exact (rne_loc (inject_Z z) z loc_Exact (loc_ok_exact z)). Qed.

(** [round] of a float is the rounding of its value. *)
Lemma round_half_even_rne (m e : Z) : 0 <= m -> round_half_even m e = rne (dval m e).
Proof.
  intros Hm. unfold round_half_even. destruct (Z.leb_spec 0 e) as [He | He].
  - rewrite <- (rne_inject_Z (m * 2 ^ e)). apply rne_compat.
    rewrite inject_Z_mult, pow2_inject by exact He. reflexivity.
  - set (d := 2 ^ (- e)).
    assert (Hd : 0 < d) by (apply Z.pow_pos_nonneg; lia).
    pose proof (Z_div_mod_eq_full m d) as Dm.
    pose proof (Z.mod_pos_bound m d Hd) as Dr.
    set (q := m / d) in *. set (r := m mod d) in *.
    pose proof (rne_loc _ _ _ (new_location_loc q r d Hd Dr)) as E.
    assert (V : (inject_Z q + inject_Z r / inject_Z d == dval m e)%Q).
    { assert (Pd : (0 < inject_Z d)%Q).
      { change 0%Q with (inject_Z 0). now rewrite <- Zlt_Qlt. }
      unfold dval. rewrite Dm, inject_Z_plus, inject_Z_mult.
      assert (E2 : (2 ^ e * inject_Z d == 1)%Q).
      { subst d. rewrite pow2_inject by lia. rewrite <- pow2_add.
        replace (e + - e) with 0 by lia. reflexivity. }
      assert (E3 : (2 ^ e == / inject_Z d)%Q).
      { apply Qmult_inj_r with (z := inject_Z d); [lra |].
        rewrite E2. field. lra. }
      rewrite E3. field. lra. }
    rewrite <- (rne_compat _ _ V), <- E.
    rewrite new_location_eq.
    assert (Ev : Z.even d = true).
    { subst d. rewrite Z.even_pow by lia. reflexivity. }
    rewrite Ev. destruct (Z.eqb_spec r 0) as [-> | Nr].
    + cbn [round_nearest_even]. destruct (Z.compare_spec (2 * 0) d); lia.
    + cbn [round_nearest_even]. destruct (2 * r ?= d); reflexivity.
Qed.

(** The integers [round] gives to two floats that are not negative follow
    their magnitudes. *)
Lemma py_round_mono (y1 y2 : spec_float) (r1 r2 : Z) :
  float_sign_is false y1 -> float_sign_is false y2 -> mag_leq y1 y2 ->
  py_round (PyFloat y1) = Ok r1 -> py_round (PyFloat y2) = Ok r2 ->
  r1 <= r2.
Proof.
  intros S1 S2 H E1 E2.
  destruct y1 as [s1 | s1 | | s1 m1 e1], y2 as [s2 | s2 | | s2 m2 e2];
    cbn in S1, S2, H, E1, E2; try contradiction; try discriminate; subst.
  - injection E1 as <-. injection E2 as <-. lia.
  - injection E1 as <-. injection E2 as <-. apply round_half_even_nonneg. lia.
  - injection E1 as <-. injection E2 as <-.
    rewrite !round_half_even_rne by lia. now apply rne_mono.
Qed.

(** The integer [round] gives to a float that is not positive. *)
Lemma py_round_nonpos (y : spec_float) (r : Z) :
  (float_sign_is true y \/ is_zero y = true) -> py_round (PyFloat y) = Ok r -> r <= 0.
Proof.
  intros S E. destruct y as [s | s | | s m e]; cbn in S, E; try discriminate.
  - injection E as <-. lia.
  - destruct S as [-> | ?]; [| discriminate]. injection E as <-.
    pose proof (round_half_even_nonneg (Zpos m) e ltac:(lia)). lia.
Qed.

(** ** The fill grows with the percentage *)

Lemma bar_fill_inv (pct : pynum) (w f : Z) :
  bar_fill pct w = Ok f ->
  exists x g r,
    py_truediv pct (PyInt 100) = Ok (PyFloat x) /\
    float_of_int w = Ok g /\
    py_round (PyFloat (SFmul prec emax x g)) = Ok r /\
    f = Z.max 0 (Z.min w r).
Proof.
  unfold bar_fill. intros H.
  destruct (py_truediv pct (PyInt 100)) as [x |] eqn:Ex; [| discriminate].
  assert (Hx : exists x', x = PyFloat x').
  { destruct pct as [a | f0].
    - cbn [py_truediv] in Ex.
      destruct (int_truediv a 100); [| discriminate]. injection Ex as <-. eauto.
    - rewrite py_truediv_float_100 in Ex. injection Ex as <-. eauto. }
  destruct Hx as [x' ->]. cbn [Res.bind py_mul] in H.
  destruct (float_of_int w) as [g |] eqn:Eg; [| discriminate].
  cbn [Res.bind] in H.
  destruct (py_round (PyFloat (SFmul prec emax x' g))) as [r |] eqn:Er; [| discriminate].
  cbn [Res.bind] in H. injection H as <-.
  exists x', g, r. repeat split; assumption.
Qed.

Lemma py_le_trans (x y z : pynum) :
  py_le x y = true -> py_le y z = true -> py_le x z = true.
Proof.
  unfold py_le, py_compare.
  destruct (ereal_of x) as [| | | m1 e1], (ereal_of y) as [| | | m2 e2],
           (ereal_of z) as [| | | m3 e3]; cbn [ereal_compare];
    try discriminate; try reflexivity.
  intros H1 H2.
  assert (A : dyadic_compare m1 e1 m2 e2 <> Gt) by (destruct (dyadic_compare m1 e1 m2 e2); congruence).
  assert (B : dyadic_compare m2 e2 m3 e3 <> Gt) by (destruct (dyadic_compare m2 e2 m3 e3); congruence).
  apply dyadic_compare_le in A, B.
  assert (C : dyadic_compare m1 e1 m3 e3 <> Gt) by (apply dyadic_compare_le; lra).
  destruct (dyadic_compare m1 e1 m3 e3); congruence.
Qed.

(** A percentage is at most 0, or positive and finite, or the positive
    infinity, or not a number. *)
Lemma pct_cases (p : pynum) :
  py_le p (PyInt 0) = true \/
  (exists m e, ereal_of p = Dyadic (Zpos m) e) \/
  p = PyFloat (S754_infinity false) \/ p = PyFloat S754_nan.
Proof.
  destruct p as [[| a | a] | [s | [] | | [] m e]]; cbn [ereal_of ereal_of_float signed];
    eauto; left; try reflexivity.
  apply py_le_finite. pose proof (dval_signed_neg m e).
  change (inject_Z 0) with 0%Q. lra.
Qed.

Lemma positive_not_le_0 (p : pynum) (m : positive) (e : Z) :
  ereal_of p = Dyadic (Zpos m) e -> py_le p (PyInt 0) = false.
Proof.
  intros E. unfold py_le, py_compare. rewrite E. cbn [ereal_of ereal_compare].
  pose proof (dyadic_compare_le (Zpos m) e 0 0) as [H _].
  destruct (dyadic_compare (Zpos m) e 0 0) eqn:C; try reflexivity;
    (assert (A : (dval (Zpos m) e <= dval 0 0)%Q) by (apply H; congruence);
     pose proof (dval_pos (Zpos m) e ltac:(lia));
     assert (Z0 : (dval 0 0 == 0)%Q) by reflexivity; lra).
Qed.

Lemma positive_le (p1 p2 : pynum) (m1 m2 : positive) (e1 e2 : Z) :
  ereal_of p1 = Dyadic (Zpos m1) e1 -> ereal_of p2 = Dyadic (Zpos m2) e2 ->
  py_le p1 p2 = true -> (dval (Zpos m1) e1 <= dval (Zpos m2) e2)%Q.
Proof.
  intros E1 E2. unfold py_le, py_compare. rewrite E1, E2. cbn [ereal_compare].
  intros H. apply dyadic_compare_le.
  destruct (dyadic_compare (Zpos m1) e1 (Zpos m2) e2); congruence.
Qed.

(** The hundredth of a percentage that is at most 0 is a zero or negative. *)
Lemma fraction_nonpos (p : pynum) (x : spec_float) :
  py_le p (PyInt 0) = true -> py_truediv p (PyInt 100) = Ok (PyFloat x) ->
  (x = S754_infinity true \/ valid_binary prec emax x = true) /\
  (float_sign_is true x \/ is_zero x = true).
Proof.
  intros Hle Hx.
  destruct p as [[| a | a] | [s | [] | | [] m e]];
    try (cbn in Hle; discriminate).
  - injection Hx as <-. split; right; reflexivity.
  - change (Zneg a) with (signed true a) in Hx. rewrite py_truediv_int_100 in Hx.
    destruct (SFdiv_valid true false a 100 0 0) as [V S].
    destruct (SFdiv prec emax (S754_finite true a 0) (S754_finite false 100 0)) eqn:E;
      try discriminate; injection Hx as <-; (split; [right; exact V | left; exact S]).
  - injection Hx as <-. split; right; reflexivity.
  - injection Hx as <-. split; left; reflexivity.
  - rewrite py_truediv_float_100 in Hx. injection Hx as <-.
    destruct (SFdiv_valid true false m 7036874417766400 e (-46)) as [V S].
    split; [right; exact V | left; exact S].
  - apply py_le_finite in Hle. pose proof (dval_pos (Zpos m) e ltac:(lia)).
    change (inject_Z 0) with 0%Q in Hle. cbn [signed] in Hle. lra.
Qed.

(** The hundredth of a positive finite percentage is a quotient by a float
    of value 100. *)
Lemma fraction_pos (p : pynum) (m : positive) (e : Z) (x : spec_float) :
  ereal_of p = Dyadic (Zpos m) e -> py_truediv p (PyInt 100) = Ok (PyFloat x) ->
  exists my ey, (dval (Zpos my) ey == 100)%Q /\
    x = SFdiv prec emax (S754_finite false m e) (S754_finite false my ey).
Proof.
  intros E Hx.
  destruct p as [[| a | a] | [s | s | | s m' e']];
    cbn [ereal_of ereal_of_float] in E; try discriminate.
  - injection E as <- <-.
    change (Zpos a) with (signed false a) in Hx. rewrite py_truediv_int_100 in Hx.
    exists 100%positive, 0. split; [reflexivity |].
    destruct (SFdiv prec emax (S754_finite false a 0) (S754_finite false 100 0));
      try discriminate; now injection Hx as <-.
  - destruct s; try discriminate.
  - destruct s; cbn [signed] in E; try discriminate. injection E as <- <-.
    rewrite py_truediv_float_100 in Hx. injection Hx as <-.
    exists 7036874417766400%positive, (-46). split; [exact f100_value | reflexivity].
Qed.

(** No bar for a percentage that is infinite or not a number. *)
Lemma bar_fill_not_finite (p : pynum) (w f : Z) :
  p = PyFloat (S754_infinity false) \/ p = PyFloat (S754_infinity true) \/
  p = PyFloat S754_nan ->
  bar_fill p w <> Ok f.
Proof.
  intros Hp H. apply bar_fill_inv in H as (x & g & r & Hx & Hg & Hr & _).
  assert (Hg' : g <> S754_infinity true /\ g <> S754_infinity false).
  { unfold float_of_int in Hg.
    destruct (binary_normalize prec emax w 0 false); try discriminate;
      injection Hg as <-; split; discriminate. }
  destruct Hg' as [G1 G2].
  destruct Hp as [-> | [-> | ->]]; rewrite py_truediv_float_100 in Hx;
    injection Hx as <-; destruct g as [s | [] | | s mg eg]; cbn in Hr;
    try discriminate; congruence.
Qed.

(** The fill of a percentage that is at most 0. *)
Lemma bar_fill_nonpos (p : pynum) (w f : Z) :
  py_le p (PyInt 0) = true -> bar_fill p w = Ok f -> f = 0.
Proof.
  intros Hle H.
  destruct (Z_lt_le_dec w 1) as [Hw | Hw].
  { apply bar_fill_inv in H as (x & g & r & _ & _ & _ & ->). lia. }
  apply bar_fill_inv in H as (x & g & r & Hx & Hg & Hr & ->).
  destruct (float_of_int_ok w g Hw Hg) as (mg & eg & -> & Vg & _).
  destruct (fraction_nonpos p x Hle Hx) as [Vx Sx].
  assert (Hr0 : r <= 0); [| lia].
  destruct Vx as [-> | Vx]; [cbn in Hr; discriminate |].
  apply (py_round_nonpos _ _ ) in Hr; [exact Hr |].
  destruct Sx as [Sx | Zx].
  - destruct (SFmul_sign x _ true false Vx Vg Sx eq_refl) as [N | S].
    + rewrite N in Hr. cbn in Hr. discriminate.
    + now left.
  - destruct x; try discriminate. right. reflexivity.
Qed.

Lemma bar_fill_nonneg (p : pynum) (w f : Z) : bar_fill p w = Ok f -> 0 <= f.
Proof. intros H. apply bar_fill_inv in H as (x & g & r & _ & _ & _ & ->). lia. Qed.

(** The fill does not shrink when the percentage grows. *)
Lemma bar_fill_mono (p1 p2 : pynum) (w f1 f2 : Z) :
  py_le p1 p2 = true -> bar_fill p1 w = Ok f1 -> bar_fill p2 w = Ok f2 ->
  f1 <= f2.
Proof.
  intros Hle H1 H2.
  pose proof (bar_fill_nonneg _ _ _ H2) as P2.
  destruct (pct_cases p1) as [N1 | [(m1 & e1 & E1) | [-> | ->]]].
  - rewrite (bar_fill_nonpos _ _ _ N1 H1). exact P2.
  - destruct (pct_cases p2) as [N2 | [(m2 & e2 & E2) | [-> | ->]]].
    + pose proof (py_le_trans _ _ _ Hle N2) as C.
      rewrite (positive_not_le_0 _ _ _ E1) in C. discriminate.
    + pose proof (positive_le _ _ _ _ _ _ E1 E2 Hle) as Hv.
      destruct (Z_lt_le_dec w 1) as [Hw | Hw].
      { apply bar_fill_inv in H1 as (? & ? & ? & _ & _ & _ & ->).
        apply bar_fill_inv in H2 as (? & ? & ? & _ & _ & _ & ->). lia. }
      apply bar_fill_inv in H1 as (x1 & g & r1 & Hx1 & Hg & Hr1 & ->).
      apply bar_fill_inv in H2 as (x2 & g' & r2 & Hx2 & Hg' & Hr2 & ->).
      rewrite Hg in Hg'. injection Hg' as <-.
      destruct (float_of_int_ok w g Hw Hg) as (mg & eg & -> & Vg & _).
      destruct (fraction_pos _ _ _ _ E1 Hx1) as (my1 & ey1 & D1 & ->).
      destruct (fraction_pos _ _ _ _ E2 Hx2) as (my2 & ey2 & D2 & ->).
      destruct (SFdiv_valid false false m1 my1 e1 ey1) as [V1 S1].
      destruct (SFdiv_valid false false m2 my2 e2 ey2) as [V2 S2].
      assert (Hx : mag_leq
                (SFdiv prec emax (S754_finite false m1 e1) (S754_finite false my1 ey1))
                (SFdiv prec emax (S754_finite false m2 e2) (S754_finite false my2 ey2))).
      { apply SFdiv_mono. rewrite D1, D2.
        unfold Qdiv. apply Qmult_le_compat_r; [exact Hv |].
        apply Qinv_le_0_compat. lra. }
      set (x1 := SFdiv prec emax (S754_finite false m1 e1) (S754_finite false my1 ey1)) in *.
      set (x2 := SFdiv prec emax (S754_finite false m2 e2) (S754_finite false my2 ey2)) in *.
      assert (Hy : mag_leq (SFmul prec emax x1 (S754_finite false mg eg))
                           (SFmul prec emax x2 (S754_finite false mg eg))).
      { apply SFmul_mono; try assumption; try discriminate. }
      assert (r1 <= r2); [| lia].
      apply (py_round_mono _ _ _ _ ) with (4 := Hr1) (5 := Hr2); try exact Hy.
      * destruct (SFmul_sign x1 _ false false V1 Vg S1 eq_refl) as [N | S]; [| exact S].
        rewrite N in Hr1. discriminate.
      * destruct (SFmul_sign x2 _ false false V2 Vg S2 eq_refl) as [N | S]; [| exact S].
        rewrite N in Hr2. discriminate.
    + exfalso. apply (bar_fill_not_finite _ w f2 (or_introl eq_refl)). exact H2.
    + unfold py_le, py_compare in Hle. rewrite E1 in Hle. discriminate.
  - exfalso. apply (bar_fill_not_finite _ w f1 (or_introl eq_refl)). exact H1.
  - discriminate.
Qed.


(** * Further properties of the bar *)

Lemma bar_cells_count_nat (pct : pynum) (theme : Theme) (rb : bool) (off filled empty : Z) :
  plain_theme theme ->
  let doc := filled_region pct theme rb off filled +:+ empty_region empty in
  filled_cells doc = Z.to_nat filled /\ empty_cells doc = Z.to_nat empty.
Proof.
  intros Hth. cbv zeta. unfold filled_cells, empty_cells, empty_region.
  rewrite !count_byte_app, !count_byte_span by auto.
  unfold py_str_mul. rewrite !count_byte_repeat.
  change (count_byte "129" "#3a3a3a") with O. change (count_byte "128" "#3a3a3a") with O.
  change (count_byte "129" LIGHT) with O. change (count_byte "128" LIGHT) with 1%nat.
  unfold filled_region. destruct (rb && (0 <? filled)).
  - destruct (rainbow_cells_count off (Z.to_nat filled) 0) as [A B].
    unfold filled_cells, empty_cells in A, B. rewrite A, B. lia.
  - rewrite !count_byte_span by auto. unfold py_str_mul.
    rewrite !count_byte_repeat.
    destruct (bar_color_glyph_free pct theme Hth) as [-> ->].
    change (count_byte "129" HEAVY) with 1%nat. change (count_byte "128" HEAVY) with O.
    lia.
Qed.

Lemma run_render_bar_html_inv (pct : pynum) (theme : Theme) (w : Z) (rb : bool)
    (off : Z) (doc : string) :
  run (render_bar_html pct theme w rb off) = Ok doc ->
  exists f, bar_fill pct w = Ok f /\
            doc = filled_region pct theme rb off f +:+ empty_region (w - f).
Proof.
  rewrite run_render_bar_html. destruct (bar_fill pct w) as [f |]; [| discriminate].
  cbn [Res.bind]. intros H. injection H as <-. eauto.
Qed.

(** X1.  The bar does not shrink when the percentage grows: of two
    percentages, [int] or [float], that [render_bar_html] draws on the same
    width, the greater one gets at least as many filled cells and at most as
    many empty ones. *)
Theorem fill_monotone (p1 p2 : pynum) (theme : Theme) (w : Z) (rb : bool) (off : Z)
    (doc1 doc2 : string) :
  py_le p1 p2 = true ->
  run (render_bar_html p1 theme w rb off) = Ok doc1 ->
  run (render_bar_html p2 theme w rb off) = Ok doc2 ->
  exists f1 f2,
    bar_fill p1 w = Ok f1 /\ bar_fill p2 w = Ok f2 /\ f1 <= f2 /\
    (plain_theme theme ->
       (filled_cells doc1 <= filled_cells doc2)%nat /\
       (empty_cells doc2 <= empty_cells doc1)%nat).
Proof.
  intros Hle H1 H2.
  apply run_render_bar_html_inv in H1 as (f1 & F1 & ->).
  apply run_render_bar_html_inv in H2 as (f2 & F2 & ->).
  pose proof (bar_fill_mono p1 p2 w f1 f2 Hle F1 F2) as Hm.
  exists f1, f2. repeat apply conj; try assumption; intros Hth;
    destruct (bar_cells_count_nat p1 theme rb off f1 (w - f1) Hth) as [A1 B1];
    destruct (bar_cells_count_nat p2 theme rb off f2 (w - f2) Hth) as [A2 B2];
    rewrite ?A1, ?A2, ?B1, ?B2; lia.
Qed.

Lemma fill_monotone_witness :
  exists f1 f2,
    bar_fill (PyInt 30) 10 = Ok f1 /\ bar_fill (PyFloat f62_5) 10 = Ok f2 /\ f1 <= f2 /\
    (plain_theme default_theme ->
       (filled_cells (span "#22c55e" (py_str_mul HEAVY 3)
                      +:+ span "#3a3a3a" (py_str_mul LIGHT 7))
        <= filled_cells (span "#eab308" (py_str_mul HEAVY 6)
                         +:+ span "#3a3a3a" (py_str_mul LIGHT 4)))%nat /\
       (empty_cells (span "#eab308" (py_str_mul HEAVY 6)
                     +:+ span "#3a3a3a" (py_str_mul LIGHT 4))
        <= empty_cells (span "#22c55e" (py_str_mul HEAVY 3)
                        +:+ span "#3a3a3a" (py_str_mul LIGHT 7)))%nat).
Proof.
  apply (fill_monotone (PyInt 30) (PyFloat f62_5) default_theme 10 false 0);
    reflexivity.
Defined.

Lemma py_ge_le_flip (x y : pynum) : py_ge x y = py_le y x.
Proof.
  unfold py_ge, py_le, py_compare.
  destruct (ereal_of x) as [| | | m1 e1], (ereal_of y) as [| | | m2 e2];
    cbn [ereal_compare]; try reflexivity.
  rewrite (dyadic_compare_antisym m1 e1 m2 e2).
  destruct (dyadic_compare m1 e1 m2 e2); reflexivity.
Qed.

Lemma py_lt_le (x y : pynum) : py_lt x y = true -> py_le x y = true.
Proof.
  unfold py_lt, py_le. destruct (py_compare x y) as [[] |]; congruence.
Qed.

(** X2.  On the width 10 of the composers the color of a tiered bar and its
    length go together: a bar in the high color has at least 8 of its 10
    cells filled, one in the mid color from 5 to 8, one in the low color at
    most 5. *)
Theorem tier_bounds_fill (pct : pynum) (theme : Theme) (f : Z) :
  bar_fill pct 10 = Ok f ->
  (py_ge pct (PyInt 80) = true ->
     bar_color pct theme = high theme /\ 8 <= f <= 10) /\
  (py_ge pct (PyInt 50) = true -> py_lt pct (PyInt 80) = true ->
     bar_color pct theme = mid theme /\ 5 <= f <= 8) /\
  (py_lt pct (PyInt 50) = true ->
     bar_color pct theme = low theme /\ 0 <= f <= 5).
Proof.
  intros Hf.
  assert (B : 0 <= f <= 10).
  { apply bar_fill_inv in Hf as (x & g & r & _ & _ & _ & ->). lia. }
  assert (F80 : bar_fill (PyInt 80) 10 = Ok 8) by reflexivity.
  assert (F50 : bar_fill (PyInt 50) 10 = Ok 5) by reflexivity.
  repeat apply conj.
  - intros H. split; [now apply bar_color_high |].
    rewrite py_ge_le_flip in H.
    pose proof (bar_fill_mono _ _ _ _ _ H F80 Hf). lia.
  - intros H1 H2. split; [now apply bar_color_mid |].
    rewrite py_ge_le_flip in H1.
    pose proof (bar_fill_mono _ _ _ _ _ H1 F50 Hf).
    pose proof (bar_fill_mono _ _ _ _ _ (py_lt_le _ _ H2) Hf F80). lia.
  - intros H. split; [now apply bar_color_low |].
    pose proof (bar_fill_mono _ _ _ _ _ (py_lt_le _ _ H) Hf F50). lia.
Qed.

Lemma tier_bounds_fill_witness :
  (bar_color (PyInt 88) default_theme = "#ef4444" /\ 8 <= 9 <= 10) /\
  (bar_color (PyFloat f62_5) default_theme = "#eab308" /\ 5 <= 6 <= 8) /\
  (bar_color (PyInt 12) default_theme = "#22c55e" /\ 0 <= 1 <= 5).
Proof.
  destruct (tier_bounds_fill (PyInt 88) default_theme 9 eq_refl) as (H1 & _).
  destruct (tier_bounds_fill (PyFloat f62_5) default_theme 6 eq_refl) as (_ & H2 & _).
  destruct (tier_bounds_fill (PyInt 12) default_theme 1 eq_refl) as (_ & _ & H3).
  split; [| split].
  - apply H1; reflexivity.
  - apply H2; reflexivity.
  - apply H3; reflexivity.
Defined.

(** X3.  On the width 10 of the composers the rounding errors of binary64
    never show: for every [int] percentage the number of filled cells is the
    exact tenth of the percentage, rounded half to even and clamped to
    [0, 10]. *)
Theorem fill_of_ten_exact (p : Z) (theme : Theme) (rb : bool) (off : Z) :
  - 2 ^ 960 <= p <= 2 ^ 960 ->
  let f := Z.max 0 (Z.min 10 (rne (inject_Z p / 10))) in
  bar_fill (PyInt p) 10 = Ok f /\
  run (render_bar_html (PyInt p) theme 10 rb off)
  = Ok (filled_region (PyInt p) theme rb off f +:+ empty_region (10 - f)).
Proof.
  intros Hp f.
  assert (Hf : bar_fill (PyInt p) 10 = Ok f).
  { destruct (bar_fill_moderate (PyInt p) 10) as [f0 Hf0].
    - rewrite py_ge_int. apply Z.leb_le. unfold moderate. lia.
    - rewrite py_le_int. apply Z.leb_le. unfold moderate. lia.
    - lia.
    - assert (R0 : rne (inject_Z 0 / 10) = 0) by reflexivity.
      assert (R10 : rne (inject_Z 100 / 10) = 10) by reflexivity.
      assert (Hmono : forall a b : Z, a <= b -> rne (inject_Z a / 10) <= rne (inject_Z b / 10)).
      { intros a b Hab. apply rne_mono. unfold Qdiv.
        apply Qmult_le_compat_r; [now rewrite <- Zle_Qle |].
        apply Qinv_le_0_compat. lra. }
      destruct (Z_lt_le_dec p 0) as [Hneg | Hnn].
      + destruct (bar_fill_neg (PyInt p) 10) as [E | E].
        * rewrite py_lt_int. apply Z.ltb_lt. exact Hneg.
        * lia.
        * congruence.
        * rewrite E. f_equal. subst f. pose proof (Hmono p 0 ltac:(lia)). lia.
      + destruct (Z_lt_le_dec 100 p) as [Hhi | Hlo].
        * destruct (bar_fill_hi (PyInt p) 10) as [E | E].
          -- rewrite py_ge_int. apply Z.leb_le. lia.
          -- lia.
          -- congruence.
          -- rewrite E. f_equal. subst f. pose proof (Hmono 100 p ltac:(lia)). lia.
        * assert (Hall : forallb (fun q =>
                    match bar_fill (PyInt q) 10 with
                    | Ok f' => f' =? Z.max 0 (Z.min 10 (rne (inject_Z q / 10)))
                    | Raise _ => false
                    end) (seqZ 0 101) = true) by (vm_compute; reflexivity).
          rewrite forallb_forall in Hall.
          assert (Hin : In p (seqZ 0 101)).
          { apply list_elem_of_In, elem_of_seqZ. lia. }
          specialize (Hall p Hin). cbv beta in Hall.
          destruct (bar_fill (PyInt p) 10) as [f' |]; [| discriminate].
          apply Z.eqb_eq in Hall. subst f. congruence. }
  split; [exact Hf |]. rewrite run_render_bar_html, Hf. reflexivity.
Qed.

Lemma fill_of_ten_exact_witness :
  bar_fill (PyInt 45) 10 = Ok 4 /\
  run (render_bar_html (PyInt 45) default_theme 10 false 0)
  = Ok (filled_region (PyInt 45) default_theme false 0 4 +:+ empty_region (10 - 4)).
Proof.
  apply (fill_of_ten_exact 45 default_theme false 0). lia.
Defined.

(** ** Percentages that are not finite, widths that are not positive *)

Lemma float_of_int_shape (w : Z) (g : spec_float) :
  float_of_int w = Ok g ->
  (w = 0 /\ g = S754_zero false) \/
  (w <> 0 /\ exists s m e, g = S754_finite s m e /\
                           valid_binary prec emax g = true).
Proof.
  unfold float_of_int. destruct w as [| p | p]; cbn [binary_normalize].
  - intros H. injection H as <-. now left.
  - intros H. right. split; [lia |].
    destruct (binary_round_facts false p 0) as (V & _ & Lo & _).
    specialize (Lo 1 0 ltac:(unfold prec; lia) ltac:(lia)
                   ltac:(apply dval_le; lia)).
    destruct (binary_round prec emax false p 0) as [s | s | | s m e];
      cbn in Lo; try contradiction; try discriminate.
    injection H as <-. eauto 6.
  - intros H. right. split; [lia |].
    destruct (binary_round_facts true p 0) as (V & _ & Lo & _).
    specialize (Lo 1 0 ltac:(unfold prec; lia) ltac:(lia)
                   ltac:(apply dval_le; lia)).
    destruct (binary_round prec emax true p 0) as [s | s | | s m e];
      cbn in Lo; try contradiction; try discriminate.
    injection H as <-. eauto 6.
Qed.

Lemma float_of_int_raises (w : Z) (e : exn) :
  float_of_int w = Raise e -> e = OverflowError.
Proof.
  unfold float_of_int. destruct (binary_normalize prec emax w 0 false);
    intros H; try discriminate. now injection H as <-.
Qed.

(** X4.  [render_bar_html] draws no bar for a percentage that is not finite:
    [round] raises [ValueError] when the percentage is not a number, and
    [OverflowError] when it is an infinity, but for the width 0, where the
    product of the infinity and 0 is not a number either.  A width too large
    for a float raises [OverflowError] before that. *)
Theorem percentage_not_finite (theme : Theme) (w : Z) (rb : bool) (off : Z) :
  match float_of_int w with
  | Ok _ =>
      run (render_bar_html (PyFloat S754_nan) theme w rb off) = Raise ValueError /\
      (forall s,
         run (render_bar_html (PyFloat (S754_infinity s)) theme w rb off)
         = Raise (if w =? 0 then ValueError else OverflowError))
  | Raise e =>
      e = OverflowError /\
      run (render_bar_html (PyFloat S754_nan) theme w rb off) = Raise OverflowError /\
      (forall s,
         run (render_bar_html (PyFloat (S754_infinity s)) theme w rb off)
         = Raise OverflowError)
  end.
Proof.
  destruct (float_of_int w) as [g | e] eqn:Eg.
  - split; [| intros s]; rewrite run_render_bar_html; unfold bar_fill;
      rewrite py_truediv_float_100; cbn [Res.bind];
      rewrite (py_mul_float_int _ w g Eg); cbn [Res.bind].
    + destruct g; reflexivity.
    + destruct (float_of_int_shape w g Eg) as [[-> ->] | (Hw & s' & m & e & -> & _)].
      * destruct s; reflexivity.
      * destruct (Z.eqb_spec w 0); [contradiction |]. destruct s; reflexivity.
  - pose proof (float_of_int_raises w e Eg) as ->.
    split; [reflexivity |].
    split; [| intros s]; rewrite run_render_bar_html; unfold bar_fill;
      rewrite py_truediv_float_100; cbn [Res.bind py_mul]; rewrite Eg; reflexivity.
Qed.

(** X5.  A bar that is drawn has as many cells as its width says, whatever
    the percentage, in range or not, [int] or [float]: the filled and the
    empty cells add up to the width when it is positive, and there is no cell
    at all for a width of 0 or less, where the document is the two spans with
    nothing in them, the first in the color of the tier, in either mode. *)
Theorem bar_has_width_cells (pct : pynum) (theme : Theme) (w : Z) (rb : bool)
    (off : Z) (doc : string) :
  run (render_bar_html pct theme w rb off) = Ok doc ->
  (plain_theme theme ->
     (filled_cells doc + empty_cells doc)%nat = Z.to_nat w) /\
  (w <= 0 -> doc = span (bar_color pct theme) "" +:+ span "#3a3a3a" "").
Proof.
  intros H. apply run_render_bar_html_inv in H as (f & Hf & ->).
  apply bar_fill_inv in Hf as (x & g & r & _ & _ & _ & ->).
  split.
  - intros Hth.
    destruct (bar_cells_count_nat pct theme rb off (Z.max 0 (Z.min w r))
                (w - Z.max 0 (Z.min w r)) Hth) as [-> ->]. lia.
  - intros Hw. replace (Z.max 0 (Z.min w r)) with 0 by lia.
    unfold filled_region, empty_region, py_str_mul.
    rewrite andb_false_r. replace (Z.to_nat (w - 0)) with O by lia. reflexivity.
Qed.

Lemma bar_has_width_cells_witness :
  (plain_theme default_theme ->
     (filled_cells (span "#ef4444" (py_str_mul HEAVY 7) +:+ span "#3a3a3a" "")
      + empty_cells (span "#ef4444" (py_str_mul HEAVY 7) +:+ span "#3a3a3a" ""))%nat
     = Z.to_nat 7) /\
  run (render_bar_html (PyInt 62) default_theme (-3) true 0)
  = Ok (span (bar_color (PyInt 62) default_theme) "" +:+ span "#3a3a3a" "").
Proof.
  split.
  - apply (bar_has_width_cells (PyInt 150) default_theme 7 false 0). reflexivity.
  - destruct (bar_has_width_cells (PyInt 62) default_theme (-3) true 0
                (span "#eab308" "" +:+ span "#3a3a3a" "") eq_refl) as [_ H].
    rewrite <- H by lia. reflexivity.
Defined.

(** ** The rotation of the palette *)

Lemma palette_color_shift (i k : Z) : palette_color (i + 10 * k) = palette_color i.
Proof.
  unfold palette_color. replace (i + 10 * k) with (i + k * 10) by lia.
  now rewrite Z_mod_plus_full.
Qed.

Lemma rainbow_cells_shift (off k : Z) (n : nat) : forall j,
  rainbow_cells (off + 10 * k) n j = rainbow_cells off n j.
Proof.
  induction n as [| n IH]; intros j; cbn [rainbow_cells]; [reflexivity |].
  rewrite IH. replace (j + (off + 10 * k)) with (j + off + 10 * k) by lia.
  now rewrite palette_color_shift.
Qed.

Lemma render_bar_html_shift (pct : pynum) (theme : Theme) (w : Z) (rb : bool) (off k : Z) :
  run (render_bar_html pct theme w rb (off + 10 * k))
  = run (render_bar_html pct theme w rb off).
Proof.
  rewrite !run_render_bar_html. destruct (bar_fill pct w) as [f |]; [| reflexivity].
  cbn [Res.bind]. unfold filled_region. now rewrite rainbow_cells_shift.
Qed.

(** X6.  The rotation of the palette has period 10 in the offset, which may
    be any integer, negative too: a bar and the documents of both composers
    are the same for the offsets [off] and [off + 10 * k].  The ten offsets
    [main] runs through are one full turn. *)
Theorem offset_period (k : Z) :
  (forall pct theme w rb off,
     run (render_bar_html pct theme w rb (off + 10 * k))
     = run (render_bar_html pct theme w rb off)) /\
  (forall tn th sp wp cp rt plan model fn tf desc rb off eu el su,
     run (generate_frame_html tn th sp wp cp rt plan model fn tf desc rb
                              (off + 10 * k) eu el su)
     = run (generate_frame_html tn th sp wp cp rt plan model fn tf desc rb
                                off eu el su)) /\
  (forall tn th sp wp cp rt plan model fn tf rb off su scu,
     run (generate_statusline_html tn th sp wp cp rt plan model fn tf rb
                                   (off + 10 * k) su scu)
     = run (generate_statusline_html tn th sp wp cp rt plan model fn tf rb
                                     off su scu)).
Proof.
  assert (R : forall pct theme w rb off d,
            eval (render_bar_html pct theme w rb (off + 10 * k + d)) module_globals
            = eval (render_bar_html pct theme w rb (off + d)) module_globals).
  { intros. replace (off + 10 * k + d) with (off + d + 10 * k) by lia.
    apply render_bar_html_shift. }
  assert (R0 : forall pct theme w rb off,
            eval (render_bar_html pct theme w rb (off + 10 * k)) module_globals
            = eval (render_bar_html pct theme w rb off) module_globals).
  { intros. apply render_bar_html_shift. }
  repeat apply conj.
  - intros. apply render_bar_html_shift.
  - intros. change (run ?c) with (eval c module_globals).
    rewrite !eval_generate_frame_html.
    rewrite R0, (R wp th 10 rb off 3), (R cp th 10 rb off 6).
    assert (X : extra_part module_globals th rb (off + 10 * k) eu el
                = extra_part module_globals th rb off eu el).
    { unfold extra_part. destruct (truthy eu && truthy el); [| reflexivity].
      destruct (extra_percent eu el) as [p |]; [| reflexivity].
      cbn [Res.bind]. now rewrite (R p th 10 rb off 9). }
    now rewrite X.
  - intros. change (run ?c) with (eval c module_globals).
    rewrite !eval_generate_statusline_html.
    now rewrite R0, (R wp th 10 rb off 3), (R cp th 10 rb off 6).
Qed.

(** * Further properties of the composers *)

(** X7.  Both composers take [int] percentages only: the label
    [f"{pct:3d}%"] refuses a [float], so that with a [float] for one of the
    three percentages no document is composed; the exception is the
    [ValueError] of the label when the three bars are drawn. *)
Theorem float_percentage_refused g tn th sp wp cp rt plan model fn tf desc rb off
    eu el su scu :
  (exists f, sp = PyFloat f \/ wp = PyFloat f \/ cp = PyFloat f) ->
  let frame :=
    eval (generate_frame_html tn th sp wp cp rt plan model fn tf desc rb off
                              eu el su) g in
  let line :=
    eval (generate_statusline_html tn th sp wp cp rt plan model fn tf rb off
                                   su scu) g in
  is_ok frame = false /\ is_ok line = false /\
  (is_ok (eval (render_bar_html sp th 10 rb off) g) = true ->
   is_ok (eval (render_bar_html wp th 10 rb (off + 3)) g) = true ->
   is_ok (eval (render_bar_html cp th 10 rb (off + 6)) g) = true ->
   frame = Raise ValueError /\ line = Raise ValueError).
Proof.
  intros (f & Hf). cbv zeta.
  rewrite eval_generate_frame_html, eval_generate_statusline_html.
  destruct (eval (render_bar_html sp th 10 rb off) g) as [sb | e1];
    [| repeat split; try reflexivity; discriminate].
  destruct (eval (render_bar_html wp th 10 rb (off + 3)) g) as [wb | e2];
    [| repeat split; try reflexivity; discriminate].
  destruct (eval (render_bar_html cp th 10 rb (off + 6)) g) as [cb | e3];
    [| repeat split; try reflexivity; discriminate].
  cbn [Res.bind].
  destruct sp as [a | fa], wp as [b | fb], cp as [c | fc];
    try (repeat split; reflexivity).
  destruct Hf as [H | [H | H]]; discriminate.
Qed.

Lemma float_percentage_refused_witness :
  is_ok (run (generate_frame_html "default" default_theme (PyFloat f62_5) (PyInt 45)
                (PyInt 55) "1h 48m" "Max 20x" "Opus 4.6" 1 46 "active session"
                false 0 "" "" false)) = false /\
  run (generate_statusline_html "default" default_theme (PyFloat f62_5) (PyInt 45)
         (PyInt 55) "1h 48m" "Max 20x" "Opus 4.6" 1 46 false 0 false false)
  = Raise ValueError.
Proof.
  destruct (float_percentage_refused module_globals "default" default_theme
              (PyFloat f62_5) (PyInt 45) (PyInt 55) "1h 48m" "Max 20x" "Opus 4.6"
              1 46 "active session" false 0 "" "" false false)
    as (H1 & _ & H3).
  - exists f62_5. now left.
  - split; [exact H1 |]. apply H3; reflexivity.
Defined.







(** X11.  The composers escape nothing: the plan, and the theme name of the
    full mockup and the model of the status line, go into the document as
    they are, markup included, at one place each, and the rest of the
    document does not depend on them. *)
Theorem strings_inserted_verbatim g tn th sp wp cp rt plan model fn tf desc rb off
    eu el su scu :
  verbatim (fun s => eval (generate_frame_html tn th sp wp cp rt s model fn tf desc
                             rb off eu el su) g) /\
  verbatim (fun s => eval (generate_frame_html s th sp wp cp rt plan model fn tf desc
                             rb off eu el su) g) /\
  verbatim (fun s => eval (generate_statusline_html tn th sp wp cp rt s model fn tf
                             rb off su scu) g) /\
  verbatim (fun s => eval (generate_statusline_html tn th sp wp cp rt plan s fn tf
                             rb off su scu) g).
Proof.
  unfold verbatim.
  assert (F : forall s tn' , eval (generate_frame_html tn' th sp wp cp rt s model fn tf desc
                                rb off eu el su) g
            = Res.bind
                (Res.bind (eval (render_bar_html sp th 10 rb off) g) (fun session_bar =>
                 Res.bind (eval (render_bar_html wp th 10 rb (off + 3)) g) (fun weekly_bar =>
                 Res.bind (eval (render_bar_html cp th 10 rb (off + 6)) g) (fun ctx_bar =>
                 Res.bind (format_3d sp) (fun s' =>
                 Res.bind (format_3d wp) (fun w =>
                 Res.bind (format_3d cp) (fun c =>
                 Res.bind (extra_part g th rb off eu el) (fun extra =>
                 Ok (frame_before (low th) (mascot_text g) model session_bar weekly_bar
                                  ctx_bar s' w c (reset_field rt) +:+ extra)))))))))
                (fun head => Ok (head +:+ frame_after su s model tn' fn tf))).
  { intros s tn'. rewrite eval_generate_frame_html.
    destruct (eval (render_bar_html sp th 10 rb off) g); [| reflexivity].
    destruct (eval (render_bar_html wp th 10 rb (off + 3)) g); [| reflexivity].
    destruct (eval (render_bar_html cp th 10 rb (off + 6)) g); [| reflexivity].
    destruct (format_3d sp); [| reflexivity].
    destruct (format_3d wp); [| reflexivity].
    destruct (format_3d cp); [| reflexivity].
    destruct (extra_part g th rb off eu el); [| reflexivity].
    cbn [Res.bind]. now rewrite append_assoc. }
  assert (L : forall s m, eval (generate_statusline_html tn th sp wp cp rt s m fn tf
                                rb off su scu) g
            = Res.bind
                (Res.bind (eval (render_bar_html sp th 10 rb off) g) (fun session_bar =>
                 Res.bind (eval (render_bar_html wp th 10 rb (off + 3)) g) (fun weekly_bar =>
                 Res.bind (eval (render_bar_html cp th 10 rb (off + 6)) g) (fun ctx_bar =>
                 Res.bind (format_3d sp) (fun s' =>
                 Res.bind (format_3d wp) (fun w =>
                 Res.bind (format_3d cp) (fun c =>
                 Ok (statusline_before session_bar weekly_bar ctx_bar s' w c
                                       (reset_field rt)
                     +:+ update_badges su scu))))))))
                (fun head => Ok (head +:+ statusline_after s m))).
  { intros s m. rewrite eval_generate_statusline_html.
    destruct (eval (render_bar_html sp th 10 rb off) g); [| reflexivity].
    destruct (eval (render_bar_html wp th 10 rb (off + 3)) g); [| reflexivity].
    destruct (eval (render_bar_html cp th 10 rb (off + 6)) g); [| reflexivity].
    destruct (format_3d sp); [| reflexivity].
    destruct (format_3d wp); [| reflexivity].
    destruct (format_3d cp); [| reflexivity].
    cbn [Res.bind]. now rewrite append_assoc. }
  repeat apply conj.
  - match type of F with forall s tn', _ = Res.bind ?h _ => destruct h as [head | e] eqn:E end.
    + right.
      exists (head +:+ (if su then badge "Pulse Update" else "") +:+ sep
              +:+ "<span class=" +:+ dq +:+ "sl" +:+ dq +:+ ">"),
             ("</span>" +:+ sep +:+ sl model +:+ FRAME_HTML_6 +:+ tn +:+ FRAME_HTML_7
              +:+ py_str fn +:+ FRAME_HTML_8 +:+ py_str tf +:+ FRAME_HTML_9).
      intros s. rewrite F. cbn [Res.bind]. unfold frame_after, sl.
      now rewrite !append_assoc.
    + left. exists e. intros s. now rewrite F.
  - match type of F with forall s tn', _ = Res.bind ?h _ => destruct h as [head | e] eqn:E end.
    + right.
      exists (head +:+ (if su then badge "Pulse Update" else "") +:+ sep +:+ sl plan
              +:+ sep +:+ sl model +:+ FRAME_HTML_6),
             (FRAME_HTML_7 +:+ py_str fn +:+ FRAME_HTML_8 +:+ py_str tf +:+ FRAME_HTML_9).
      intros s. rewrite F. cbn [Res.bind]. unfold frame_after.
      now rewrite !append_assoc.
    + left. exists e. intros s. now rewrite F.
  - match type of L with forall s m, _ = Res.bind ?h _ => destruct h as [head | e] eqn:E end.
    + right.
      exists (head +:+ sep +:+ "<span class=" +:+ dq +:+ "sl" +:+ dq +:+ ">"),
             ("</span>" +:+ sep +:+ sl model +:+ STATUSLINE_HTML_2).
      intros s. rewrite L. cbn [Res.bind]. unfold statusline_after, sl.
      now rewrite !append_assoc.
    + left. exists e. intros s. now rewrite L.
  - match type of L with forall s m, _ = Res.bind ?h _ => destruct h as [head | e] eqn:E end.
    + right.
      exists (head +:+ sep +:+ sl plan +:+ sep
              +:+ "<span class=" +:+ dq +:+ "sl" +:+ dq +:+ ">"),
             ("</span>" +:+ STATUSLINE_HTML_2).
      intros s. rewrite L. cbn [Res.bind]. unfold statusline_after, sl.
      now rewrite !append_assoc.
    + left. exists e. intros s. now rewrite L.
Qed.

(** * The labels *)





(** * The extra-usage bar *)

Lemma dval_int (z : Z) : (dval z 0 == inject_Z z)%Q.
Proof. unfold dval. change (2 ^ 0)%Q with 1%Q. ring. Qed.

(** The percentage of an amount to itself, [100 * l / l] in binary64, for a
    normal [l] that is not huge: a float from 96 to 128. *)
Lemma percent_of_itself (m : positive) (e : Z) :
  valid_binary prec emax (S754_finite false m e) = true ->
  2 ^ 52 <= Zpos m -> e <= 948 ->
  exists mp ep,
    SFdiv prec emax (SFmul prec emax f100 (S754_finite false m e)) (S754_finite false m e)
    = S754_finite false mp ep /\
    (96 <= dval (Zpos mp) ep)%Q /\ (dval (Zpos mp) ep <= 128)%Q.
Proof.
  intros V Hn He.
  destruct (valid_finite _ _ _ V) as (Hev & Hm & _). unfold prec, emax in Hev, Hm.
  assert (V100 : valid_binary prec emax f100 = true) by reflexivity.
  pose proof (dval_pos (Zpos m) e ltac:(lia)) as Pl.
  set (M := 7036874417766400%positive).
  assert (HM : (dval (Zpos (M * m)) (-46 + e) == 100 * dval (Zpos m) e)%Q).
  { rewrite Pos2Z.inj_mul, dval_mul. subst M. rewrite f100_value. reflexivity. }
  set (t := 100 * Zpos m / 128).
  assert (Ht : 96 * Zpos m <= 128 * t <= 100 * Zpos m).
  { subst t. pose proof (Z.mul_div_le (100 * Zpos m) 128 ltac:(lia)).
    pose proof (Z.mul_succ_div_gt (100 * Zpos m) 128 ltac:(lia)). lia. }
  assert (HT : (dval t (e + 7) == dval (128 * t) e)%Q).
  { rewrite (dval_align t (e + 7) e) by lia.
    replace (e + 7 - e) with 7 by lia. change (2 ^ 7) with 128.
    now rewrite Z.mul_comm. }
  assert (HT' : (dval (Zpos m) (e + 7) == 128 * dval (Zpos m) e)%Q).
  { rewrite (dval_align (Zpos m) (e + 7) e) by lia.
    replace (e + 7 - e) with 7 by lia. change (2 ^ 7) with 128.
    unfold dval. rewrite inject_Z_mult. change (inject_Z 128) with 128%Q. ring. }
  (* the product *)
  assert (Hal : -46 + e <= fexp prec emax (Zdigits2 (Zpos (M * m)) + (-46 + e))).
  { exact (mul_aligned false false M m (-46) e V100 V). }
  pose proof (binary_round_aux_lower false (Zpos (M * m)) (-46 + e) loc_Exact
                (dval (Zpos (M * m)) (-46 + e)) t (e + 7)
                ltac:(lia) Hal ltac:(unfold prec; lia)
                (dval_succ_lt _ _) ltac:(lia)) as Lo.
  pose proof (binary_round_aux_upper false (Zpos (M * m)) (-46 + e) loc_Exact
                (dval (Zpos (M * m)) (-46 + e)) (Zpos m) (e + 7)
                ltac:(lia) Hal ltac:(unfold prec; lia)
                (Qle_refl _) ltac:(intros H; now contradiction H)
                ltac:(unfold emax, prec; lia)) as Up.
  assert (Lo' : mag_ge (SFmul prec emax f100 (S754_finite false m e)) (dval t (e + 7))).
  { apply Lo. rewrite HT, HM. rewrite <- (Qmult_1_l (dval (128 * t) e)).
    assert (A : (dval (128 * t) e <= dval (100 * Zpos m) e)%Q) by (apply dval_le; lia).
    assert (B : (dval (100 * Zpos m) e == 100 * dval (Zpos m) e)%Q).
    { unfold dval. rewrite inject_Z_mult. change (inject_Z 100) with 100%Q. ring. }
    lra. }
  assert (Up' : mag_le (SFmul prec emax f100 (S754_finite false m e))
                       (dval (Zpos m) (e + 7))).
  { apply Up. rewrite HT', HM. lra. }
  destruct (SFmul_sign f100 (S754_finite false m e) false false V100 V eq_refl eq_refl)
    as [N | Sn]; [rewrite N in Lo'; contradiction |].
  destruct (SFmul prec emax f100 (S754_finite false m e)) as [| | | sn mn en] eqn:En;
    cbn [mag_ge mag_le] in Lo', Up'; try contradiction.
  cbn [float_sign_is xorb] in Sn. subst sn.
  (* the quotient *)
  assert (G96 : (dval 96 0 * dval (Zpos m) e <= dval (Zpos mn) en)%Q).
  { rewrite dval_int. change (inject_Z 96) with 96%Q.
    assert (A : (dval (96 * Zpos m) e <= dval (128 * t) e)%Q) by (apply dval_le; lia).
    assert (B : (dval (96 * Zpos m) e == 96 * dval (Zpos m) e)%Q).
    { unfold dval. rewrite inject_Z_mult. change (inject_Z 96) with 96%Q. ring. }
    rewrite HT in Lo'. lra. }
  assert (L128 : (dval (Zpos mn) en <= dval 128 0 * dval (Zpos m) e)%Q).
  { rewrite dval_int. change (inject_Z 128) with 128%Q. rewrite HT' in Up'. exact Up'. }
  pose proof (SFdiv_lower false false mn m en e 96 0 ltac:(unfold prec; lia)
                ltac:(lia) G96) as Dlo.
  pose proof (SFdiv_upper false false mn m en e 128 0 ltac:(unfold prec; lia)
                ltac:(unfold emax, prec; lia) L128) as Dup.
  destruct (SFdiv_valid false false mn m en e) as [_ Sp].
  destruct (SFdiv prec emax (S754_finite false mn en) (S754_finite false m e))
    as [| | | sp mp ep]; cbn [mag_ge mag_le] in Dlo, Dup; try contradiction.
  cbn [float_sign_is xorb] in Sp. subst sp.
  exists mp, ep. rewrite dval_int in Dlo, Dup.
  change (inject_Z 96) with 96%Q in Dlo. change (inject_Z 128) with 128%Q in Dup.
  repeat split; assumption.
Qed.

Lemma bar_fill_near_100 (mp : positive) (ep : Z) :
  (96 <= dval (Zpos mp) ep)%Q -> (dval (Zpos mp) ep <= 128)%Q ->
  bar_fill (PyFloat (S754_finite false mp ep)) 10 = Ok 10.
Proof.
  intros H96 H128.
  destruct (bar_fill_moderate (PyFloat (S754_finite false mp ep)) 10) as [f Hf].
  - apply py_ge_finite. cbn [signed].
    assert (A : (inject_Z (- moderate) <= 0)%Q).
    { change 0%Q with (inject_Z 0). rewrite <- Zle_Qle. unfold moderate. lia. }
    lra.
  - apply py_le_finite. cbn [signed].
    assert (A : (128 <= inject_Z moderate)%Q).
    { change 128%Q with (inject_Z 128). rewrite <- Zle_Qle. unfold moderate. lia. }
    lra.
  - lia.
  - assert (F96 : bar_fill (PyInt 96) 10 = Ok 10) by reflexivity.
    assert (Hle : py_le (PyInt 96) (PyFloat (S754_finite false mp ep)) = true).
    { rewrite <- py_ge_le_flip. apply py_ge_finite. cbn [signed].
      change (inject_Z 96) with 96%Q. exact H96. }
    pose proof (bar_fill_mono _ _ _ _ _ Hle F96 Hf) as Hm.
    pose proof Hf as Hf'.
    apply bar_fill_inv in Hf' as (x & g & r & _ & _ & _ & E).
    rewrite Hf. f_equal. lia.
Qed.

(** X13.  The two ends of the extra-usage bar.  When the amount used reads
    as a zero, the percentage is a zero and the bar has no filled cell,
    whatever the limit that is neither a zero nor a NaN.  When the amount
    used and the limit read as the same normal float, up to about 2^1000,
    the percentage [100 * l / l], which binary64 need not make 100, is
    between 96 and 128 and all the ten cells are filled. *)
Theorem extra_bar_extremes (eu el : string) (u l : spec_float) :
  py_float (strip_pound eu) = Ok u -> py_float (strip_pound el) = Ok l ->
  (is_zero u = true -> is_zero l = false -> l <> S754_nan ->
     exists p, extra_percent eu el = Ok p /\ bar_fill p 10 = Ok 0) /\
  (u = l ->
   forall m e, l = S754_finite false m e ->
     valid_binary prec emax l = true -> 2 ^ 52 <= Zpos m -> e <= 948 ->
     exists p, extra_percent eu el = Ok p /\ bar_fill p 10 = Ok 10).
Proof.
  intros Eu El. rewrite extra_percent_unfold, Eu, El. cbn [Res.bind].
  unfold float_truediv. split.
  - intros Zu Zl Nl. rewrite Zl. cbn [Res.bind].
    destruct u as [su | | |]; try discriminate.
    destruct l as [sl | sl | | sl ml el']; try discriminate; try congruence;
      eexists; (split; [reflexivity |]); destruct su, sl; reflexivity.
  - intros -> m e -> V Hn He. cbn [is_zero Res.bind].
    destruct (percent_of_itself m e V Hn He) as (mp & ep & E & H96 & H128).
    change (S754_finite false 7036874417766400 (-46)) with f100. rewrite E.
    eexists. split; [reflexivity |]. now apply bar_fill_near_100.
Qed.

Lemma extra_bar_extremes_witness :
  (exists p, extra_percent "£0.00" "£37.00" = Ok p /\ bar_fill p 10 = Ok 0) /\
  (exists p, extra_percent "£37.00" "£37.00" = Ok p /\ bar_fill p 10 = Ok 10).
Proof.
  split.
  - destruct (extra_bar_extremes "£0.00" "£37.00" (S754_zero false)
                (S754_finite false 5207287069147136 (-47)) eq_refl eq_refl) as [H _].
    apply H; [reflexivity | reflexivity | discriminate].
  - destruct (extra_bar_extremes "£37.00" "£37.00"
                (S754_finite false 5207287069147136 (-47))
                (S754_finite false 5207287069147136 (-47)) eq_refl eq_refl) as [_ H].
    apply (H eq_refl 5207287069147136%positive (-47) eq_refl); [reflexivity | lia | lia].
Defined.

(** * What the bar and the composers never do *)

(** X14.  A rainbow bar with a filled cell owes nothing to the theme: it is
    the same for any two themes.  Only an empty bar shows the theme in
    rainbow mode, by the color of the tier on its filled span that holds no
    cell. *)
Theorem rainbow_ignores_theme (pct : pynum) (th1 th2 : Theme) (w off f : Z) :
  bar_fill pct w = Ok f ->
  (0 < f ->
   run (render_bar_html pct th1 w true off) = run (render_bar_html pct th2 w true off)) /\
  (f = 0 ->
   run (render_bar_html pct th1 w true off)
   = Ok (span (bar_color pct th1) "" +:+ empty_region w)).
Proof.
  intros Hf. rewrite !run_render_bar_html, Hf. cbn [Res.bind]. unfold filled_region.
  split.
  - intros Hpos. destruct (Z.ltb_spec 0 f); [reflexivity | lia].
  - intros ->. replace (w - 0) with w by lia. reflexivity.
Qed.

Lemma rainbow_ignores_theme_witness :
  run (render_bar_html (PyInt 55) default_theme 10 true 3)
  = run (render_bar_html (PyInt 55) (mkTheme "#ff0000" "#00ff00" "#ff00ff") 10 true 3) /\
  run (render_bar_html (PyInt 4) default_theme 10 true 3)
  = Ok (span (bar_color (PyInt 4) default_theme) "" +:+ empty_region 10).
Proof.
  split.
  - destruct (rainbow_ignores_theme (PyInt 55) default_theme
                (mkTheme "#ff0000" "#00ff00" "#ff00ff") 10 3 6 eq_refl) as [H _].
    apply H. lia.
  - destruct (rainbow_ignores_theme (PyInt 4) default_theme default_theme 10 3 0 eq_refl)
      as [_ H].
    apply H. reflexivity.
Defined.






(** * The mascot *)







(** * The driver *)

Lemma eval_ret {A} (a : A) g : eval (ret a) g = Ok a.
Proof. reflexivity. Qed.

Lemma eval_lift {A} (r : result A) g : eval (lift r) g = r.
Proof. reflexivity. Qed.

Lemma eval_lookup_theme (name : string) g :
  eval (lookup_theme name) g =
  match THEME_CSS g !! name with Some t => Ok t | None => Raise KeyError end.
Proof.
  unfold lookup_theme, eval, bind, global. cbn [fst snd].
  destruct (THEME_CSS g !! name); reflexivity.
Qed.

Lemma eval_rainbow_color_ok g (off j : Z) :
  RAINBOW_COLORS g <> [] -> exists c, eval (rainbow_color off j) g = Ok c.
Proof.
  intros Hp. unfold rainbow_color.
  rewrite eval_bind by auto with reads.
  change (eval (global RAINBOW_COLORS) g) with (Ok (RAINBOW_COLORS g)).
  cbn [Res.bind]. rewrite eval_bind by auto with reads. rewrite eval_lift.
  set (n := Z.of_nat (length (RAINBOW_COLORS g))).
  assert (Hn : 0 < n).
  { subst n. destruct (RAINBOW_COLORS g); [contradiction | cbn [length]; lia]. }
  unfold py_mod. destruct (Z.eqb_spec n 0); [lia |]. cbn [Res.bind].
  rewrite eval_lift. unfold py_getitem. fold n.
  pose proof (Z.mod_pos_bound (j + off) n Hn) as B.
  destruct (Z.ltb_spec ((j + off) mod n) 0); [lia |].
  destruct (Z.leb_spec 0 ((j + off) mod n)); [| lia].
  destruct (Z.ltb_spec ((j + off) mod n) n); [| lia]. cbn [andb].
  destruct (nth_error (RAINBOW_COLORS g) (Z.to_nat ((j + off) mod n))) eqn:E; [eauto |].
  apply nth_error_None in E. subst n. lia.
Qed.

Lemma eval_rainbow_loop_ok g (off : Z) (n : nat) : forall j parts,
  RAINBOW_COLORS g <> [] -> exists s, eval (rainbow_loop off n j parts) g = Ok s.
Proof.
  induction n as [| n IH]; intros j parts Hp; cbn [rainbow_loop].
  - eauto.
  - rewrite eval_bind by apply rainbow_step_reads_only.
    unfold rainbow_step. rewrite eval_bind by apply rainbow_color_reads_only.
    destruct (eval_rainbow_color_ok g off j Hp) as [c ->].
    cbn [Res.bind]. rewrite eval_ret. cbn [Res.bind]. now apply IH.
Qed.

(** A bar is drawn in any module state with a palette that is not empty. *)
Lemma eval_render_ok g (pct : pynum) (th : Theme) (w : Z) (rb : bool) (off f : Z) :
  RAINBOW_COLORS g <> [] -> bar_fill pct w = Ok f ->
  exists doc, eval (render_bar_html pct th w rb off) g = Ok doc.
Proof.
  intros Hp Hf. unfold render_bar_html. unfold bar_fill in Hf.
  rewrite eval_bind by auto with reads. rewrite eval_lift.
  destruct (py_truediv pct (PyInt 100)) as [x |]; [| discriminate].
  cbn [Res.bind] in Hf |- *. rewrite eval_bind by auto with reads. rewrite eval_lift.
  destruct (py_mul x (PyInt w)) as [y |]; [| discriminate].
  cbn [Res.bind] in Hf |- *. rewrite eval_bind by auto with reads. rewrite eval_lift.
  destruct (py_round y) as [r |]; [| discriminate].
  cbn [Res.bind]. rewrite eval_bind by auto with reads.
  change (eval (global DIM_COLOR) g) with (Ok (DIM_COLOR g)). cbn [Res.bind].
  destruct (rb && (0 <? Z.max 0 (Z.min w r))).
  - rewrite eval_bind by auto with reads.
    destruct (eval_rainbow_loop_ok g off (Z.to_nat (Z.max 0 (Z.min w r))) 0 "" Hp)
      as [s ->].
    cbn [Res.bind]. rewrite eval_ret. eauto.
  - rewrite eval_ret. eauto.
Qed.

Lemma eval_render_int_ok g (a : Z) (th : Theme) (rb : bool) (off : Z) :
  RAINBOW_COLORS g <> [] -> - 2 ^ 960 <= a <= 2 ^ 960 ->
  exists doc, eval (render_bar_html (PyInt a) th 10 rb off) g = Ok doc.
Proof.
  intros Hp Ha. destruct (bar_fill_moderate (PyInt a) 10) as [f Hf].
  - rewrite py_ge_int. apply Z.leb_le. unfold moderate. lia.
  - rewrite py_le_int. apply Z.leb_le. unfold moderate. lia.
  - lia.
  - eapply eval_render_ok; eassumption.
Qed.

Lemma frame_ok g tn th (a b c : Z) rt plan model fn tf desc rb off eu el su :
  RAINBOW_COLORS g <> [] ->
  - 2 ^ 960 <= a <= 2 ^ 960 -> - 2 ^ 960 <= b <= 2 ^ 960 -> - 2 ^ 960 <= c <= 2 ^ 960 ->
  (exists p f, extra_percent eu el = Ok p /\ bar_fill p 10 = Ok f) ->
  exists doc,
    eval (generate_frame_html tn th (PyInt a) (PyInt b) (PyInt c) rt plan model fn tf
                              desc rb off eu el su) g = Ok doc.
Proof.
  intros Hp Ha Hb Hc (p & f & Ep & Ef).
  rewrite eval_generate_frame_html.
  destruct (eval_render_int_ok g a th rb off Hp Ha) as [sb ->].
  destruct (eval_render_int_ok g b th rb (off + 3) Hp Hb) as [wb ->].
  destruct (eval_render_int_ok g c th rb (off + 6) Hp Hc) as [cb ->].
  cbn [Res.bind format_3d]. unfold extra_part.
  destruct (truthy eu && truthy el); [| cbn [Res.bind]; eauto].
  rewrite Ep. cbn [Res.bind].
  destruct (eval_render_ok g p th 10 rb (off + 9) f Hp Ef) as [xb ->].
  cbn [Res.bind]. eauto.
Qed.

Lemma statusline_ok g tn th (a b c : Z) rt plan model fn tf rb off su scu :
  RAINBOW_COLORS g <> [] ->
  - 2 ^ 960 <= a <= 2 ^ 960 -> - 2 ^ 960 <= b <= 2 ^ 960 -> - 2 ^ 960 <= c <= 2 ^ 960 ->
  exists doc,
    eval (generate_statusline_html tn th (PyInt a) (PyInt b) (PyInt c) rt plan model
                                   fn tf rb off su scu) g = Ok doc.
Proof.
  intros Hp Ha Hb Hc.
  rewrite eval_generate_statusline_html.
  destruct (eval_render_int_ok g a th rb off Hp Ha) as [sb ->].
  destruct (eval_render_int_ok g b th rb (off + 3) Hp Hb) as [wb ->].
  destruct (eval_render_int_ok g c th rb (off + 6) Hp Hc) as [cb ->].
  cbn [Res.bind format_3d]. eauto.
Qed.

(** The loop that collects: every turn returning, it returns as many results
    as there are turns; the first turn that raises ends it. *)
Lemma eval_for_each_cons {A B} (a : A) (l : list A) (body : A -> M B) g :
  (forall x, reads_only (body x)) ->
  eval (for_each (a :: l) body) g =
  Res.bind (eval (body a) g) (fun b =>
  Res.bind (eval (for_each l body) g) (fun bs => Ok (b :: bs))).
Proof.
  intros Hb. cbn [for_each]. rewrite eval_bind by apply Hb.
  destruct (eval (body a) g) as [b |]; [| reflexivity]. cbn [Res.bind].
  rewrite eval_bind by (apply for_each_reads_only, Hb).
  destruct (eval (for_each l body) g); reflexivity.
Qed.

Lemma for_each_ok {A B} (l : list A) (body : A -> M B) g :
  (forall x, reads_only (body x)) ->
  Forall (fun a => exists b, eval (body a) g = Ok b) l ->
  exists bs, eval (for_each l body) g = Ok bs /\ length bs = length l.
Proof.
  intros Hb H. induction H as [| a l (b & Eb) _ (bs & Ebs & Hlen)].
  - exists []. split; reflexivity.
  - exists (b :: bs). rewrite eval_for_each_cons, Eb, Ebs by exact Hb.
    split; [reflexivity | cbn [length]; now rewrite Hlen].
Qed.

Lemma for_each_lookup {A B} (l : list A) (key : A -> string) (F : A -> Theme -> B)
    (theme_of : string -> Theme) g :
  Forall (fun a => THEME_CSS g !! key a = Some (theme_of (key a))) l ->
  eval (for_each l (fun a => theme <- lookup_theme (key a) ;; ret (F a theme))) g
  = Ok (map (fun a => F a (theme_of (key a))) l).
Proof.
  intros H. induction H as [| a l Hn _ IH]; [reflexivity |].
  rewrite eval_for_each_cons by (intros; reads; apply lookup_theme_reads_only).
  rewrite eval_bind by apply lookup_theme_reads_only.
  rewrite eval_lookup_theme, Hn. cbn [Res.bind]. rewrite eval_ret. cbn [Res.bind].
  rewrite IH. reflexivity.
Qed.

Lemma for_each_lookup_missing {A B} (l : list A) (key : A -> string)
    (F : A -> Theme -> B) (a : A) g :
  In a l -> THEME_CSS g !! key a = None ->
  eval (for_each l (fun a => theme <- lookup_theme (key a) ;; ret (F a theme))) g
  = Raise KeyError.
Proof.
  intros Hin Hnone. induction l as [| n l IH]; [contradiction |].
  rewrite eval_for_each_cons by (intros; reads; apply lookup_theme_reads_only).
  rewrite eval_bind by apply lookup_theme_reads_only.
  rewrite eval_lookup_theme.
  destruct (THEME_CSS g !! key n) as [t |] eqn:E; [| reflexivity].
  cbn [Res.bind]. rewrite eval_ret. cbn [Res.bind].
  destruct Hin as [-> | Hin]; [congruence |].
  now rewrite (IH Hin).
Qed.

Lemma themes_present_or_missing (names : list string) g :
  Forall (fun n => THEME_CSS g !! n
                   = Some (default default_theme (THEME_CSS g !! n))) names \/
  exists n, In n names /\ THEME_CSS g !! n = None.
Proof.
  induction names as [| n names [IH | (m & Hin & Hm)]].
  - left. constructor.
  - destruct (THEME_CSS g !! n) as [t |] eqn:E.
    + left. constructor; [now rewrite E | exact IH].
    + right. exists n. split; [now left | exact E].
  - right. exists m. split; [now right | exact Hm].
Qed.

Lemma frames_data_missing g (name : string) :
  In name themes_to_show \/ name = "rainbow" -> THEME_CSS g !! name = None ->
  eval frames_data g = Raise KeyError.
Proof.
  intros Hin Hnone. unfold frames_data.
  rewrite eval_bind by (apply for_each_reads_only; intros; reads;
                        apply lookup_theme_reads_only).
  destruct (themes_present_or_missing themes_to_show g) as [Hall | (m & Hm & Em)].
  - pose proof (for_each_lookup themes_to_show (fun n => n)
                  (fun theme_name theme =>
                     map (fun '(session_pct, weekly_pct, ctx_pct, reset, desc, eu, el) =>
                            mkFrameData theme_name theme session_pct weekly_pct ctx_pct
                              reset "Max 20x" "Opus 4.6" desc false 0 eu el)
                         scenarios)
                  (fun n => default default_theme (THEME_CSS g !! n)) g Hall) as E.
    cbv beta in E. rewrite E. cbn [Res.bind].
    rewrite eval_bind by apply lookup_theme_reads_only.
    rewrite eval_lookup_theme.
    destruct Hin as [Hin | ->].
    + rewrite List.Forall_forall in Hall. specialize (Hall name Hin). congruence.
    + now rewrite Hnone.
  - pose proof (for_each_lookup_missing themes_to_show (fun n => n)
                  (fun theme_name theme =>
                     map (fun '(session_pct, weekly_pct, ctx_pct, reset, desc, eu, el) =>
                            mkFrameData theme_name theme session_pct weekly_pct ctx_pct
                              reset "Max 20x" "Opus 4.6" desc false 0 eu el)
                         scenarios)
                  m g Hm Em) as E.
    cbv beta in E. now rewrite E.
Qed.

Lemma enumerate_from_length {A} (l : list A) : forall i,
  length (enumerate_from i l) = length l.
Proof. induction l as [| a l IH]; intros i; cbn; [reflexivity |]. now rewrite IH. Qed.

Ltac frame_goal :=
  cbv beta iota delta [fd_tname fd_theme fd_sp fd_wp fd_cp fd_reset fd_plan fd_model
                       fd_desc fd_is_rb fd_c_off fd_eu fd_el];
  match goal with
  | |- exists b, eval (generate_frame_html _ _ _ _ _ _ _ _ _ _ _ _ _ _ _ _) _ = Ok b =>
      apply frame_ok;
      [ assumption | lia | lia | lia
      | eexists; eexists; split; [vm_compute; reflexivity | vm_compute; reflexivity] ]
  | |- exists b, eval (generate_statusline_html _ _ _ _ _ _ _ _ _ _ _ _ _ _) _ = Ok b =>
      apply statusline_ok; [ assumption | lia | lia | lia ]
  end.

Ltac frame_goals :=
  match goal with
  | |- Forall ?P ?l => let l' := eval vm_compute in l in change (Forall P l')
  end;
  repeat (apply List.Forall_cons; [frame_goal |]); apply List.Forall_nil.

Lemma frames_data_present g (theme_of : string -> Theme) :
  Forall (fun n => THEME_CSS g !! n = Some (theme_of n)) themes_to_show ->
  THEME_CSS g !! "rainbow" = Some (theme_of "rainbow") ->
  eval frames_data g =
  Ok (app (concat (map (fun theme_name =>
            map (fun '(session_pct, weekly_pct, ctx_pct, reset, desc, eu, el) =>
                   mkFrameData theme_name (theme_of theme_name) session_pct weekly_pct
                     ctx_pct reset "Max 20x" "Opus 4.6" desc false 0 eu el)
                scenarios) themes_to_show))
          (map (fun offset =>
                  mkFrameData "rainbow" (theme_of "rainbow") 55 38 45
                    "2h 10m" "Max 20x" "Opus 4.6" "animated shimmer"
                    true offset "£18.50" "£37.00")
               (seqZ 0 10))).
Proof.
  intros Hall Hr. unfold frames_data.
  rewrite eval_bind by (apply for_each_reads_only; intros; reads;
                        apply lookup_theme_reads_only).
  pose proof (for_each_lookup themes_to_show (fun n => n)
                (fun theme_name theme =>
                   map (fun '(session_pct, weekly_pct, ctx_pct, reset, desc, eu, el) =>
                          mkFrameData theme_name theme session_pct weekly_pct ctx_pct
                            reset "Max 20x" "Opus 4.6" desc false 0 eu el)
                       scenarios)
                theme_of g Hall) as E.
  cbv beta in E. rewrite E. cbn [Res.bind].
  rewrite eval_bind by apply lookup_theme_reads_only.
  rewrite eval_lookup_theme, Hr. reflexivity.
Qed.

Lemma update_frames_of_present g (theme_of : string -> Theme)
    (scen : list (Z * Z * Z * string * string)) :
  Forall (fun n => THEME_CSS g !! n = Some (theme_of n)) themes_to_show ->
  THEME_CSS g !! "rainbow" = Some (theme_of "rainbow") ->
  eval (update_frames_of scen) g =
  Ok (app (concat (map (fun tname =>
            map (fun '(sp, wp, cp, reset, desc) =>
                   mkFrameData tname (theme_of tname) sp wp cp reset
                     "Max 20x" "Opus 4.6" desc false 0 "" "")
                scen) themes_to_show))
          (map (fun offset =>
                  mkFrameData "rainbow" (theme_of "rainbow") 55 38 45
                    "2h 10m" "Max 20x" "Opus 4.6" "shimmer" true offset "" "")
               (seqZ 0 10))).
Proof.
  intros Hall Hr. unfold update_frames_of.
  rewrite eval_bind by (apply for_each_reads_only; intros; reads;
                        apply lookup_theme_reads_only).
  pose proof (for_each_lookup themes_to_show (fun n => n)
                (fun tname theme =>
                   map (fun '(sp, wp, cp, reset, desc) =>
                          mkFrameData tname theme sp wp cp reset
                            "Max 20x" "Opus 4.6" desc false 0 "" "")
                       scen)
                theme_of g Hall) as E.
  cbv beta in E. rewrite E. cbn [Res.bind].
  rewrite eval_bind by (apply for_each_reads_only; intros; reads;
                        apply lookup_theme_reads_only).
  pose proof (for_each_lookup (seqZ 0 10) (fun _ => "rainbow")
                (fun offset rainbow_theme =>
                   mkFrameData "rainbow" rainbow_theme 55 38 45
                     "2h 10m" "Max 20x" "Opus 4.6" "shimmer" true offset "" "")
                theme_of g) as E2.
  cbv beta in E2. rewrite E2; [reflexivity |].
  apply List.Forall_forall. intros; exact Hr.
Qed.

Lemma update_frames_of_missing g (name : string)
    (scen : list (Z * Z * Z * string * string)) :
  In name themes_to_show \/ name = "rainbow" -> THEME_CSS g !! name = None ->
  eval (update_frames_of scen) g = Raise KeyError.
Proof.
  intros Hin Hnone. unfold update_frames_of.
  rewrite eval_bind by (apply for_each_reads_only; intros; reads;
                        apply lookup_theme_reads_only).
  destruct (themes_present_or_missing themes_to_show g) as [Hall | (m & Hm & Em)].
  - pose proof (for_each_lookup themes_to_show (fun n => n)
                  (fun tname theme =>
                     map (fun '(sp, wp, cp, reset, desc) =>
                            mkFrameData tname theme sp wp cp reset
                              "Max 20x" "Opus 4.6" desc false 0 "" "")
                         scen)
                  (fun n => default default_theme (THEME_CSS g !! n)) g Hall) as E.
    cbv beta in E. rewrite E. cbn [Res.bind].
    destruct Hin as [Hin | ->].
    + rewrite List.Forall_forall in Hall. specialize (Hall name Hin). congruence.
    + rewrite eval_bind by (apply for_each_reads_only; intros; reads;
                            apply lookup_theme_reads_only).
      pose proof (for_each_lookup_missing (seqZ 0 10) (fun _ => "rainbow")
                    (fun offset rainbow_theme =>
                       mkFrameData "rainbow" rainbow_theme 55 38 45
                         "2h 10m" "Max 20x" "Opus 4.6" "shimmer" true offset "" "")
                    0 g ltac:(now left) Hnone) as E2.
      cbv beta in E2. now rewrite E2.
  - pose proof (for_each_lookup_missing themes_to_show (fun n => n)
                  (fun tname theme =>
                     map (fun '(sp, wp, cp, reset, desc) =>
                            mkFrameData tname theme sp wp cp reset
                              "Max 20x" "Opus 4.6" desc false 0 "" "")
                         scen)
                  m g Hm Em) as E.
    cbv beta in E. now rewrite E.
Qed.

(** X17.  [main] composes its documents in any state of the module that
    registers the nine themes it shows and the rainbow theme, whatever their
    colors, and has a palette that is not empty: 46 full mockups, 37 status
    lines with the Pulse badge and 37 with the Claude badge.  It skips no
    theme: when one of the ten names is not registered it raises [KeyError]
    and returns no document at all. *)
Theorem main_composes_or_raises g :
  ((forall name, In name themes_to_show \/ name = "rainbow" ->
                 THEME_CSS g !! name <> None) ->
   RAINBOW_COLORS g <> [] ->
   exists html1 html2 html3,
     eval main_documents g = Ok (html1, html2, html3) /\
     length html1 = 46%nat /\ length html2 = 37%nat /\ length html3 = 37%nat) /\
  (forall name, In name themes_to_show \/ name = "rainbow" ->
                THEME_CSS g !! name = None ->
                eval main_documents g = Raise KeyError).
Proof.
  split.
  - intros Hreg Hp.
    set (theme_of := fun n => default default_theme (THEME_CSS g !! n)).
    assert (Hof : forall name, In name themes_to_show \/ name = "rainbow" ->
                               THEME_CSS g !! name = Some (theme_of name)).
    { intros name Hn. specialize (Hreg name Hn). subst theme_of. cbv beta.
      destruct (THEME_CSS g !! name); [reflexivity | contradiction]. }
    assert (Hall : Forall (fun n => THEME_CSS g !! n = Some (theme_of n)) themes_to_show).
    { apply List.Forall_forall. intros n Hn. apply Hof. now left. }
    assert (Hr : THEME_CSS g !! "rainbow" = Some (theme_of "rainbow")).
    { apply Hof. now right. }
    clearbody theme_of.
    unfold main_documents.
    rewrite eval_bind by apply frames_data_reads_only.
    rewrite (frames_data_present g theme_of Hall Hr). cbn [Res.bind].
    rewrite eval_bind
      by (apply for_each_reads_only; intros [i fd]; apply generate_frame_html_reads_only).
    match goal with
    | |- context [for_each ?l ?body] =>
        destruct (for_each_ok l body g) as (html1 & -> & L1);
          [ intros [i fd]; apply generate_frame_html_reads_only
          | frame_goals
          | rewrite enumerate_from_length in L1; vm_compute in L1 ]
    end.
    cbn [Res.bind].
    rewrite eval_bind by apply update_frames_of_reads_only.
    rewrite (update_frames_of_present g theme_of _ Hall Hr). cbn [Res.bind].
    rewrite eval_bind
      by (apply for_each_reads_only; intros [i fd];
          apply generate_statusline_html_reads_only).
    match goal with
    | |- context [for_each ?l ?body] =>
        destruct (for_each_ok l body g) as (html2 & -> & L2);
          [ intros [i fd]; apply generate_statusline_html_reads_only
          | frame_goals
          | rewrite enumerate_from_length in L2; vm_compute in L2 ]
    end.
    cbn [Res.bind].
    rewrite eval_bind by apply update_frames_of_reads_only.
    rewrite (update_frames_of_present g theme_of _ Hall Hr). cbn [Res.bind].
    rewrite eval_bind
      by (apply for_each_reads_only; intros [i fd];
          apply generate_statusline_html_reads_only).
    match goal with
    | |- context [for_each ?l ?body] =>
        destruct (for_each_ok l body g) as (html3 & -> & L3);
          [ intros [i fd]; apply generate_statusline_html_reads_only
          | frame_goals
          | rewrite enumerate_from_length in L3; vm_compute in L3 ]
    end.
    cbn [Res.bind]. rewrite eval_ret.
    exists html1, html2, html3. repeat split; assumption.
  - intros name Hin Hnone. unfold main_documents.
    rewrite eval_bind by apply frames_data_reads_only.
    now rewrite (frames_data_missing g name Hin Hnone).
Qed.

Lemma main_composes_or_raises_witness :
  (exists html1 html2 html3,
     run main_documents = Ok (html1, html2, html3) /\
     length html1 = 46%nat /\ length html2 = 37%nat /\ length html3 = 37%nat) /\
  eval main_documents
       (mkGlobals (delete "neon" THEME_CSS_0) "#3a3a3a" RAINBOW_COLORS_0 MASCOT_PIXELS_0)
  = Raise KeyError.
Proof.
  split.
  - destruct (main_composes_or_raises module_globals) as [H _]. apply H.
    + intros name [Hin | ->]; [| vm_compute; discriminate].
      cbn [In themes_to_show] in Hin.
      repeat (destruct Hin as [<- | Hin]; [vm_compute; discriminate |]).
      contradiction.
    + discriminate.
  - destruct (main_composes_or_raises
                (mkGlobals (delete "neon" THEME_CSS_0) "#3a3a3a" RAINBOW_COLORS_0
                           MASCOT_PIXELS_0)) as [_ H].
    apply (H "neon"); [left; cbn; tauto | vm_compute; reflexivity].
Defined.
